(** * LogBot: log-line parser, KQL query parser and search index

    A shallow embedding of the three core pieces of the repository

    - [src/lib/parse.ts]   (class [LogParser]),
    - [src/lib/kql.ts]     (class [KQLParser]),
    - [src/lib/search.ts]  (class [LogSearchIndex]),
    - [src/lib/utils.ts]   ([normalizeLogLevel]),

    together with the fragments of the JavaScript host they run on
    (strings, regular expressions, [JSON.parse]/[JSON.stringify], [Date],
    [Map], [Array.prototype.sort]).

    Modelling conventions.
    - A JavaScript string is a [string]: a sequence of 8-bit units.  ASCII
      text is represented exactly; units above 127 are carried unchanged, have
      no case and are not white space (text is read as UTF-8 bytes).
    - A JavaScript number is an exact decimal [number]; rounding to binary64
      is not modelled.  [NaN] and the infinities only arise from conversions
      and live in [numeric].
    - A function that may throw returns an [outcome].
    - The clock, the id generator, [Date] string parsing, string-to-number
      conversion and the MiniSearch text engine are host parameters. *)

From Stdlib Require Import Bool Arith NArith ZArith Lia List Ascii String.
From Stdlib Require Import DecimalString Permutation Sorted.
Import ListNotations.

Local Open Scope string_scope.
Local Open Scope bool_scope.

Set Warnings "-register-all".

(* ------------------------------------------------------------------ *)
(** * JavaScript strings *)

Module JsString.

Definition code (c : ascii) : N := N_of_ascii c.

Definition between (lo hi : N) (c : ascii) : bool :=
  (lo <=? code c)%N && (code c <=? hi)%N.

Definition isLower : ascii -> bool := between 97 122.
Definition isUpper : ascii -> bool := between 65 90.
Definition isDigit : ascii -> bool := between 48 57.

(** [\w] of a regular expression: [[A-Za-z0-9_]]. *)
Definition isWord (c : ascii) : bool :=
  isLower c || isUpper c || isDigit c || (code c =? 95)%N.

(** White space of [String.prototype.trim] and of [\s], within ASCII:
    TAB, LF, VT, FF, CR and SPACE. *)
Definition isSpace (c : ascii) : bool :=
  between 9 13 c || (code c =? 32)%N.

(** Line terminators, the characters [.] does not match. *)
Definition isLineTerminator (c : ascii) : bool :=
  (code c =? 10)%N || (code c =? 13)%N.

Definition upper (c : ascii) : ascii :=
  if isLower c then ascii_of_N (code c - 32) else c.

Definition lower (c : ascii) : ascii :=
  if isUpper c then ascii_of_N (code c + 32) else c.

Fixpoint map (f : ascii -> ascii) (s : string) : string :=
  match s with
  | EmptyString => EmptyString
  | String c r => String (f c) (map f r)
  end.

Definition toUpperCase : string -> string := map upper.
Definition toLowerCase : string -> string := map lower.

(** The double quote character. *)
Definition dquote : ascii := ascii_of_N 34.

Definition chars : string -> list ascii := list_ascii_of_string.
Definition ofChars : list ascii -> string := string_of_list_ascii.

Fixpoint dropWhile (p : ascii -> bool) (l : list ascii) : list ascii :=
  match l with
  | [] => []
  | c :: r => if p c then dropWhile p r else l
  end.

Definition trimChars (l : list ascii) : list ascii :=
  rev (dropWhile isSpace (rev (dropWhile isSpace l))).

Definition trim (s : string) : string := ofChars (trimChars (chars s)).

(** A string is falsy exactly when it is empty. *)
Definition nonEmpty (s : string) : bool :=
  match s with EmptyString => false | _ => true end.

Definition startsWith (s p : string) : bool := prefix p s.

Definition endsWith (s p : string) : bool :=
  prefix (ofChars (rev (chars p))) (ofChars (rev (chars s))).

Fixpoint includes (s p : string) : bool :=
  prefix p s ||
  match s with
  | EmptyString => false
  | String _ r => includes r p
  end.

(** [s.slice(1, -1)]. *)
Definition sliceInner (s : string) : string :=
  match chars s with
  | [] => ""
  | _ :: r => ofChars (removelast r)
  end.

Definition join (sep : string) (l : list string) : string :=
  match l with
  | [] => ""
  | x :: r => fold_left (fun acc y => acc ++ sep ++ y) r x
  end.

End JsString.

Import JsString.

(* ------------------------------------------------------------------ *)
(** * utils.ts: the level normalizer *)

(** [type LogLevel = 'TRACE' | 'DEBUG' | 'INFO' | 'WARN' | 'ERROR' | 'FATAL'] *)
Inductive LogLevel : Set := TRACE | DEBUG | INFO | WARN | ERROR | FATAL.

Definition levelName (l : LogLevel) : string :=
  match l with
  | TRACE => "TRACE" | DEBUG => "DEBUG" | INFO => "INFO"
  | WARN => "WARN" | ERROR => "ERROR" | FATAL => "FATAL"
  end.

(** [normalizeLogLevel(level: string): LogLevel].  The six canonical cases
    return [normalized] itself, as the source does. *)
Definition normalizeLogLevel (level : string) : string :=
  let normalized := toUpperCase level in
  if normalized =? "WARNING" then "WARN"
  else if (normalized =? "TRACE") || (normalized =? "DEBUG")
       || (normalized =? "INFO") || (normalized =? "WARN")
       || (normalized =? "ERROR") || (normalized =? "FATAL")
  then normalized
  else "INFO".

(** [getLogLevelPriority]. *)
Definition getLogLevelPriority (level : string) : nat :=
  if level =? "TRACE" then 0
  else if level =? "DEBUG" then 1
  else if level =? "INFO" then 2
  else if level =? "WARN" then 3
  else if level =? "ERROR" then 4
  else if level =? "FATAL" then 5
  else 2.

(* ------------------------------------------------------------------ *)
(** * Regular expressions

    The backtracking matcher of ECMAScript regular expressions, for the
    constructs the repository's patterns use.  Alternatives are tried left
    to right and quantifiers are greedy, so the first successful path is the
    match the engine reports.  Every starred or plussed item of the source
    patterns is a single character class, hence [Star] ranges over a
    class. *)

Module Regex.

Inductive re : Type :=
| Eps                          (* the empty pattern *)
| Chr (c : ascii)              (* a literal character *)
| Cls (p : ascii -> bool)      (* a character class, [\d], [\s], [.] *)
| Seq (a b : re)
| Alt (a b : re)               (* a|b *)
| Opt (a : re)                 (* a? *)
| Star (p : ascii -> bool)     (* c* over a class *)
| Grp (n : nat) (a : re)       (* the n-th capturing group *)
| Bol                          (* ^ *)
| Eol                          (* $ *)
| WordB.                       (* \b *)

(** Matcher state: the character before the current position (for [^] and
    [\b]), the remaining input, and the captures made so far. *)
Record state : Type := mkState
  { prev : option ascii; rest : list ascii; caps : list (nat * string) }.

Definition step (x : ascii) (xs : list ascii) (s : state) : state :=
  mkState (Some x) xs (caps s).

(** Under the [i] flag a character matches when it does up to ASCII case. *)
Definition eqChar (ci : bool) (c x : ascii) : bool :=
  if ci then Ascii.eqb (upper c) (upper x) else Ascii.eqb c x.

Definition inClass (ci : bool) (p : ascii -> bool) (x : ascii) : bool :=
  if ci then p x || p (upper x) || p (lower x) else p x.

Definition isWordOpt (o : option ascii) : bool :=
  match o with Some c => isWord c | None => false end.

(** The text consumed between two states of one run. *)
Definition consumed (s s' : state) : string :=
  ofChars (firstn (List.length (rest s) - List.length (rest s')) (rest s)).

Fixpoint run (ci : bool) (r : re) (s : state)
         (k : state -> option state) {struct r} : option state :=
  match r with
  | Eps => k s
  | Chr c =>
      match rest s with
      | x :: xs => if eqChar ci c x then k (step x xs s) else None
      | [] => None
      end
  | Cls p =>
      match rest s with
      | x :: xs => if inClass ci p x then k (step x xs s) else None
      | [] => None
      end
  | Seq a b => run ci a s (fun s' => run ci b s' k)
  | Alt a b =>
      match run ci a s k with
      | Some out => Some out
      | None => run ci b s k
      end
  | Opt a =>
      match run ci a s k with
      | Some out => Some out
      | None => k s
      end
  | Star p =>
      (fix more (pv : option ascii) (l : list ascii) {struct l} : option state :=
         match l with
         | x :: xs =>
             if inClass ci p x then
               match more (Some x) xs with
               | Some out => Some out
               | None => k (mkState pv l (caps s))
               end
             else k (mkState pv l (caps s))
         | [] => k (mkState pv [] (caps s))
         end) (prev s) (rest s)
  | Grp n a =>
      run ci a s (fun s' => k (mkState (prev s') (rest s') ((n, consumed s s') :: caps s')))
  | Bol => match prev s with None => k s | Some _ => None end
  | Eol => match rest s with [] => k s | _ :: _ => None end
  | WordB =>
      if xorb (isWordOpt (prev s)) (isWordOpt (hd_error (rest s)))
      then k s else None
  end.

(** Number of capturing groups: [match.length] is one more. *)
Fixpoint groups (r : re) : nat :=
  match r with
  | Seq a b | Alt a b => groups a + groups b
  | Opt a => groups a
  | Grp _ a => S (groups a)
  | _ => 0
  end.

Fixpoint capture (n : nat) (cs : list (nat * string)) : option string :=
  match cs with
  | [] => None
  | (m, v) :: r => if Nat.eqb m n then Some v else capture n r
  end.

(** The array [exec] returns: the whole match, then one entry per group
    ([None] is [undefined], a group that did not take part). *)
Definition matchArray (r : re) (s s' : state) : list (option string) :=
  Some (consumed s s') :: List.map (fun n => capture n (caps s')) (seq 1 (groups r)).

(** A match anchored at the current position (the sticky match). *)
Definition matchHere (ci : bool) (r : re) (pv : option ascii) (l : list ascii)
  : option state :=
  run ci r (mkState pv l []) (fun s' => Some s').

(** Leftmost match: start positions are tried from left to right. *)
Fixpoint search (ci : bool) (r : re) (pv : option ascii) (l : list ascii)
  : option (list (option string)) :=
  match matchHere ci r pv l with
  | Some s' => Some (matchArray r (mkState pv l []) s')
  | None =>
      match l with
      | [] => None
      | x :: xs => search ci r (Some x) xs
      end
  end.

(** [str.match(re)] and [re.exec(str)] for a pattern without the [g] flag. *)
Definition exec (ci : bool) (r : re) (str : string) : option (list (option string)) :=
  search ci r None (chars str).

(** [re.test(str)]. *)
Definition test (ci : bool) (r : re) (str : string) : bool :=
  match exec ci r str with Some _ => true | None => false end.

(** [match[i]]; [undefined] is rendered as the empty string by the callers
    that only read groups which always take part. *)
Definition group (m : list (option string)) (i : nat) : string :=
  match nth i m None with Some v => v | None => "" end.

(** [str.split(re)] for a pattern that has no capturing group.  [skip]
    counts the characters of the separator still to be passed, [cur] holds
    the current piece in reverse. *)
Fixpoint splitFrom (ci : bool) (r : re) (pv : option ascii) (skip : nat)
         (cur : list ascii) (l : list ascii) : list string :=
  match l with
  | [] => [ofChars (rev cur)]
  | x :: xs =>
      match skip with
      | S n => splitFrom ci r (Some x) n cur xs
      | O =>
          match matchHere ci r pv l with
          | Some s' =>
              match List.length l - List.length (rest s') with
              | O => splitFrom ci r (Some x) 0 (x :: cur) xs
              | S n => ofChars (rev cur) :: splitFrom ci r (Some x) n [] xs
              end
          | None => splitFrom ci r (Some x) 0 (x :: cur) xs
          end
      end
  end.

Definition split (ci : bool) (r : re) (str : string) : list string :=
  splitFrom ci r None 0 [] (chars str).

(** Pattern-building shorthands. *)
Fixpoint lit (l : list ascii) : re :=
  match l with
  | [] => Eps
  | [c] => Chr c
  | c :: r => Seq (Chr c) (lit r)
  end.

Definition str (s : string) : re := lit (chars s).

Fixpoint seqs (l : list re) : re :=
  match l with
  | [] => Eps
  | [a] => a
  | a :: r => Seq a (seqs r)
  end.

Fixpoint alts (l : list re) : re :=
  match l with
  | [] => Eps
  | [a] => a
  | a :: r => Alt a (alts r)
  end.

(** [a{n}] *)
Fixpoint rep (n : nat) (a : re) : re :=
  match n with
  | 0 => Eps
  | 1 => a
  | S m => Seq a (rep m a)
  end.

(** [a{0,n}], greedy *)
Fixpoint upto (n : nat) (a : re) : re :=
  match n with
  | 0 => Eps
  | S m => Opt (Seq a (upto m a))
  end.

(** [c+] over a class *)
Definition plus (p : ascii -> bool) : re := Seq (Cls p) (Star p).

Definition d : re := Cls isDigit.                       (* \d *)
Definition anyChar (c : ascii) : bool := negb (isLineTerminator c).   (* . *)
Definition oneOf (s : string) (c : ascii) : bool :=
  existsb (Ascii.eqb c) (chars s).

End Regex.

(* ------------------------------------------------------------------ *)
(** * JavaScript numbers and dates *)

Module JsNumber.

Local Open Scope Z_scope.

(** The number [mant / 10^frac]. *)
Record number : Set := mkNumber { mant : Z; frac : nat }.

Definition pow10 (n : nat) : Z := 10 ^ Z.of_nat n.

(** Canonical form: no trailing zero in the fraction digits. *)
Fixpoint strip (f : nat) (m : Z) : number :=
  match f with
  | O => mkNumber m 0
  | S f' => if m mod 10 =? 0 then strip f' (m / 10) else mkNumber m f
  end.

Definition ofZ (z : Z) : number := mkNumber z 0.

Definition compare (a b : number) : comparison :=
  Z.compare (mant a * pow10 (frac b)) (mant b * pow10 (frac a)).

Definition eqb (a b : number) : bool :=
  match compare a b with Eq => true | _ => false end.
Definition ltb (a b : number) : bool :=
  match compare a b with Lt => true | _ => false end.
Definition leb (a b : number) : bool :=
  match compare a b with Gt => false | _ => true end.

Definition mul (a b : number) : number :=
  strip (frac a + frac b) (mant a * mant b).

Definition sub (a b : number) : number :=
  strip (frac a + frac b) (mant a * pow10 (frac b) - mant b * pow10 (frac a)).

Definition isZero (a : number) : bool := mant a =? 0.

(** Truncation toward zero ([ToIntegerOrInfinity]). *)
Definition trunc (a : number) : Z := Z.quot (mant a) (pow10 (frac a)).

Definition digitValue (c : ascii) : Z := Z.of_N (code c) - 48.

Definition digitsToZ (l : list ascii) : Z :=
  fold_left (fun acc c => acc * 10 + digitValue c) l 0.

(** The value of the literal [int.fracd e exp], negated when [neg]. *)
Definition ofDecimal (neg : bool) (int fracd : list ascii) (exp : Z) : number :=
  let m := digitsToZ (int ++ fracd) in
  let m := if neg then - m else m in
  let e := exp - Z.of_nat (List.length fracd) in
  if 0 <=? e then mkNumber (m * 10 ^ e) 0 else strip (Z.to_nat (- e)) m.

Definition digitsOf (n : N) : list ascii :=
  chars (NilZero.string_of_uint (N.to_uint n)).

Definition dropTrailingZeros (l : list ascii) : list ascii :=
  rev (dropWhile (Ascii.eqb "0") (rev l)).

Definition zeros (n : Z) : list ascii := repeat "0"%char (Z.to_nat n).

(** [Number::toString]: plain digits up to 21 integer digits, a leading
    [0.] down to 1e-6, exponent form elsewhere. *)
Definition toString (x : number) : string :=
  if mant x =? 0 then "0"%string else
  let ds := digitsOf (Z.abs_N (mant x)) in
  let n := Z.of_nat (List.length ds) - Z.of_nat (frac x) in
  let s := dropTrailingZeros ds in
  let k := Z.of_nat (List.length s) in
  let body :=
    if (k <=? n) && (n <=? 21) then ofChars (s ++ zeros (n - k))
    else if (0 <? n) && (n <=? 21) then
      ofChars (firstn (Z.to_nat n) s ++ "."%char :: skipn (Z.to_nat n) s)
    else if (-6 <? n) && (n <=? 0) then
      ofChars ("0"%char :: "."%char :: zeros (- n) ++ s)
    else
      let e := n - 1 in
      let sg := if e <? 0 then "-"%string else "+"%string in
      let es := String.append sg (ofChars (digitsOf (Z.abs_N e))) in
      match s with
      | [] => "0"%string
      | [c] => String.append (ofChars [c]) (String "e" es)
      | c :: r => String.append (ofChars (c :: "."%char :: r)) (String "e" es)
      end in
  let sign := if mant x <? 0 then "-"%string else ""%string in
  String.append sign body.

(** The results of [Number(v)]. *)
Inductive numeric : Set := NaN | Fin (n : number) | PosInf | NegInf.

Definition isNaN (x : numeric) : bool :=
  match x with NaN => true | _ => false end.
Definition isFinite (x : numeric) : bool :=
  match x with Fin _ => true | _ => false end.

(** [x < y] on numeric values; every comparison with [NaN] is false. *)
Definition lt (x y : numeric) : bool :=
  match x, y with
  | Fin a, Fin b => ltb a b
  | NegInf, Fin _ | NegInf, PosInf | Fin _, PosInf => true
  | _, _ => false
  end.

Definition le (x y : numeric) : bool :=
  match x, y with
  | Fin a, Fin b => leb a b
  | NegInf, Fin _ | NegInf, PosInf | Fin _, PosInf => true
  | NegInf, NegInf | PosInf, PosInf => true
  | _, _ => false
  end.

Definition gt (x y : numeric) : bool := lt y x.
Definition ge (x y : numeric) : bool := le y x.

End JsNumber.

Import JsNumber.

(** A [Date] object is its time value in milliseconds since the epoch;
    [None] is the Invalid Date, whose time value is [NaN]. *)
Definition Date : Set := option Z.

Definition maxTimeValue : Z := 8640000000000000.

(** [new Date(t)] for a number [t] ([TimeClip]). *)
Definition dateOfNumber (t : number) : Date :=
  if JsNumber.leb (ofZ (- maxTimeValue)) t && JsNumber.leb t (ofZ maxTimeValue)
  then Some (trunc t) else None.

(** [date.getTime()]. *)
Definition getTime (dt : Date) : numeric :=
  match dt with Some t => Fin (ofZ t) | None => NaN end.

(* ------------------------------------------------------------------ *)
(** * JavaScript values *)

Inductive JsValue : Type :=
| JUndefined
| JNull
| JBool (b : bool)
| JNum (n : number)
| JStr (s : string)
| JDate (d : Date)
| JArr (elems : list JsValue)
| JObj (props : list (string * JsValue)).

(** Thrown values.  [JsonParsingFailed e] is the
    [new Error(`JSON parsing failed: ${error}`)] of [parseJsonLine]. *)
Inductive JsError : Set :=
| SyntaxError
| TypeError
| JsonParsingFailed (cause : JsError).

Inductive outcome (A : Type) : Type :=
| Return (a : A)
| Throw (e : JsError).

Arguments Return {A} a.
Arguments Throw {A} e.

Definition bind {A B : Type} (x : outcome A) (f : A -> outcome B) : outcome B :=
  match x with
  | Return a => f a
  | Throw e => Throw e
  end.

Notation "'do' x <- a ; b" := (bind a (fun x => b))
  (at level 10, x name, a at level 100, b at level 200).

(** What the embedding takes from the host: the implementation-defined
    [Date] string parser and printers, and string-to-number conversion. *)
Record Host : Type := mkHost
  { Date_parse : string -> option Z;      (* time value of [new Date(s)] *)
    StringToNumber : string -> numeric;   (* [Number(s)] *)
    Date_toString : Date -> string;       (* [String(date)] *)
    Date_toISOString : Z -> string }.     (* [date.toISOString()] *)

Module Js.

(** [ToBoolean]. *)
Definition truthy (v : JsValue) : bool :=
  match v with
  | JUndefined | JNull => false
  | JBool b => b
  | JNum n => negb (isZero n)
  | JStr s => nonEmpty s
  | JDate _ | JArr _ | JObj _ => true
  end.

(** [v === undefined || v === null]. *)
Definition absent (v : JsValue) : bool :=
  match v with JUndefined | JNull => true | _ => false end.

(** [typeof v === 'string']. *)
Definition isString (v : JsValue) : bool :=
  match v with JStr _ => true | _ => false end.

(** [a || b]. *)
Definition or (a b : JsValue) : JsValue := if truthy a then a else b.

Fixpoint lookup (k : string) (ps : list (string * JsValue)) : option JsValue :=
  match ps with
  | [] => None
  | (k', v) :: r => if String.eqb k' k then Some v else lookup k r
  end.

(** [obj[k]] for an own property of a plain object; [undefined] when
    there is none. *)
Definition get (obj : JsValue) (k : string) : JsValue :=
  match obj with
  | JObj ps => match lookup k ps with Some v => v | None => JUndefined end
  | _ => JUndefined
  end.

(** [delete obj[k]] on a property list. *)
Fixpoint delete (k : string) (ps : list (string * JsValue)) : list (string * JsValue) :=
  match ps with
  | [] => []
  | (k', v) :: r => if String.eqb k' k then delete k r else (k', v) :: delete k r
  end.

(** The own enumerable properties copied by [{ ...obj }]. *)
Definition spread (obj : JsValue) : list (string * JsValue) :=
  match obj with JObj ps => ps | _ => [] end.

(** A canonical array index, the keys an object enumerates first. *)
Definition arrayIndex (k : string) : option N :=
  match chars k with
  | [] => None
  | c :: r =>
      if forallb isDigit (c :: r)
         && (negb (Ascii.eqb c "0") || match r with [] => true | _ => false end)
      then
        let n := Z.to_N (digitsToZ (c :: r)) in
        if (n <? 4294967295)%N then Some n else None
      else None
  end.

Fixpoint insertIndex (i : N) (k : string) (v : JsValue)
         (ps : list (string * JsValue)) : list (string * JsValue) :=
  match ps with
  | [] => [(k, v)]
  | (k', v') :: r =>
      match arrayIndex k' with
      | Some j => if (j <? i)%N then (k', v') :: insertIndex i k v r
                  else (k, v) :: ps
      | None => (k, v) :: ps
      end
  end.

Fixpoint replace (k : string) (v : JsValue) (ps : list (string * JsValue))
  : list (string * JsValue) :=
  match ps with
  | [] => []
  | (k', v') :: r => if String.eqb k' k then (k', v) :: r else (k', v') :: replace k v r
  end.

(** [obj[k] = v] on a property list, keeping the enumeration order of
    ordinary objects: array indices in ascending order, then the other
    keys in order of creation. *)
Definition set (k : string) (v : JsValue) (ps : list (string * JsValue))
  : list (string * JsValue) :=
  match lookup k ps with
  | Some _ => replace k v ps
  | None =>
      match arrayIndex k with
      | Some i => insertIndex i k v ps
      | None => ps ++ [(k, v)]
      end
  end.

(** [String(v)]. *)
Fixpoint toStr (h : Host) (v : JsValue) : string :=
  match v with
  | JUndefined => "undefined"
  | JNull => "null"
  | JBool b => if b then "true" else "false"
  | JNum n => toString n
  | JStr s => s
  | JDate dt => Date_toString h dt
  | JArr l =>
      join "," (List.map (fun x => match x with
                                   | JUndefined | JNull => ""
                                   | _ => toStr h x
                                   end) l)
  | JObj _ => "[object Object]"
  end.

(** [Number(v)]. *)
Definition toNum (h : Host) (v : JsValue) : numeric :=
  match v with
  | JUndefined => NaN
  | JNull => Fin (ofZ 0)
  | JBool b => Fin (ofZ (if b then 1 else 0))
  | JNum n => Fin n
  | JStr s => StringToNumber h s
  | JDate dt => getTime dt
  | JArr _ | JObj _ => StringToNumber h (toStr h v)
  end.

(** [a === b].  Objects, arrays and dates are compared by reference; two
    values of the embedding never denote the same object. *)
Definition strictEquals (a b : JsValue) : bool :=
  match a, b with
  | JUndefined, JUndefined | JNull, JNull => true
  | JBool x, JBool y => Bool.eqb x y
  | JNum x, JNum y => JsNumber.eqb x y
  | JStr x, JStr y => String.eqb x y
  | _, _ => false
  end.

(** The key equality of [Map] ([SameValueZero]); it differs from [===]
    on [NaN] only, which no value of the embedding holds. *)
Definition sameValueZero : JsValue -> JsValue -> bool := strictEquals.

End Js.

(* ------------------------------------------------------------------ *)
(** * JSON *)

Module JSON.

Definition hexDigit (n : N) : ascii :=
  if (n <? 10)%N then ascii_of_N (48 + n) else ascii_of_N (87 + n).

(** [QuoteJSONString]. *)
Fixpoint escape (l : list ascii) : list ascii :=
  match l with
  | [] => []
  | c :: r =>
      let n := code c in
      (if (n =? 34)%N then ["\"; dquote]
       else if (n =? 92)%N then ["\"; "\"]
       else if (n =? 8)%N then ["\"; "b"]
       else if (n =? 12)%N then ["\"; "f"]
       else if (n =? 10)%N then ["\"; "n"]
       else if (n =? 13)%N then ["\"; "r"]
       else if (n =? 9)%N then ["\"; "t"]
       else if (n <? 32)%N then
         ["\"; "u"; "0"; "0"; hexDigit (n / 16); hexDigit (n mod 16)]
       else [c])%char ++ escape r
  end.

Definition quote (s : string) : string :=
  ofChars (dquote :: escape (chars s) ++ [dquote]).

(** [JSON.stringify(v)]; [None] is [undefined]. *)
Fixpoint stringify (h : Host) (v : JsValue) : option string :=
  match v with
  | JUndefined => None
  | JNull => Some "null"
  | JBool b => Some (if b then "true" else "false")
  | JNum n => Some (toString n)
  | JStr s => Some (quote s)
  | JDate None => Some "null"
  | JDate (Some t) => Some (quote (Date_toISOString h t))
  | JArr l =>
      Some ("[" ++ join "," (List.map (fun x => match stringify h x with
                                                | Some t => t
                                                | None => "null"
                                                end) l) ++ "]")
  | JObj ps =>
      Some ("{" ++ join "," (flat_map (fun kv => match stringify h (snd kv) with
                                                 | Some t => [quote (fst kv) ++ ":" ++ t]
                                                 | None => []
                                                 end) ps) ++ "}")
  end.

(** ** [JSON.parse]

    The JSON grammar read one character at a time by a pushdown machine:
    [stack] holds the containers being filled, [mode] what the grammar
    admits next, [lexer] the token being read. *)

Inductive frame : Type :=
| InArr (acc : list JsValue)                         (* elements, last first *)
| InObj (acc : list (string * JsValue)) (key : string).

Inductive mode : Type :=
| Value                 (* a value must follow *)
| ValueOrEnd            (* after [[] *)
| KeyOrEnd              (* after [{] *)
| Key                   (* after [,] in an object *)
| Colon                 (* after a member name *)
| CommaOrEnd            (* after a value inside a container *)
| Finished (v : JsValue).

Inductive lexer : Type :=
| Idle
| InStr (acc : list ascii)                (* characters read, last first *)
| InEsc (acc : list ascii)                (* after a backslash *)
| InHex (acc : list ascii) (todo : nat) (val : N)   (* inside \uXXXX *)
| InNum (acc : list ascii)
| InWord (acc : list ascii).

Record pstate : Type := mkP { stack : list frame; md : mode; lx : lexer }.

(** The UTF-8 bytes of one UTF-16 unit. *)
Definition utf8 (u : N) : list ascii :=
  (if u <? 128 then [ascii_of_N u]
   else if u <? 2048 then [ascii_of_N (192 + u / 64); ascii_of_N (128 + u mod 64)]
   else [ascii_of_N (224 + u / 4096); ascii_of_N (128 + (u / 64) mod 64);
         ascii_of_N (128 + u mod 64)])%N.

Definition hexValue (c : ascii) : option N :=
  if isDigit c then Some (code c - 48)%N
  else if between 97 102 c then Some (code c - 87)%N
  else if between 65 70 c then Some (code c - 55)%N
  else None.

Fixpoint takeWhile (p : ascii -> bool) (l : list ascii) : list ascii :=
  match l with
  | c :: r => if p c then c :: takeWhile p r else []
  | [] => []
  end.

Definition span (p : ascii -> bool) (l : list ascii) : list ascii * list ascii :=
  (takeWhile p l, dropWhile p l).

(** The number a JSON number literal denotes; [None] when the text is not
    one: an optional minus sign, an integer part without a leading zero,
    an optional fraction, an optional exponent. *)
Definition numberOfLiteral (l : list ascii) : option number :=
  let (neg, l1) := match l with
                   | "-"%char :: r => (true, r)
                   | _ => (false, l)
                   end in
  let (ip, l2) := span isDigit l1 in
  let intOk := match ip with
               | [] => false
               | "0"%char :: _ :: _ => false
               | _ => true
               end in
  let '(fp, fracOk, l3) :=
    match l2 with
    | "."%char :: r =>
        let (f, r') := span isDigit r in
        (f, match f with [] => false | _ => true end, r')
    | _ => ([], true, l2)
    end in
  let '(ex, expOk, l4) :=
    match l3 with
    | c :: r =>
        if Ascii.eqb c "e" || Ascii.eqb c "E" then
          let (sg, r1) := match r with
                          | "-"%char :: t => (true, t)
                          | "+"%char :: t => (false, t)
                          | _ => (false, r)
                          end in
          let (e, r2) := span isDigit r1 in
          ((if sg then - digitsToZ e else digitsToZ e)%Z,
           match e with [] => false | _ => true end, r2)
        else (0%Z, true, l3)
    | [] => (0%Z, true, l3)
    end in
  match l4 with
  | [] => if intOk && fracOk && expOk then Some (ofDecimal neg ip fp ex) else None
  | _ :: _ => None
  end.

Definition isNumberChar (c : ascii) : bool :=
  isDigit c || Regex.oneOf "+-.eE" c.

Definition isJsonSpace (c : ascii) : bool :=
  Regex.oneOf (ofChars [" "%char; ascii_of_N 9; ascii_of_N 10; ascii_of_N 13]) c.

(** A value is complete: it is the result, or goes into the container on
    top of the stack. *)
Definition complete (v : JsValue) (st : list frame) : pstate :=
  match st with
  | [] => mkP [] (Finished v) Idle
  | InArr acc :: r => mkP (InArr (v :: acc) :: r) CommaOrEnd Idle
  | InObj acc k :: r => mkP (InObj (Js.set k v acc) k :: r) CommaOrEnd Idle
  end.

(** A string is complete: a member name where one is expected, otherwise
    a value. *)
Definition completeString (s : string) (p : pstate) : option pstate :=
  match md p, stack p with
  | KeyOrEnd, InObj acc _ :: r | Key, InObj acc _ :: r =>
      Some (mkP (InObj acc s :: r) Colon Idle)
  | Value, st | ValueOrEnd, st => Some (complete (JStr s) st)
  | _, _ => None
  end.

Definition expectsValue (m : mode) : bool :=
  match m with Value | ValueOrEnd => true | _ => false end.

(** One character read between tokens. *)
Definition idle (p : pstate) (c : ascii) : option pstate :=
  if isJsonSpace c then Some p
  else if Ascii.eqb c dquote then
    match md p with
    | Value | ValueOrEnd | KeyOrEnd | Key => Some (mkP (stack p) (md p) (InStr []))
    | _ => None
    end
  else if Ascii.eqb c "{" then
    if expectsValue (md p) then Some (mkP (InObj [] "" :: stack p) KeyOrEnd Idle) else None
  else if Ascii.eqb c "[" then
    if expectsValue (md p) then Some (mkP (InArr [] :: stack p) ValueOrEnd Idle) else None
  else if Ascii.eqb c "}" then
    match md p, stack p with
    | KeyOrEnd, InObj acc _ :: r | CommaOrEnd, InObj acc _ :: r =>
        Some (complete (JObj acc) r)
    | _, _ => None
    end
  else if Ascii.eqb c "]" then
    match md p, stack p with
    | ValueOrEnd, InArr acc :: r | CommaOrEnd, InArr acc :: r =>
        Some (complete (JArr (rev acc)) r)
    | _, _ => None
    end
  else if Ascii.eqb c "," then
    match md p, stack p with
    | CommaOrEnd, InArr _ :: _ => Some (mkP (stack p) Value Idle)
    | CommaOrEnd, InObj _ _ :: _ => Some (mkP (stack p) Key Idle)
    | _, _ => None
    end
  else if Ascii.eqb c ":" then
    match md p with
    | Colon => Some (mkP (stack p) Value Idle)
    | _ => None
    end
  else if Ascii.eqb c "-" || isDigit c then
    if expectsValue (md p) then Some (mkP (stack p) (md p) (InNum [c])) else None
  else if isLower c then
    if expectsValue (md p) then Some (mkP (stack p) (md p) (InWord [c])) else None
  else None.

Definition finishNumber (acc : list ascii) (p : pstate) : option pstate :=
  match numberOfLiteral (rev acc) with
  | Some n => Some (complete (JNum n) (stack p))
  | None => None
  end.

Definition finishWord (acc : list ascii) (p : pstate) : option pstate :=
  let w := ofChars (rev acc) in
  if w =? "true" then Some (complete (JBool true) (stack p))
  else if w =? "false" then Some (complete (JBool false) (stack p))
  else if w =? "null" then Some (complete JNull (stack p))
  else None.

Definition withLexer (p : pstate) (l : lexer) : pstate := mkP (stack p) (md p) l.

Definition step (p : pstate) (c : ascii) : option pstate :=
  match lx p with
  | Idle => idle p c
  | InStr acc =>
      if Ascii.eqb c dquote then completeString (ofChars (rev acc)) p
      else if Ascii.eqb c "\" then Some (withLexer p (InEsc acc))
      else if (code c <? 32)%N then None
      else Some (withLexer p (InStr (c :: acc)))
  | InEsc acc =>
      let plain (x : ascii) := Some (withLexer p (InStr (x :: acc))) in
      if Ascii.eqb c dquote || Regex.oneOf "\/" c then plain c
      else if Ascii.eqb c "b" then plain (ascii_of_N 8)
      else if Ascii.eqb c "f" then plain (ascii_of_N 12)
      else if Ascii.eqb c "n" then plain (ascii_of_N 10)
      else if Ascii.eqb c "r" then plain (ascii_of_N 13)
      else if Ascii.eqb c "t" then plain (ascii_of_N 9)
      else if Ascii.eqb c "u" then Some (withLexer p (InHex acc 4 0))
      else None
  | InHex acc todo val =>
      match hexValue c with
      | None => None
      | Some hv =>
          let val' := (val * 16 + hv)%N in
          match todo with
          | 0 => None
          | 1 => Some (withLexer p (InStr (rev (utf8 val') ++ acc)))
          | S n => Some (withLexer p (InHex acc n val'))
          end
      end
  | InNum acc =>
      if isNumberChar c then Some (withLexer p (InNum (c :: acc)))
      else match finishNumber acc p with
           | Some p' => idle p' c
           | None => None
           end
  | InWord acc =>
      if isLower c then Some (withLexer p (InWord (c :: acc)))
      else match finishWord acc p with
           | Some p' => idle p' c
           | None => None
           end
  end.

Fixpoint steps (p : pstate) (l : list ascii) : option pstate :=
  match l with
  | [] => Some p
  | c :: r => match step p c with
              | Some p' => steps p' r
              | None => None
              end
  end.

(** End of input: a pending number or literal ends here. *)
Definition finish (p : pstate) : option JsValue :=
  let done (q : option pstate) :=
    match q with
    | Some (mkP [] (Finished v) Idle) => Some v
    | _ => None
    end in
  match lx p with
  | Idle => done (Some p)
  | InNum acc => done (finishNumber acc p)
  | InWord acc => done (finishWord acc p)
  | _ => None
  end.

(** [JSON.parse(text)]; [None] stands for the [SyntaxError] it throws. *)
Definition parse (text : string) : option JsValue :=
  match steps (mkP [] Value Idle) (chars text) with
  | Some p => finish p
  | None => None
  end.

End JSON.

(* ------------------------------------------------------------------ *)
(** * utils.ts: colours and highlighting *)

Module Utils.

Import Regex.

(** [getLogLevelColor]. *)
Definition getLogLevelColor (level : string) : string :=
  if level =? "TRACE" then "log-level-trace"
  else if level =? "DEBUG" then "log-level-debug"
  else if level =? "INFO" then "log-level-info"
  else if level =? "WARN" then "log-level-warn"
  else if level =? "ERROR" then "log-level-error"
  else if level =? "FATAL" then "log-level-fatal"
  else "log-level-info".

(** The characters of the class [escapeRegExp] looks for: the fourteen
    syntax characters of a pattern. *)
Definition isSyntaxCharacter (c : ascii) : bool := oneOf ".*+?^${}()|[]\" c.

(** The global replacement of every syntax character by a backslash and
    the character. *)
Fixpoint escapeChars (l : list ascii) : list ascii :=
  match l with
  | [] => []
  | c :: r =>
      if isSyntaxCharacter c then "\"%char :: c :: escapeChars r
      else c :: escapeChars r
  end.

Definition escapeRegExp (s : string) : string := ofChars (escapeChars (chars s)).

(** The characters a pattern text denotes when it is made of pattern
    characters and of syntax characters after a backslash; [None] for any
    other pattern text. *)
Fixpoint literalOf (l : list ascii) : option (list ascii) :=
  match l with
  | [] => Some []
  | c :: r =>
      if Ascii.eqb c "\" then
        match r with
        | c2 :: r2 =>
            if isSyntaxCharacter c2 then
              match literalOf r2 with Some cs => Some (c2 :: cs) | None => None end
            else None
        | [] => None
        end
      else if isSyntaxCharacter c then None
      else match literalOf r with Some cs => Some (c :: cs) | None => None end
  end.

(** [new RegExp(source, flags)] for a source that is one capturing group
    around such a literal; [None] for any other source, where the
    constructor throws or the pattern is outside this embedding. *)
Definition groupOfLiteral (source : string) : option re :=
  match chars source with
  | c :: r =>
      if Ascii.eqb c "(" then
        match rev r with
        | d :: body =>
            if Ascii.eqb d ")" then
              match literalOf (rev body) with
              | Some cs => Some (Grp 1 (lit cs))
              | None => None
              end
            else None
        | [] => None
        end
      else None
  | [] => None
  end.

(** [str.replace(re, replacement)] for a pattern with the [g] flag: the
    matches are looked for from left to right, each starting where the one
    before ended, one character further after an empty match.  [render]
    makes the replacement text of a match; [skip] counts the characters of
    the current match still to be passed. *)
Fixpoint replaceFrom (ci : bool) (r : re) (render : list (option string) -> string)
         (pv : option ascii) (skip : nat) (l : list ascii) : list ascii :=
  match l with
  | [] =>
      match skip with
      | S _ => []
      | O =>
          match matchHere ci r pv [] with
          | Some s' => chars (render (matchArray r (mkState pv [] []) s'))
          | None => []
          end
      end
  | x :: xs =>
      match skip with
      | S n => replaceFrom ci r render (Some x) n xs
      | O =>
          match matchHere ci r pv l with
          | Some s' =>
              let replacement := chars (render (matchArray r (mkState pv l []) s')) in
              match List.length l - List.length (rest s') with
              | O => (replacement ++ x :: replaceFrom ci r render (Some x) 0 xs)%list
              | S n => (replacement ++ replaceFrom ci r render (Some x) n xs)%list
              end
          | None => x :: replaceFrom ci r render (Some x) 0 xs
          end
      end
  end.

Definition markOpen : string :=
  "<mark class=" ++ String dquote ("search-highlight" ++ String dquote ">").
Definition markClose : string := "</mark>".

(** The replacement text [<mark class=...>$1</mark>]. *)
Definition marked (m : list (option string)) : string :=
  markOpen ++ group m 1 ++ markClose.

(** [highlightText]. *)
Definition highlightText (text query : string) : outcome string :=
  if negb (nonEmpty (trim query)) then Return text
  else
    let escapedQuery := escapeRegExp (trim query) in
    match groupOfLiteral ("(" ++ escapedQuery ++ ")") with
    | Some regex => Return (ofChars (replaceFrom true regex marked None 0 (chars text)))
    | None => Throw SyntaxError
    end.

End Utils.

(* ------------------------------------------------------------------ *)
(** * types/index.ts *)

Module LogEntry.
(** [interface LogEntry].  The optional members hold [JUndefined] (or
    [None]) when they are not set; [source], [service] and [host] are
    typed [string] in the source but receive whatever the payload holds. *)
Record t : Type := mk
  { id : string;
    timestamp : Date;
    level : string;
    message : string;
    file : string;
    raw : string;
    fields : option (list (string * JsValue));
    source : JsValue;
    service : JsValue;
    host : JsValue;
    lineNumber : option nat }.
End LogEntry.

Module ParseError.
Record t : Type := mk { line : nat; content : string; error : JsError }.
End ParseError.

Module ParsedLog.
Record t : Type := mk
  { entries : list LogEntry.t;
    errors : list ParseError.t;
    totalLines : nat;
    fileName : string;
    fileSize : nat }.
End ParsedLog.

(** [type FilterOperator]. *)
Module FilterOperator.
Inductive t : Set :=
| equals | contains | startsWith | endsWith | gt | gte | lt | lte | range | exists_
| other (name : string).     (* any other value, from an untyped caller *)
End FilterOperator.

Module QueryFilter.
Record t : Type := mk
  { field : string;
    operator : FilterOperator.t;
    value : JsValue;
    negate : bool }.                (* [negate?: boolean]; absent is falsy *)
End QueryFilter.

Module TimeRange.
Record t : Type := mk { from : Date; to : Date }.
End TimeRange.

Module SearchQuery.
Record t : Type := mk
  { text : string;
    filters : list QueryFilter.t;
    timeRange : TimeRange.t;
    fuzzy : bool }.
End SearchQuery.

Module SearchResult.
(** [took], the elapsed wall time, is left out. *)
Record t : Type := mk { entries : list LogEntry.t; total : nat }.
End SearchResult.

Inductive FieldType : Set := TString | TNumber | TDate | TBoolean.

Module FieldSuggestion.
Record t : Type := mk
  { field : string;
    type : FieldType;
    cardinality : nat;
    examples : list JsValue }.
End FieldSuggestion.

(* ------------------------------------------------------------------ *)
(** * parse.ts: the log parser *)

Module LogParser.

Import Regex.

(** [\d{4}-\d{2}-\d{2}[T\s]\d{2}:\d{2}:\d{2}] *)
Definition clock : re := seqs [rep 2 d; Chr ":"; rep 2 d; Chr ":"; rep 2 d].
Definition isoDateTime : re :=
  seqs [rep 4 d; Chr "-"; rep 2 d; Chr "-"; rep 2 d;
        Cls (fun c => Ascii.eqb c "T" || isSpace c); clock].
(** [(?:\.\d+)?] *)
Definition fraction : re := Opt (Seq (Chr ".") (plus isDigit)).
(** [(?:Z|[+\-]\d{2}:?\d{2})?] *)
Definition zone : re :=
  Opt (Alt (Chr "Z") (seqs [Cls (oneOf "+-"); rep 2 d; Opt (Chr ":"); rep 2 d])).

Definition TIMESTAMP_PATTERNS : list re :=
  [ (* ISO 8601 with various formats *)
    seqs [Bol; Grp 1 (seqs [isoDateTime; fraction; zone])];
    (* RFC 3339 *)
    seqs [Bol; Grp 1 (seqs [isoDateTime; Opt (Seq (Chr ".") (rep 3 d)); Opt (Chr "Z")])];
    (* Common log formats *)
    seqs [Bol; Grp 1 (seqs [rep 2 d; Chr "/"; rep 2 d; Chr "/"; rep 4 d; plus isSpace; clock])];
    seqs [Bol; Grp 1 (seqs [rep 4 d; Chr "/"; rep 2 d; Chr "/"; rep 2 d; plus isSpace; clock])];
    seqs [Bol; Grp 1 (seqs [rep 3 (Cls isWord); plus isSpace; d; upto 1 d; plus isSpace; clock])];
    (* Epoch timestamps *)
    seqs [Bol; Grp 1 (Seq (rep 10 d) (upto 3 d))] ].

Definition levelWords : list string :=
  ["TRACE"; "DEBUG"; "INFO"; "WARN"; "WARNING"; "ERROR"; "FATAL"].

(** [(TRACE|DEBUG|INFO|WARN|WARNING|ERROR|FATAL|CRITICAL)] *)
Definition anyLevel (n : nat) : re :=
  Grp n (alts (List.map str (levelWords ++ ["CRITICAL"]))).
(** [(TRACE|DEBUG|INFO|WARN|WARNING|ERROR|FATAL)] *)
Definition lineLevel (n : nat) : re := Grp n (alts (List.map str levelWords)).

(** All three carry the [i] flag. *)
Definition LEVEL_PATTERNS : list re :=
  [ seqs [WordB; anyLevel 1; WordB];
    seqs [Chr "["; anyLevel 1; Chr "]"];
    seqs [str "level"; Cls (oneOf "=:"); Star isSpace; anyLevel 1] ].

(** The patterns of [parseTextLine], all with the [i] flag. *)
Definition linePatterns : list re :=
  [ (* ISO timestamp + level + message *)
    seqs [Bol; Grp 1 (seqs [isoDateTime; fraction; zone]); plus isSpace;
          lineLevel 2; WordB; Star isSpace; Grp 3 (Star anyChar); Eol];
    (* Timestamp + [LEVEL] + message *)
    seqs [Bol; Grp 1 (seqs [isoDateTime; fraction]); Star isSpace;
          Chr "["; lineLevel 2; Chr "]"; Star isSpace; Grp 3 (Star anyChar); Eol];
    (* Level + timestamp + message *)
    seqs [Bol; lineLevel 1; plus isSpace; Grp 2 (seqs [isoDateTime; fraction]);
          Star isSpace; Grp 3 (Star anyChar); Eol];
    (* Just level + message (use current time) *)
    seqs [Bol; lineLevel 1; Star isSpace;
          Cls (fun c => oneOf ":-" c || isSpace c); Star isSpace;
          Grp 2 (Star anyChar); Eol] ].

(** [interface ParseOptions]; only these two members are read. *)
Record ParseOptions : Set := mkOptions
  { enableJsonDetection : option bool; maxErrors : option nat }.

(** [class LogParser]: its two private members. *)
Record t : Type := mk { options : ParseOptions; errors : list ParseError.t }.

(** The constructor: [{ enableJsonDetection: true, maxErrors: 1000, ...options }]. *)
Definition new (o : ParseOptions) : t :=
  mk (mkOptions (Some (match enableJsonDetection o with Some b => b | None => true end))
                (Some (match maxErrors o with Some n => n | None => 1000 end)))
     [].

Definition default : t := new (mkOptions None None).

Definition jsonDetection (p : t) : bool :=
  match enableJsonDetection (options p) with Some b => b | None => false end.

(** [addError]: [this.errors.length < (this.options.maxErrors || 1000)]. *)
Definition addError (p : t) (line : nat) (content : string) (e : JsError) : t :=
  let cap := match maxErrors (options p) with
             | Some 0 | None => 1000
             | Some n => n
             end in
  if (List.length (errors p) <? cap)%nat
  then mk (options p) (errors p ++ [ParseError.mk line content e])
  else p.

Definition looksLikeJson (line : string) : bool :=
  startsWith (trim line) "{" && endsWith (trim line) "}".

Section WithHost.

Variable h : Host.
(** The instant [new Date()] returns. *)
Variable now : Z.

Definition parseTimestamp (value : JsValue) : Date :=
  match value with
  | JDate dt => dt
  | JNum n =>
      (* Handle epoch timestamps (both seconds and milliseconds) *)
      let timestamp :=
        if JsNumber.ltb n (ofZ (10 ^ 12)) then JsNumber.mul n (ofZ 1000) else n in
      dateOfNumber timestamp
  | JStr s =>
      match Date_parse h s with
      | Some t => Some t
      | None => Some now
      end
  | _ => Some now
  end.

Definition looksLikeTimestamp (value : string) : bool :=
  existsb (fun pattern => test false pattern value) TIMESTAMP_PATTERNS.

Fixpoint firstMatch (ci : bool) (patterns : list re) (text : string)
  : option (list (option string)) :=
  match patterns with
  | [] => None
  | pattern :: more =>
      match exec ci pattern text with
      | Some m => Some m
      | None => firstMatch ci more text
      end
  end.

Definition extractTimestampFromText (text : string) : option Date :=
  match firstMatch false TIMESTAMP_PATTERNS text with
  | Some m => Some (parseTimestamp (JStr (group m 1)))
  | None => None
  end.

Definition detectLevelInText (text : string) : string :=
  match firstMatch true LEVEL_PATTERNS text with
  | Some m => normalizeLogLevel (group m 1)
  | None =>
      (* Keyword-based fallback detection *)
      let lowerText := toLowerCase text in
      if includes lowerText "fatal" || includes lowerText "critical" then "FATAL"
      else if includes lowerText "error" || includes lowerText "exception"
              || includes lowerText "fail" then "ERROR"
      else if includes lowerText "warn" || includes lowerText "warning" then "WARN"
      else if includes lowerText "debug" then "DEBUG"
      else if includes lowerText "trace" then "TRACE"
      else "INFO"
  end.

(** The first [field] of the list with a truthy [json[field]]. *)
Fixpoint firstTruthy (json : JsValue) (names : list string) : option JsValue :=
  match names with
  | [] => None
  | field :: more =>
      if Js.truthy (Js.get json field) then Some (Js.get json field)
      else firstTruthy json more
  end.

Definition timestampFields : list string :=
  ["@timestamp"; "timestamp"; "ts"; "time"; "datetime"].
Definition levelFields : list string :=
  ["level"; "severity"; "priority"; "loglevel"].
Definition messageFields : list string :=
  ["message"; "msg"; "text"; "content"; "description"].

(** Reading a property of [null] or [undefined] throws. *)
Definition readable (json : JsValue) : outcome unit :=
  if Js.absent json then Throw TypeError else Return tt.

Definition extractTimestamp (json : JsValue) : outcome Date :=
  do _ <- readable json;
  match firstTruthy json timestampFields with
  | Some v => Return (parseTimestamp v)
  | None => Return (Some now)
  end.

(** [normalizeLogLevel] applied to a value that need not be a string:
    [level.toUpperCase] is not a function on anything else. *)
Definition normalizeLogLevelOf (v : JsValue) : outcome string :=
  match v with
  | JStr s => Return (normalizeLogLevel s)
  | _ => Throw TypeError
  end.

Definition extractLevel (json : JsValue) : outcome string :=
  do _ <- readable json;
  match firstTruthy json levelFields with
  | Some v => normalizeLogLevelOf v
  | None =>
      (* Try to detect level in message *)
      match JSON.stringify h json with
      | Some text => Return (detectLevelInText text)
      | None => Throw TypeError
      end
  end.

Fixpoint firstString (json : JsValue) (names : list string) : option string :=
  match names with
  | [] => None
  | field :: more =>
      match Js.get json field with
      | JStr s => if nonEmpty s then Some s else firstString json more
      | _ => firstString json more
      end
  end.

Definition extractMessage (json : JsValue) : outcome string :=
  do _ <- readable json;
  match firstString json messageFields with
  | Some s => Return s
  | None =>
      (* Fallback to the entire JSON as message *)
      match JSON.stringify h json with
      | Some text => Return text
      | None => Throw TypeError
      end
  end.

(** The keys [parseJsonLine] deletes from the copy of the payload. *)
Definition deletedKeys : list string :=
  ["timestamp"; "ts"; "time"; "@timestamp"; "level"; "severity"; "message"; "msg"].

Definition additionalFields (json : JsValue) : list (string * JsValue) :=
  fold_left (fun fields k => Js.delete k fields) deletedKeys (Js.spread json).

(** The body of the [try] block of [parseJsonLine], after [JSON.parse]. *)
Definition entryOfJson (newId : string) (json : JsValue)
           (line fileName : string) (lineNumber : nat) : outcome LogEntry.t :=
  do timestamp <- extractTimestamp json;
  do level <- extractLevel json;
  do message <- extractMessage json;
  let fields := additionalFields json in
  Return (LogEntry.mk newId timestamp level message fileName line (Some fields)
            (Js.or (Js.get json "source") (Js.or (Js.get json "logger") (JStr fileName)))
            (Js.or (Js.get json "service") (Js.or (Js.get json "app") (Js.get json "component")))
            (Js.or (Js.get json "host") (Js.get json "hostname"))
            (Some lineNumber)).

Definition parseJsonLine (newId : string) (line fileName : string) (lineNumber : nat)
  : outcome (option LogEntry.t) :=
  let attempt :=
    match JSON.parse line with
    | Some json => entryOfJson newId json line fileName lineNumber
    | None => Throw SyntaxError
    end in
  match attempt with
  | Return entry => Return (Some entry)
  | Throw e => Throw (JsonParsingFailed e)
  end.

Definition textEntry (newId : string) (timestamp : Date) (level message : string)
           (line fileName : string) (lineNumber : nat) : LogEntry.t :=
  LogEntry.mk newId timestamp level message fileName line None
              (JStr fileName) JUndefined JUndefined (Some lineNumber).

(** The [for] loop of [parseTextLine] over its patterns: the timestamp,
    level and message of the first pattern that matches and binds. *)
Fixpoint matchPatterns (patterns : list re) (line : string)
  : option (Date * string * string) :=
  match patterns with
  | [] => None
  | pattern :: more =>
      match exec true pattern line with
      | Some m =>
          if (List.length m =? 4)%nat && looksLikeTimestamp (group m 1) then
            (* Pattern: timestamp + level + message *)
            Some (parseTimestamp (JStr (group m 1)), normalizeLogLevel (group m 2), group m 3)
          else if (List.length m =? 4)%nat && looksLikeTimestamp (group m 2) then
            (* Pattern: level + timestamp + message *)
            Some (parseTimestamp (JStr (group m 2)), normalizeLogLevel (group m 1), group m 3)
          else if (List.length m =? 3)%nat then
            (* Pattern: level + message (no timestamp) *)
            Some (Some now, normalizeLogLevel (group m 1), group m 2)
          else matchPatterns more line
      | None => matchPatterns more line
      end
  end.

Definition parseTextLine (newId : string) (line fileName : string) (lineNumber : nat)
  : outcome (option LogEntry.t) :=
  match matchPatterns linePatterns line with
  | Some (timestamp, level, message) =>
      Return (Some (textEntry newId timestamp level (trim message) line fileName lineNumber))
  | None =>
      (* Fallback: try to detect level in the text *)
      let detectedLevel := detectLevelInText line in
      let timestamp := match extractTimestampFromText line with
                       | Some dt => dt
                       | None => Some now
                       end in
      Return (Some (textEntry newId timestamp detectedLevel line line fileName lineNumber))
  end.

Definition parseLine (p : t) (newId : string) (line fileName : string) (lineNumber : nat)
  : outcome (option LogEntry.t) :=
  if negb (nonEmpty (trim line)) then Return None
  else if jsonDetection p && looksLikeJson line
  then (* Try JSON parsing first if enabled *)
    parseJsonLine newId line fileName lineNumber
  else (* Try structured text parsing *)
    parseTextLine newId line fileName lineNumber.

(** [text.split('\n')]. *)
Fixpoint splitLinesFrom (cur : list ascii) (l : list ascii) : list string :=
  match l with
  | [] => [ofChars (rev cur)]
  | c :: r =>
      if (code c =? 10)%N then ofChars (rev cur) :: splitLinesFrom [] r
      else splitLinesFrom (c :: cur) r
  end.

Definition splitLines (text : string) : list string := splitLinesFrom [] (chars text).

(** The loop of [parseFile] from line index [i] on; [ids i] is the id
    [generateId()] returns while line [i] is parsed. *)
Fixpoint parseLines (ids : nat -> string) (p : t) (fileName : string) (i : nat)
         (lines : list string) (entries : list LogEntry.t)
  : list LogEntry.t * t :=
  match lines with
  | [] => (entries, p)
  | l :: more =>
      let line := trim l in
      if negb (nonEmpty line) then parseLines ids p fileName (S i) more entries
      else
        match parseLine p (ids i) line fileName (i + 1) with
        | Return (Some entry) => parseLines ids p fileName (S i) more (entries ++ [entry])
        | Return None => parseLines ids p fileName (S i) more entries
        | Throw e => parseLines ids (addError p (i + 1) line e) fileName (S i) more entries
        end
  end.

(** [parseFile], given the text the file holds. *)
Definition parseFile (ids : nat -> string) (p : t) (text fileName : string)
           (fileSize : nat) : ParsedLog.t * t :=
  let lines := splitLines text in
  let (entries, p') := parseLines ids (mk (options p) []) fileName 0 lines [] in
  (ParsedLog.mk entries (errors p') (List.length lines) fileName fileSize, p').

End WithHost.

End LogParser.

(* ------------------------------------------------------------------ *)
(** * kql.ts: the query parser *)

Module Token.
Inductive kind : Set := FIELD | OPERATOR | VALUE | TEXT | PAREN | AND | OR | NOT.
Record t : Set := mk { type : kind; value : string; position : nat }.
End Token.

Module KQLParser.

Import Regex.

(** The characters that end a bare word: white space, colon, parentheses,
    angle brackets, the equals sign and the double quote. *)
Definition wordStop (c : ascii) : bool :=
  isSpace c || oneOf ":()<>=" c || Ascii.eqb c dquote.

(** [/^(AND|OR|NOT)$/i] *)
Definition logicalWord : re :=
  seqs [Bol; Grp 1 (alts [str "AND"; str "OR"; str "NOT"]); Eol].

(** The body of a quoted string, after its opening quote: the characters
    up to the closing quote, an escaped character being passed over, and
    the input after the closing quote. *)
Fixpoint quoted (l : list ascii) : list ascii * list ascii :=
  match l with
  | [] => ([], [])
  | c :: r =>
      if Ascii.eqb c dquote then ([], r)
      else if Ascii.eqb c "\" then
        match r with
        | [] => ([c], [])
        | c2 :: r2 => let (body, after) := quoted r2 in (c :: c2 :: body, after)
        end
      else let (body, after) := quoted r in (c :: body, after)
  end.

(** The global replacement of every backslash-quote pair by a quote. *)
Fixpoint unescapeQuotes (l : list ascii) : list ascii :=
  match l with
  | [] => []
  | c :: r =>
      match r with
      | c2 :: r2 =>
          if Ascii.eqb c "\" && Ascii.eqb c2 dquote then dquote :: unescapeQuotes r2
          else c :: unescapeQuotes r
      | [] => [c]
      end
  end.

(** A range literal after its opening bracket: the characters through the
    closing bracket, and the input after it. *)
Fixpoint bracketed (l : list ascii) : list ascii * list ascii :=
  match l with
  | [] => ([], [])
  | c :: r =>
      if Ascii.eqb c "]" then ([c], r)
      else let (body, after) := bracketed r in (c :: body, after)
  end.

(** A bare word: the characters before the first [wordStop]. *)
Fixpoint word (l : list ascii) : list ascii * list ascii :=
  match l with
  | [] => ([], [])
  | c :: r =>
      if wordStop c then ([], l)
      else let (w, after) := word r in (c :: w, after)
  end.

(** [query[findNextNonSpace(query, i)] === ':'] *)
Definition colonNext (l : list ascii) : bool :=
  match dropWhile isSpace l with
  | c :: _ => Ascii.eqb c ":"
  | [] => false
  end.

(** One turn of the [while] loop of [tokenize] at a character [c] that is
    not white space: the token pushed and the input left.  [at_] is the
    index of [c]. *)
Definition scan (at_ : nat) (c : ascii) (r : list ascii) : Token.t * list ascii :=
  if Ascii.eqb c dquote then
    (* Handle quoted strings *)
    let (body, after) := quoted r in
    (Token.mk Token.VALUE (ofChars (unescapeQuotes body)) at_, after)
  else if Ascii.eqb c ":" then
    (Token.mk Token.OPERATOR ":" at_, r)
  else if Ascii.eqb c "(" || Ascii.eqb c ")" then
    (Token.mk Token.PAREN (ofChars [c]) at_, r)
  else if Ascii.eqb c "[" then
    (* Handle range operators [A TO B] *)
    let (body, after) := bracketed r in
    (Token.mk Token.VALUE (ofChars (c :: body)) at_, after)
  else if Ascii.eqb c ">" || Ascii.eqb c "<" then
    (* Handle comparison operators *)
    match r with
    | c2 :: r2 =>
        if Ascii.eqb c2 "=" then (Token.mk Token.OPERATOR (ofChars [c; c2]) at_, r2)
        else (Token.mk Token.OPERATOR (ofChars [c]) at_, r)
    | [] => (Token.mk Token.OPERATOR (ofChars [c]) at_, r)
    end
  else
    (* Handle words *)
    let (w, after) := word (c :: r) in
    let text := ofChars w in
    if test true logicalWord text then
      let up := toUpperCase text in
      (Token.mk (if up =? "AND" then Token.AND
                 else if up =? "OR" then Token.OR else Token.NOT) up at_, after)
    else if colonNext after then (Token.mk Token.FIELD text at_, after)
    else (Token.mk Token.TEXT text at_, after).

(** The [while] loop of [tokenize] on the input left, [n] being the length
    of the query.  The loop makes no progress on a bare [=], where the
    source never returns; [fuel] bounds the turns and [None] stands for
    that divergence. *)
Fixpoint tokenizeFrom (fuel : nat) (n : nat) (l : list ascii) : option (list Token.t) :=
  match fuel with
  | O => match l with [] => Some [] | _ :: _ => None end
  | S fuel' =>
      match l with
      | [] => Some []
      | c :: r =>
          if isSpace c then tokenizeFrom fuel' n r
          else
            let (tok, after) := scan (n - List.length l) c r in
            match tokenizeFrom fuel' n after with
            | Some toks => Some (tok :: toks)
            | None => None
            end
      end
  end.

Definition tokenize (query : string) : option (list Token.t) :=
  tokenizeFrom (String.length query) (String.length query) (chars query).

Section WithHost.

Variable h : Host.

Definition parseValue (value : string) : JsValue :=
  (* Try to parse as number *)
  match StringToNumber h value with
  | Fin num => JNum num
  | _ =>
      (* Try to parse as date *)
      match Date_parse h value with
      | Some t => JDate (Some t)
      | None => JStr value          (* Return as string *)
      end
  end.

(** [/\s+TO\s+/i] *)
Definition rangeSeparator : re := seqs [plus isSpace; str "TO"; plus isSpace].

Definition createFilter (field operator value : string) : option QueryFilter.t :=
  let ranged :=
    if startsWith value "[" && endsWith value "]" then
      let rangeContent := sliceInner value in
      match split true rangeSeparator rangeContent with
      | [a; b] =>
          Some (QueryFilter.mk field FilterOperator.range
                  (JArr [parseValue a; parseValue b]) false)
      | _ => None
      end
    else None in
  match ranged with
  | Some f => Some f
  | None =>
      (* Map operators *)
      let mapped :=
        if operator =? ":" then Some FilterOperator.equals
        else if operator =? ">" then Some FilterOperator.gt
        else if operator =? ">=" then Some FilterOperator.gte
        else if operator =? "<" then Some FilterOperator.lt
        else if operator =? "<=" then Some FilterOperator.lte
        else None in
      match mapped with
      | Some filterOperator =>
          Some (QueryFilter.mk field filterOperator (parseValue value) false)
      | None => None
      end
  end.

Inductive expression : Type :=
| Filter (filter : QueryFilter.t)
| Text (text : string).

Definition negated (e : expression) : expression :=
  match e with
  | Filter f =>
      Filter (QueryFilter.mk (QueryFilter.field f) (QueryFilter.operator f)
                             (QueryFilter.value f) true)
  | Text s => Text s
  end.

(** [parseExpression] on the tokens from [this.position] on; it returns
    the tokens left besides the expression. *)
Fixpoint parseExpression (tokens : list Token.t) : expression * list Token.t :=
  match tokens with
  | [] => (Text "", [])
  | token :: rest =>
      match Token.type token with
      | Token.NOT =>
          (* Handle NOT operator *)
          let (result, remaining) := parseExpression rest in (negated result, remaining)
      | Token.FIELD =>
          (* Handle field:value expressions *)
          match rest with
          | operatorToken :: rest2 =>
              match Token.type operatorToken with
              | Token.OPERATOR =>
                  match rest2 with
                  | valueToken :: rest3 =>
                      match createFilter (Token.value token) (Token.value operatorToken)
                                         (Token.value valueToken) with
                      | Some filter => (Filter filter, rest3)
                      | None => (Text "", tl rest3)
                      end
                  | [] => (Text "", [])
                  end
              | _ => (Text "", rest2)
              end
          | [] => (Text "", [])
          end
      | Token.TEXT | Token.VALUE =>
          (* Handle regular text *)
          (Text (Token.value token), rest)
      | Token.AND | Token.OR =>
          (* Skip logical operators for now (simplified implementation) *)
          parseExpression rest
      | Token.OPERATOR | Token.PAREN => (Text "", rest)
      end
  end.

Record parsed : Type := mkParsed { filters : list QueryFilter.t; text : string }.

(** The [while] loop of [parse]; every turn takes at least one token, so
    [fuel] equal to the number of tokens is never used up
    ([parseLoop_total]). *)
Fixpoint parseLoop (fuel : nat) (tokens : list Token.t)
         (filters : list QueryFilter.t) (textParts : list string)
  : option (list QueryFilter.t * list string) :=
  match tokens with
  | [] => Some (filters, textParts)
  | _ :: _ =>
      match fuel with
      | O => None
      | S fuel' =>
          match parseExpression tokens with
          | (Filter f, remaining) => parseLoop fuel' remaining (filters ++ [f]) textParts
          | (Text s, remaining) => parseLoop fuel' remaining filters (textParts ++ [s])
          end
      end
  end.

Definition parseTokens (tokens : list Token.t) : option parsed :=
  match parseLoop (List.length tokens) tokens [] [] with
  | Some (filters, textParts) => Some (mkParsed filters (trim (join " " textParts)))
  | None => None
  end.

(** [parse(query)]; [None] when [tokenize] does not return. *)
Definition parse (query : string) : option parsed :=
  match tokenize query with
  | Some tokens => parseTokens tokens
  | None => None
  end.

End WithHost.

End KQLParser.

(** The functions [kql.ts] exports besides the parser. *)
Module KQL.

Import Regex.

(** [createTextQuery]; [None] when the parser does not return.  The query
    it makes has no [fuzzy] member. *)
Definition createTextQuery (h : Host) (text : string) (timeRange : TimeRange.t)
  : option SearchQuery.t :=
  match KQLParser.parse h text with
  | Some parsed =>
      Some (SearchQuery.mk (KQLParser.text parsed) (KQLParser.filters parsed)
                           timeRange false)
  | None => None
  end.

Definition createFilterQuery (filters : list QueryFilter.t) (timeRange : TimeRange.t)
  : SearchQuery.t :=
  SearchQuery.mk "" filters timeRange false.

Definition createLevelFilter (level : string) (negate : bool) : QueryFilter.t :=
  QueryFilter.mk "level" FilterOperator.equals (JStr level) negate.

Definition createFileFilter (file : string) (negate : bool) : QueryFilter.t :=
  QueryFilter.mk "file" FilterOperator.equals (JStr file) negate.

Definition createTimeRangeFilter (from to : Date) : QueryFilter.t :=
  QueryFilter.mk "timestamp" FilterOperator.range (JArr [JDate from; JDate to]) false.

Definition notSpace (c : ascii) : bool := negb (isSpace c).

(** [/\S*$/] *)
Definition currentWordPattern : re := seqs [Star notSpace; Eol].

(** [/(\w+):\s*\S*$/] *)
Definition fieldValuePattern : re :=
  seqs [Grp 1 (plus isWord); Chr ":"; Star isSpace; Star notSpace; Eol].

Definition levelNames : list string :=
  ["TRACE"; "DEBUG"; "INFO"; "WARN"; "ERROR"; "FATAL"].

(** [getSuggestions], for a cursor position that is a natural number. *)
Definition getSuggestions (query : string) (position : nat) (fieldNames : list string)
  : list string :=
  (* Get the current word being typed *)
  let beforeCursor := ofChars (firstn position (chars query)) in
  let currentWord :=
    match exec false currentWordPattern beforeCursor with
    | Some wordMatch => group wordMatch 0
    | None => ""
    end in
  let startsWithCurrentWord (s : string) :=
    startsWith (toLowerCase s) (toLowerCase currentWord) in
  (* If we're after a field name and colon, suggest values *)
  match exec false fieldValuePattern beforeCursor with
  | Some fieldMatch =>
      let field := group fieldMatch 1 in
      let suggestions := if field =? "level" then levelNames else [] in
      List.filter startsWithCurrentWord suggestions
  | None =>
      (* Suggest field names, then operators *)
      let suggestions :=
        (List.map (fun f => String.append f ":") fieldNames ++ ["AND"; "OR"; "NOT"])%list in
      List.filter startsWithCurrentWord suggestions
  end.

End KQL.

(* ------------------------------------------------------------------ *)
(** * [Map] and [Array.prototype.sort] *)

Module JsMap.

Section Map.

Variables K V : Type.
Variable same : K -> K -> bool.

(** A [Map] is its entries in insertion order. *)
Definition t : Type := list (K * V).

Fixpoint get (k : K) (m : t) : option V :=
  match m with
  | [] => None
  | (k', v) :: r => if same k' k then Some v else get k r
  end.

Definition has (k : K) (m : t) : bool :=
  match get k m with Some _ => true | None => false end.

(** [m.set(k, v)]: a present key keeps its place, a new key goes last. *)
Fixpoint set (k : K) (v : V) (m : t) : t :=
  match m with
  | [] => [(k, v)]
  | (k', v') :: r => if same k' k then (k', v) :: r else (k', v') :: set k v r
  end.

Fixpoint delete (k : K) (m : t) : t :=
  match m with
  | [] => []
  | (k', v') :: r => if same k' k then r else (k', v') :: delete k r
  end.

Definition keys (m : t) : list K := List.map fst m.
Definition values (m : t) : list V := List.map snd m.

End Map.

Arguments get {K V} same k m.
Arguments has {K V} same k m.
Arguments set {K V} same k v m.
Arguments delete {K V} same k m.
Arguments keys {K V} m.
Arguments values {K V} m.

End JsMap.

Module JsArray.

Section Sort.

Variable A : Type.
(** [after a b] holds when [comparefn(a, b) > 0]: the comparator puts
    [a] after [b]. *)
Variable after : A -> A -> bool.

Fixpoint insert (x : A) (l : list A) : list A :=
  match l with
  | [] => [x]
  | y :: r => if after x y then y :: insert x r else x :: l
  end.

(** [Array.prototype.sort(comparefn)]: a stable sort. *)
Fixpoint sort (l : list A) : list A :=
  match l with
  | [] => []
  | x :: r => insert x (sort r)
  end.

End Sort.

Arguments insert {A} after x l.
Arguments sort {A} after l.

End JsArray.

(* ------------------------------------------------------------------ *)
(** * search.ts: the search index *)

Module LogSearchIndex.

(** [class LogSearchIndex].  Of MiniSearch the embedding keeps the
    documents it holds; its query engine is the parameter [textSearch]. *)
Record t : Type := mk
  { miniSearch : list LogEntry.t;
    entries : JsMap.t string LogEntry.t;
    fieldStats : JsMap.t string FieldSuggestion.t }.

Definition new : t := mk [] [] [].

(** What [addAll] throws on a document whose id the index already holds. *)
Inductive AddError : Set := DuplicateId (id : string).

(** [miniSearch.addAll(entries)]: the documents are added one by one. *)
Fixpoint addAll (docs : list LogEntry.t) (new_ : list LogEntry.t)
  : list LogEntry.t * option AddError :=
  match new_ with
  | [] => (docs, None)
  | e :: r =>
      if existsb (fun doc => LogEntry.id doc =? LogEntry.id e) docs
      then (docs, Some (DuplicateId (LogEntry.id e)))
      else addAll (docs ++ [e]) r
  end.

Definition getFieldValue (entry : LogEntry.t) (field : string) : JsValue :=
  if field =? "timestamp" then JDate (LogEntry.timestamp entry)
  else if field =? "level" then JStr (LogEntry.level entry)
  else if field =? "message" then JStr (LogEntry.message entry)
  else if field =? "file" then JStr (LogEntry.file entry)
  else if field =? "source" then LogEntry.source entry
  else if field =? "service" then LogEntry.service entry
  else if field =? "host" then LogEntry.host entry
  else if field =? "lineNumber" then
    match LogEntry.lineNumber entry with
    | Some n => JNum (ofZ (Z.of_nat n))
    | None => JUndefined
    end
  else
    match LogEntry.fields entry with
    | Some fields => Js.get (JObj fields) field
    | None => JUndefined
    end.

Definition FieldCounts : Type := JsMap.t string (JsMap.t JsValue nat).

Definition updateFieldStat (fieldCounts : FieldCounts) (field : string) (value : JsValue)
  : FieldCounts :=
  if Js.absent value then fieldCounts
  else
    let fieldCounts :=
      if JsMap.has String.eqb field fieldCounts then fieldCounts
      else JsMap.set String.eqb field [] fieldCounts in
    let valueCounts :=
      match JsMap.get String.eqb field fieldCounts with
      | Some m => m
      | None => []
      end in
    let count := match JsMap.get Js.sameValueZero value valueCounts with
                 | Some n => n
                 | None => 0
                 end in
    JsMap.set String.eqb field
              (JsMap.set Js.sameValueZero value (count + 1) valueCounts) fieldCounts.

(** The body of the [entries.forEach] of [updateFieldStats]. *)
Definition countEntry (fieldCounts : FieldCounts) (entry : LogEntry.t) : FieldCounts :=
  (* Standard fields *)
  let fc := updateFieldStat fieldCounts "level" (JStr (LogEntry.level entry)) in
  let fc := updateFieldStat fc "file" (JStr (LogEntry.file entry)) in
  let fc := updateFieldStat fc "source" (LogEntry.source entry) in
  let fc := updateFieldStat fc "service" (LogEntry.service entry) in
  let fc := updateFieldStat fc "host" (LogEntry.host entry) in
  (* Custom fields *)
  match LogEntry.fields entry with
  | Some fields =>
      fold_left (fun fc kv => updateFieldStat fc (fst kv) (snd kv)) fields fc
  | None => fc
  end.

Definition countEntries (entries : list LogEntry.t) : FieldCounts :=
  fold_left countEntry entries [].

Section WithHost.

Variable h : Host.
(** [miniSearch.search(text, { fuzzy, prefix: true, combineWith: 'AND' })]:
    the ids of the documents the text engine returns. *)
Variable textSearch : list LogEntry.t -> string -> bool -> list string.

Definition inferFieldType (values : list JsValue) : FieldType :=
  match values with
  | [] => TString
  | sample :: _ =>
      match sample with
      | JBool _ => TBoolean
      | JNum _ => TNumber
      | JDate _ => TDate
      | _ =>
          (* Check if all values are numbers *)
          if forallb (fun v => negb (isNaN (Js.toNum h v))) values then TNumber
          (* Check if all values are dates *)
          else if forallb (fun v => match Date_parse h (Js.toStr h v) with
                                    | Some _ => true
                                    | None => false
                                    end) values then TDate
          else TString
      end
  end.

(** The [fieldCounts.forEach] of [updateFieldStats]. *)
Definition suggestion (field : string) (valueCounts : JsMap.t JsValue nat)
  : FieldSuggestion.t :=
  let values := JsMap.keys valueCounts in
  FieldSuggestion.mk field (inferFieldType values) (List.length values) (firstn 10 values).

Definition updateFieldStats (fieldStats : JsMap.t string FieldSuggestion.t)
           (entries : list LogEntry.t) : JsMap.t string FieldSuggestion.t :=
  fold_left (fun stats fv => JsMap.set String.eqb (fst fv) (suggestion (fst fv) (snd fv)) stats)
            (countEntries entries) fieldStats.

(** [addEntries].  When [addAll] throws, the documents added before the
    duplicate stay in the text index and nothing else changes. *)
Definition addEntries (idx : t) (entries : list LogEntry.t) : t * option AddError :=
  match addAll (miniSearch idx) entries with
  | (docs, Some e) => (mk docs (LogSearchIndex.entries idx) (fieldStats idx), Some e)
  | (docs, None) =>
      (mk docs
          (fold_left (fun m entry => JsMap.set String.eqb (LogEntry.id entry) entry m)
                     entries (LogSearchIndex.entries idx))
          (updateFieldStats (fieldStats idx) entries),
       None)
  end.

Definition removeEntries (idx : t) (entryIds : list string) : t :=
  mk (List.filter (fun doc => negb (existsb (String.eqb (LogEntry.id doc)) entryIds))
                  (miniSearch idx))
     (fold_left (fun m id => JsMap.delete String.eqb id m) entryIds (LogSearchIndex.entries idx))
     (fieldStats idx).

Definition clear (idx : t) : t := new.

Definition getFieldSuggestions (idx : t) : list FieldSuggestion.t :=
  JsMap.values (fieldStats idx).

Definition getEntry (idx : t) (id : string) : option LogEntry.t :=
  JsMap.get String.eqb id (LogSearchIndex.entries idx).

Definition getAllEntries (idx : t) : list LogEntry.t :=
  JsMap.values (LogSearchIndex.entries idx).

(** The [switch] of [matchesFilter] on a value that is present. *)
Definition operatorMatches (op : FilterOperator.t) (value filterValue : JsValue) : bool :=
  match op with
  | FilterOperator.equals => Js.strictEquals value filterValue
  | FilterOperator.contains =>
      includes (toLowerCase (Js.toStr h value)) (toLowerCase (Js.toStr h filterValue))
  | FilterOperator.startsWith =>
      startsWith (toLowerCase (Js.toStr h value)) (toLowerCase (Js.toStr h filterValue))
  | FilterOperator.endsWith =>
      endsWith (toLowerCase (Js.toStr h value)) (toLowerCase (Js.toStr h filterValue))
  | FilterOperator.gt => JsNumber.gt (Js.toNum h value) (Js.toNum h filterValue)
  | FilterOperator.gte => JsNumber.ge (Js.toNum h value) (Js.toNum h filterValue)
  | FilterOperator.lt => JsNumber.lt (Js.toNum h value) (Js.toNum h filterValue)
  | FilterOperator.lte => JsNumber.le (Js.toNum h value) (Js.toNum h filterValue)
  | FilterOperator.range =>
      match filterValue with
      | JArr [lo; hi] =>
          let numValue := Js.toNum h value in
          JsNumber.ge numValue (Js.toNum h lo) && JsNumber.le numValue (Js.toNum h hi)
      | _ => false
      end
  | FilterOperator.exists_ => negb (Js.absent value)
  | FilterOperator.other _ => false
  end.

Definition matchesFilter (entry : LogEntry.t) (filter : QueryFilter.t) : bool :=
  let value := getFieldValue entry (QueryFilter.field filter) in
  if Js.absent value then
    match QueryFilter.operator filter with
    | FilterOperator.exists_ => false
    | _ => true
    end
  else
    let matches := operatorMatches (QueryFilter.operator filter) value
                                   (QueryFilter.value filter) in
    if QueryFilter.negate filter then negb matches else matches.

Definition matchesFilters (entry : LogEntry.t) (filters : list QueryFilter.t) : bool :=
  forallb (matchesFilter entry) filters.

(** [entry.timestamp >= from && entry.timestamp <= to], on time values. *)
Definition inTimeRange (r : TimeRange.t) (entry : LogEntry.t) : bool :=
  JsNumber.ge (getTime (LogEntry.timestamp entry)) (getTime (TimeRange.from r))
  && JsNumber.le (getTime (LogEntry.timestamp entry)) (getTime (TimeRange.to r)).

(** [(a, b) => b.timestamp.getTime() - a.timestamp.getTime()] is
    positive; a [NaN] difference counts as zero. *)
Definition newerFirst (a b : LogEntry.t) : bool :=
  JsNumber.gt (getTime (LogEntry.timestamp b)) (getTime (LogEntry.timestamp a)).

(** [search], without the elapsed time.  Nothing in its [try] block
    throws in the embedding, so the [catch] branch is not reached. *)
Definition search (idx : t) (query : SearchQuery.t) : SearchResult.t :=
  (* Apply time range filter first *)
  let candidateEntries :=
    List.filter (inTimeRange (SearchQuery.timeRange query)) (getAllEntries idx) in
  (* Apply field filters *)
  let candidateEntries :=
    if (0 <? List.length (SearchQuery.filters query))%nat
    then List.filter (fun entry => matchesFilters entry (SearchQuery.filters query))
                     candidateEntries
    else candidateEntries in
  (* Perform text search if query text is provided *)
  let searchResults :=
    if nonEmpty (trim (SearchQuery.text query)) then
      let resultIds := textSearch (miniSearch idx) (SearchQuery.text query)
                                  (SearchQuery.fuzzy query) in
      List.filter (fun entry => existsb (String.eqb (LogEntry.id entry)) resultIds)
                  candidateEntries
    else candidateEntries in
  (* Sort by timestamp descending *)
  let sorted := JsArray.sort newerFirst searchResults in
  SearchResult.mk sorted (List.length sorted).

End WithHost.

End LogSearchIndex.

(* ------------------------------------------------------------------ *)
(** * The parser worker

    [class ParserWorker].  The progress messages it posts are left out; the
    stream is given as the texts its chunks decode to. *)

Module ParserWorker.

(** What [parseFile] returns, or the error it throws:
    [new Error(`Failed to parse file: ${error}`)]. *)
Inductive fileOutcome : Type :=
| Parsed (log : ParsedLog.t)
| FailedToParseFile (cause : JsError).

(** The variables of the read loop of [parseFile]. *)
Record reading : Type := mkReading
  { buffer : string;
    lineNumber : nat;
    totalLines : nat;
    entries : list LogEntry.t;
    errors : list ParseError.t }.

Section WithHost.

Variable h : Host.
Variable now : Z.
(** [ids i] is the id [generateId()] returns while the line of index [i],
    counted from 0, is parsed. *)
Variable ids : nat -> string.

(** The [for] loop of [parseFile] over the complete lines of a chunk. *)
Fixpoint completeLines (p : LogParser.t) (fileName : string) (lines : list string)
         (st : reading) : reading :=
  match lines with
  | [] => st
  | line :: more =>
      let st' :=
        if nonEmpty (trim line) then
          match LogParser.parseLine h now p (ids (lineNumber st - 1)) line fileName
                                    (lineNumber st) with
          | Return (Some entry) =>
              mkReading (buffer st) (lineNumber st) (totalLines st)
                        (entries st ++ [entry]) (errors st)
          | Return None => st
          | Throw e =>
              mkReading (buffer st) (lineNumber st) (totalLines st) (entries st)
                        (errors st ++ [ParseError.mk (lineNumber st) line e])
          end
        else st in
      completeLines p fileName more
        (mkReading (buffer st') (S (lineNumber st')) (S (totalLines st'))
                   (entries st') (errors st'))
  end.

(** One turn of the read loop on a chunk that decodes to [text]. *)
Definition readChunk (p : LogParser.t) (fileName : string) (st : reading) (text : string)
  : reading :=
  let lines := LogParser.splitLines (buffer st ++ text) in
  (* Keep incomplete line in buffer *)
  let st' := mkReading (last lines "") (lineNumber st) (totalLines st)
                       (entries st) (errors st) in
  completeLines p fileName (removelast lines) st'.

(** The turn on which the stream is done: the remaining buffer is parsed
    outside any inner [try]. *)
Definition finishReading (p : LogParser.t) (fileName : string) (fileSize : nat)
           (st : reading) : fileOutcome :=
  if nonEmpty (trim (buffer st)) then
    match LogParser.parseLine h now p (ids (lineNumber st - 1)) (buffer st) fileName
                              (lineNumber st) with
    | Return (Some entry) =>
        Parsed (ParsedLog.mk (entries st ++ [entry]) (errors st) (S (totalLines st))
                             fileName fileSize)
    | Return None =>
        Parsed (ParsedLog.mk (entries st) (errors st) (S (totalLines st)) fileName fileSize)
    | Throw e => FailedToParseFile e
    end
  else Parsed (ParsedLog.mk (entries st) (errors st) (totalLines st) fileName fileSize).

Definition start : reading := mkReading "" 1 0 [] [].

(** [parseFile(file, options)], given the name and size of the file and the
    texts of the chunks its stream delivers. *)
Definition parseFile (options : LogParser.ParseOptions) (fileName : string)
           (fileSize : nat) (chunks : list string) : fileOutcome :=
  let p := LogParser.new options in
  finishReading p fileName fileSize (fold_left (readChunk p fileName) chunks start).

(** The loop of [parseChunk] from the line of index [i] on. *)
Fixpoint chunkLines (p : LogParser.t) (fileName : string) (startLine i : nat)
         (lines : list string) (entries : list LogEntry.t) : list LogEntry.t :=
  match lines with
  | [] => entries
  | l :: more =>
      let line := trim l in
      if nonEmpty line then
        match LogParser.parseLine h now p (ids i) line fileName (startLine + i) with
        | Return (Some entry) => chunkLines p fileName startLine (S i) more (entries ++ [entry])
        | Return None => chunkLines p fileName startLine (S i) more entries
        | Throw _ =>
            (* Silently skip parsing errors for chunks *)
            chunkLines p fileName startLine (S i) more entries
        end
      else chunkLines p fileName startLine (S i) more entries
  end.

Definition parseChunk (options : LogParser.ParseOptions) (chunk fileName : string)
           (startLine : nat) : list LogEntry.t :=
  chunkLines (LogParser.new options) fileName startLine 0 (LogParser.splitLines chunk) [].

End WithHost.

End ParserWorker.

(* ------------------------------------------------------------------ *)
(** * Vocabulary of the specification *)

(** [s] and [t] are the same word up to letter case. *)
Definition caseVariant (s t : string) : Prop := toUpperCase s = toUpperCase t.

(** The seven names the normalizer recognizes. *)
Definition recognizedLevel (s : string) : Prop :=
  caseVariant s "WARNING" \/ exists l, caseVariant s (levelName l).

(** A timestamp value no rule of the parser accepts: neither a [Date], nor
    a number, nor a string the [Date] constructor reads. *)
Definition unparseable (h : Host) (v : JsValue) : Prop :=
  match v with
  | JDate _ | JNum _ => False
  | JStr s => Date_parse h s = None
  | _ => True
  end.

(** Two present values are identical: they have the same type and the same
    value, strings character for character.  Two objects, arrays or dates
    are never the same object here. *)
Inductive identical : JsValue -> JsValue -> Prop :=
| identical_string (s : string) : identical (JStr s) (JStr s)
| identical_number (a b : number) :
    JsNumber.compare a b = Eq -> identical (JNum a) (JNum b)
| identical_boolean (b : bool) : identical (JBool b) (JBool b).

(** The reading of a filter in which the operator decides first, an absent
    value failing [exists] and satisfying every other operator, and the
    negate flag then inverts whatever was decided. *)
Definition negateEverywhere (h : Host) (entry : LogEntry.t) (filter : QueryFilter.t) : bool :=
  let value := LogSearchIndex.getFieldValue entry (QueryFilter.field filter) in
  let decided :=
    if Js.absent value then
      match QueryFilter.operator filter with
      | FilterOperator.exists_ => false
      | _ => true
      end
    else LogSearchIndex.operatorMatches h (QueryFilter.operator filter) value
                                        (QueryFilter.value filter) in
  if QueryFilter.negate filter then negb decided else decided.

(** * Sample data *)

(** A host that reads no date and no number out of a string. *)
Definition bareHost : Host :=
  mkHost (fun _ => None) (fun _ => NaN) (fun _ => "Invalid Date") (fun _ => "").

(** The record [parseTextLine] makes of the line [INFO started]. *)
Definition textRecord : LogEntry.t :=
  LogEntry.mk "r1" (Some 1000%Z) "INFO" "started" "app.log" "INFO started" None
              (JStr "app.log") JUndefined JUndefined (Some 1).

(** The filter the query [NOT service:api] parses to. *)
Definition notServiceApi : QueryFilter.t :=
  QueryFilter.mk "service" FilterOperator.equals (JStr "api") true.

(** The timestamp of [entry] is the instant [t]. *)
Definition hasTime (t : Z) (entry : LogEntry.t) : bool :=
  match LogEntry.timestamp entry with
  | Some u => (u =? t)%Z
  | None => false
  end.

(** The timestamp of [entry] lies in the inclusive range [r]. *)
Definition withinRange (r : TimeRange.t) (entry : LogEntry.t) : Prop :=
  exists t lo hi,
    LogEntry.timestamp entry = Some t /\ TimeRange.from r = Some lo
    /\ TimeRange.to r = Some hi /\ (lo <= t <= hi)%Z.

(** [a] is at least as recent as [b]. *)
Definition notOlder (a b : LogEntry.t) : Prop :=
  exists ta tb,
    LogEntry.timestamp a = Some ta /\ LogEntry.timestamp b = Some tb /\ (tb <= ta)%Z.

(** [e] carries a valid date. *)
Definition dated (e : LogEntry.t) : Prop := exists t, LogEntry.timestamp e = Some t.

(** Three records one second apart, and the query for the first two
    seconds with no text and no filter. *)
Definition recordAt (id : string) (t : Z) : LogEntry.t :=
  LogEntry.mk id (Some t) "INFO" "tick" "app.log" "INFO tick" None
              (JStr "app.log") JUndefined JUndefined None.

Definition threeRecords : LogSearchIndex.t :=
  LogSearchIndex.mk []
    [("a", recordAt "a" 1000); ("b", recordAt "b" 2000); ("c", recordAt "c" 3000)] [].

Definition firstTwoSeconds : SearchQuery.t :=
  SearchQuery.mk "" [] (TimeRange.mk (Some 1000%Z) (Some 2000%Z)) false.

(** ** Field statistics *)

(** The values a record shows for [field]: its attribute of that name among
    the five standard ones, then its structured fields of that name. *)
Definition standardValue (field : string) (e : LogEntry.t) : list JsValue :=
  if field =? "level" then [JStr (LogEntry.level e)]
  else if field =? "file" then [JStr (LogEntry.file e)]
  else if field =? "source" then [LogEntry.source e]
  else if field =? "service" then [LogEntry.service e]
  else if field =? "host" then [LogEntry.host e]
  else [].

Definition structuredValues (field : string) (e : LogEntry.t) : list JsValue :=
  match LogEntry.fields e with
  | Some fields => List.map snd (List.filter (fun kv => fst kv =? field) fields)
  | None => []
  end.

(** The non-null values observed for [field] across [records], in order. *)
Definition observed (field : string) (records : list LogEntry.t) : list JsValue :=
  List.filter (fun v => negb (Js.absent v))
    (flat_map (fun e => (standardValue field e ++ structuredValues field e)%list) records).

(** The number of distinct values of a list: a value counts when it is the
    same value as none before it. *)
Fixpoint distinctAfter (earlier vs : list JsValue) : nat :=
  match vs with
  | [] => 0
  | v :: r =>
      (if existsb (fun u => Js.sameValueZero u v) earlier then 0 else 1)
      + distinctAfter (v :: earlier) r
  end.

Definition distinctCount (vs : list JsValue) : nat := distinctAfter [] vs.

(** The cardinality [getFieldSuggestions] reports for [field]. *)
Definition reportedCardinality (idx : LogSearchIndex.t) (field : string) : option nat :=
  match List.find (fun s => FieldSuggestion.field s =? field)
                  (LogSearchIndex.getFieldSuggestions idx) with
  | Some s => Some (FieldSuggestion.cardinality s)
  | None => None
  end.

(** The calls [updateFieldStat] receives for one record, in order. *)
Definition statEvents (e : LogEntry.t) : list (string * JsValue) :=
  ([("level", JStr (LogEntry.level e)); ("file", JStr (LogEntry.file e));
   ("source", LogEntry.source e); ("service", LogEntry.service e);
   ("host", LogEntry.host e)]
  ++ match LogEntry.fields e with Some fields => fields | None => [] end)%list.

(** One more occurrence of [v] in a value-count table. *)
Definition countValue (m : JsMap.t JsValue nat) (v : JsValue) : JsMap.t JsValue nat :=
  JsMap.set Js.sameValueZero v
    (match JsMap.get Js.sameValueZero v m with Some n => n | None => 0 end + 1) m.

(** The keys of a value-count table stand for the values seen so far. *)
Definition sameKeys (keys earlier : list JsValue) : Prop :=
  forall u, existsb (fun k => Js.sameValueZero k u) keys
            = existsb (fun w => Js.sameValueZero w u) earlier.

(** One call of [updateFieldStat]. *)
Definition statStep (fc : LogSearchIndex.FieldCounts) (kv : string * JsValue)
  : LogSearchIndex.FieldCounts :=
  LogSearchIndex.updateFieldStat fc (fst kv) (snd kv).

(** The non-null values a list of calls carries for [field]. *)
Definition valuesFor (field : string) (evs : list (string * JsValue)) : list JsValue :=
  List.filter (fun v => negb (Js.absent v))
    (List.map snd (List.filter (fun kv => fst kv =? field) evs)).

(** The value-count table of [field], empty when there is none yet. *)
Definition tableOf (field : string) (fc : LogSearchIndex.FieldCounts) : JsMap.t JsValue nat :=
  match JsMap.get String.eqb field fc with Some m => m | None => [] end.

(** The body of the [fieldCounts.forEach] of [updateFieldStats]. *)
Definition setSuggestion (h : Host) (stats : JsMap.t string FieldSuggestion.t)
           (fv : string * JsMap.t JsValue nat) : JsMap.t string FieldSuggestion.t :=
  JsMap.set String.eqb (fst fv) (LogSearchIndex.suggestion h (fst fv) (snd fv)) stats.

(** Every suggestion is stored under the name of its field. *)
Definition keyedByField (stats : JsMap.t string FieldSuggestion.t) : Prop :=
  forall k s, In (k, s) stats -> FieldSuggestion.field s = k.

(** Two batches of one record each, an INFO record then an ERROR record. *)
Definition infoRecord : LogEntry.t :=
  LogEntry.mk "a" (Some 1000%Z) "INFO" "up" "app.log" "INFO up" None
              (JStr "app.log") JUndefined JUndefined (Some 1).

Definition errorRecord : LogEntry.t :=
  LogEntry.mk "b" (Some 2000%Z) "ERROR" "down" "app.log" "ERROR down" None
              (JStr "app.log") JUndefined JUndefined (Some 2).

(** ** Structured lines *)

(** The words the keyword fallback of [detectLevelInText] looks for. *)
Definition levelKeywords : list string :=
  ["fatal"; "critical"; "error"; "exception"; "fail"; "warn"; "warning"; "debug"; "trace"].

(** The first name of the list under which the payload holds a truthy
    value: the key consumed for the timestamp, and for the level. *)
Fixpoint firstTruthyKey (json : JsValue) (names : list string) : option string :=
  match names with
  | [] => None
  | name :: more =>
      if Js.truthy (Js.get json name) then Some name else firstTruthyKey json more
  end.

(** The first name under which the payload holds a non-empty string: the
    key consumed for the message. *)
Fixpoint firstStringKey (json : JsValue) (names : list string) : option string :=
  match names with
  | [] => None
  | name :: more =>
      match Js.get json name with
      | JStr s => if nonEmpty s then Some name else firstStringKey json more
      | _ => firstStringKey json more
      end
  end.

Definition optionToList (o : option string) : list string :=
  match o with Some k => [k] | None => [] end.

(** The keys actually consumed for timestamp, level and message. *)
Definition consumedKeys (json : JsValue) : list string :=
  (optionToList (firstTruthyKey json LogParser.timestampFields)
   ++ optionToList (firstTruthyKey json LogParser.levelFields)
   ++ optionToList (firstStringKey json LogParser.messageFields))%list.

(** The payload without the keys actually consumed. *)
Definition payloadMinusConsumed (json : JsValue) : list (string * JsValue) :=
  List.filter (fun kv => negb (existsb (String.eqb (fst kv)) (consumedKeys json)))
              (Js.spread json).

(** All the names the three extractors look under. *)
Definition aliasNames : list string :=
  (LogParser.timestampFields ++ LogParser.levelFields ++ LogParser.messageFields)%list.

(** The line holding the one-member object [name: "text"]. *)
Definition memberLine (name text : string) : string :=
  "{" ++ JSON.quote name ++ ":" ++ JSON.quote text ++ "}".

(** A payload with a message and no level member. *)
Definition diskErrorPayload : JsValue := JObj [("msg", JStr "disk error")].
Definition diskErrorLine : string := memberLine "msg" "disk error".

(** A payload with two timestamp members and one more member. *)
Definition twoStampsPayload : JsValue :=
  JObj [("@timestamp", JStr "2025-01-01T00:00:00Z"); ("ts", JStr "backup");
        ("code", JNum (ofZ 7))].
Definition twoStampsLine : string :=
  "{" ++ JSON.quote "@timestamp" ++ ":" ++ JSON.quote "2025-01-01T00:00:00Z" ++ ","
      ++ JSON.quote "ts" ++ ":" ++ JSON.quote "backup" ++ ","
      ++ JSON.quote "code" ++ ":7}".

(** A payload whose timestamp comes from [datetime] and whose level comes
    from [priority]. *)
Definition datetimePayload : JsValue :=
  JObj [("datetime", JStr "2025-01-01T00:00:00Z"); ("priority", JStr "warning")].

(** The line whose level is under [priority], and the record made of it at
    instant 0. *)
Definition priorityLine : string := memberLine "priority" "warning".

Definition priorityRecord : LogEntry.t :=
  LogEntry.mk "id" (Some 0%Z) "WARN" priorityLine "app.log" priorityLine
              (Some [("priority", JStr "warning")])
              (JStr "app.log") JUndefined JUndefined (Some 1).

(** The record made of [twoStampsLine] at instant 0 by a host that reads
    no date. *)
Definition twoStampsRecord : LogEntry.t :=
  LogEntry.mk "id" (Some 0%Z) "INFO" twoStampsLine "app.log" twoStampsLine
              (Some [("code", JNum (ofZ 7))])
              (JStr "app.log") JUndefined JUndefined (Some 1).

(** A line that looks like an object and is no JSON text. *)
Definition brokenLine : string := "{oops}".

(** ** Decoding *)

(** The outermost container on the stack of the JSON reader is an object. *)
Fixpoint bottomIsObject (st : list JSON.frame) : bool :=
  match st with
  | [] => false
  | f :: r =>
      match r with
      | [] => match f with JSON.InObj _ _ => true | JSON.InArr _ => false end
      | _ :: _ => bottomIsObject r
      end
  end.

(** The JSON reader is inside an object, or has just read one as the whole
    text. *)
Definition readingObject (p : JSON.pstate) : Prop :=
  bottomIsObject (JSON.stack p) = true
  \/ (JSON.stack p = [] /\ JSON.lx p = JSON.Idle
      /\ exists ps, JSON.md p = JSON.Finished (JObj ps)).

(** ** Queries *)

(** A bare word the tokenizer reads as a field name when a colon follows
    it: not empty, free of the characters that end a word, not opening with
    a bracket, and none of AND, OR, NOT. *)
Definition fieldWord (f : string) : Prop :=
  match chars f with
  | [] => False
  | c :: r =>
      forallb (fun x => negb (KQLParser.wordStop x)) (c :: r) = true
      /\ Ascii.eqb c "[" = false
      /\ Regex.test true KQLParser.logicalWord f = false
  end.

(** The text between the brackets holds no closing bracket. *)
Definition unbracketed (content : string) : Prop :=
  forallb (fun x => negb (Ascii.eqb x "]")) (chars content) = true.

(** The text between the brackets is not made of exactly two parts
    separated by TO. *)
Definition malformedRange (content : string) : Prop :=
  List.length (Regex.split true KQLParser.rangeSeparator content) <> 2.

(** The query holds no equals sign. *)
Definition noEqualsSign (query : string) : Prop :=
  forallb (fun x => negb (Ascii.eqb x "=")) (chars query) = true.

(** The bracketed literal of [content]. *)
Definition inBrackets (content : string) : string := "[" ++ content ++ "]".

(** [l] ends with [s]. *)
Definition suffixOf (s l : list ascii) : Prop := exists pre, l = (pre ++ s)%list.

(** A token that is the colon operator. *)
Definition isColonOperator (t : Token.t) : bool :=
  match Token.type t with
  | Token.OPERATOR => Token.value t =? ":"
  | _ => false
  end.

(** In a token list, every FIELD token is directly followed by the colon
    operator. *)
Fixpoint colonAfterFields (toks : list Token.t) : bool :=
  match toks with
  | [] => true
  | t :: r =>
      match Token.type t with
      | Token.FIELD => match r with o :: _ => isColonOperator o | [] => false end
      | _ => true
      end && colonAfterFields r
  end.

(** The two operators of the filters the query parser makes. *)
Definition equalsOrRange (op : FilterOperator.t) : Prop :=
  op = FilterOperator.equals \/ op = FilterOperator.range.

(** No character of [s] is white space. *)
Definition spaceFree (s : string) : bool :=
  forallb (fun c => negb (isSpace c)) (chars s).

(** [s] is white space, one character at least. *)
Definition blank (s : string) : bool :=
  nonEmpty s && forallb isSpace (chars s).

(** The character the matcher stands after, once it has passed [l]. *)
Definition lastOf (l : list ascii) (pv : option ascii) : option ascii :=
  fold_left (fun _ x => Some x) l pv.

(** A character of plain text: white space, or a character that neither
    ends a bare word nor opens a bracket. *)
Definition plainChar (c : ascii) : bool :=
  (isSpace c || negb (KQLParser.wordStop c)) && negb (Ascii.eqb c "[").

Definition plainText (query : string) : bool := forallb plainChar (chars query).

(** The words of a text, its maximal runs free of white space; [cur] holds
    the word being read, last character first. *)
Fixpoint wordsFrom (cur : list ascii) (l : list ascii) : list string :=
  match l with
  | [] => match cur with [] => [] | _ :: _ => [ofChars (rev cur)] end
  | c :: r =>
      if isSpace c then
        match cur with
        | [] => wordsFrom [] r
        | _ :: _ => ofChars (rev cur) :: wordsFrom [] r
        end
      else wordsFrom (c :: cur) r
  end.

Definition words (text : string) : list string := wordsFrom [] (chars text).

(** One of AND, OR, NOT, in any letter case. *)
Definition isLogical (w : string) : bool := Regex.test true KQLParser.logicalWord w.

(** The words of a query that are none of AND, OR, NOT. *)
Definition freeWords (query : string) : list string :=
  List.filter (fun w => negb (isLogical w)) (words query).

(** The type and text of the token a word of plain text is read as. *)
Definition tokenOfWord (w : string) : Token.kind * string :=
  if isLogical w then
    let up := toUpperCase w in
    (if up =? "AND" then Token.AND else if up =? "OR" then Token.OR else Token.NOT, up)
  else (Token.TEXT, w).

Definition isLogicalToken (t : Token.t) : bool :=
  match Token.type t with
  | Token.AND | Token.OR | Token.NOT => true
  | _ => false
  end.

(** The token list holds words only: text and logical words. *)
Definition wordTokens (toks : list Token.t) : bool :=
  forallb (fun t => match Token.type t with
                    | Token.TEXT | Token.AND | Token.OR | Token.NOT => true
                    | _ => false
                    end) toks.

(** The text parts the loop of [parse] collects from a list of word
    tokens: the text of every word that is not logical, and an empty part
    when logical words end the list. *)
Fixpoint textsOf (toks : list Token.t) : list string :=
  match toks with
  | [] => []
  | t :: r =>
      if isLogicalToken t then match r with [] => [""] | _ :: _ => textsOf r end
      else Token.value t :: textsOf r
  end.

(** A logical word ends the list. *)
Fixpoint trailingLogical (ws : list string) : bool :=
  match ws with
  | [] => false
  | w :: r => match r with [] => isLogical w | _ :: _ => trailingLogical r end
  end.

(** A word: not empty and free of white space. *)
Definition wordLike (w : string) : bool := nonEmpty w && spaceFree w.

(** The first and the last character of [l] are no white space. *)
Definition edgesOk (l : list ascii) : bool :=
  match l with [] => false | c :: _ => negb (isSpace c) end
  && match rev l with [] => false | c :: _ => negb (isSpace c) end.

Definition isNot (t : Token.t) : bool :=
  match Token.type t with Token.NOT => true | _ => false end.

(** The phrase holds neither a double quote nor a backslash. *)
Definition quoteFree (phrase : string) : bool :=
  forallb (fun c => negb (Ascii.eqb c dquote || Ascii.eqb c "\")) (chars phrase).

(** The value has the shape of a range literal: it opens and closes with a
    bracket. *)
Definition bracketLiteral (value : string) : bool :=
  startsWith value "[" && endsWith value "]".

(** The phrase between double quotes; the closing quote may be missing. *)
Definition inQuotes (phrase : string) (closed : bool) : string :=
  String dquote (phrase ++ (if closed then String dquote "" else "")).

(** ** Searching *)

(** The record passes the three tests of [search]: the time range, every
    filter and, when the query has text, the text engine. *)
Definition selects (h : Host)
           (textSearch : list LogEntry.t -> string -> bool -> list string)
           (idx : LogSearchIndex.t) (query : SearchQuery.t) (e : LogEntry.t) : bool :=
  LogSearchIndex.inTimeRange (SearchQuery.timeRange query) e
  && LogSearchIndex.matchesFilters h e (SearchQuery.filters query)
  && (negb (nonEmpty (trim (SearchQuery.text query)))
      || existsb (String.eqb (LogEntry.id e))
                 (textSearch (LogSearchIndex.miniSearch idx) (SearchQuery.text query)
                             (SearchQuery.fuzzy query))).

(** The query with other filters. *)
Definition withFilters (query : SearchQuery.t) (filters : list QueryFilter.t)
  : SearchQuery.t :=
  SearchQuery.mk (SearchQuery.text query) filters (SearchQuery.timeRange query)
                 (SearchQuery.fuzzy query).

(** Every id the record map holds is an id of the text index. *)
Definition indexed (idx : LogSearchIndex.t) : Prop :=
  forall id,
    In id (JsMap.keys (LogSearchIndex.entries idx)) ->
    In id (List.map LogEntry.id (LogSearchIndex.miniSearch idx)).

(** ** Suggestions *)

(** The values of a list in order of first appearance, one for each group
    of same values; [seen] holds the values met before. *)
Fixpoint firstSeen (seen vs : list JsValue) : list JsValue :=
  match vs with
  | [] => []
  | v :: r =>
      if existsb (fun k => Js.sameValueZero k v) seen then firstSeen seen r
      else v :: firstSeen (seen ++ [v]) r
  end.

(** The suggestion [getFieldSuggestions] reports for [field]. *)
Definition reportedSuggestion (idx : LogSearchIndex.t) (field : string)
  : option FieldSuggestion.t :=
  List.find (fun s => FieldSuggestion.field s =? field)
            (LogSearchIndex.getFieldSuggestions idx).

(** Twelve records with twelve hosts, and two more that repeat a host. *)
Definition hostRecord (n : nat) (host : string) : LogEntry.t :=
  LogEntry.mk host (Some (Z.of_nat n)) "INFO" "up" "app.log" "INFO up" None
              (JStr "app.log") JUndefined (JStr host) (Some n).

Definition manyHosts : list LogEntry.t :=
  [hostRecord 1 "h01"; hostRecord 2 "h02"; hostRecord 3 "h03"; hostRecord 4 "h04";
   hostRecord 5 "h05"; hostRecord 6 "h06"; hostRecord 7 "h07"; hostRecord 8 "h08";
   hostRecord 9 "h09"; hostRecord 10 "h10"; hostRecord 11 "h11"; hostRecord 12 "h12"].

(** ** Completions *)

(** The longest end of [l] free of white space. *)
Fixpoint lastRun (l : list ascii) : list ascii :=
  match l with
  | [] => []
  | c :: r => if forallb KQL.notSpace (c :: r) then c :: r else lastRun r
  end.

(** ** Files *)

(** One of the six level names. *)
Definition canonicalLevel (s : string) : Prop := exists l, s = levelName l.

(** The bound [addError] puts on the number of errors: [maxErrors || 1000]. *)
Definition errorCap (p : LogParser.t) : nat :=
  match LogParser.maxErrors (LogParser.options p) with
  | Some 0 | None => 1000
  | Some n => n
  end.

(** The number of line feeds of a text. *)
Definition lineFeeds (text : string) : nat :=
  List.length (List.filter (fun c => (code c =? 10)%N) (chars text)).

(** The lines of a text that are not blank. *)
Definition nonBlankLines (text : string) : list string :=
  List.filter (fun l => nonEmpty (trim l)) (LogParser.splitLines text).

(** The line number of a record, 0 when it has none. *)
Definition lineOf (e : LogEntry.t) : nat :=
  match LogEntry.lineNumber e with Some n => n | None => 0 end.

(** The same reading with another buffer. *)
Definition withBuffer (b : string) (st : ParserWorker.reading) : ParserWorker.reading :=
  ParserWorker.mkReading b (ParserWorker.lineNumber st) (ParserWorker.totalLines st)
                         (ParserWorker.entries st) (ParserWorker.errors st).

(** The text holds no line feed. *)
Definition oneLine (s : string) : bool :=
  forallb (fun c => negb (code c =? 10)%N) (chars s).

(** The record made at instant 0 of the line [CRITICAL: disk full]. *)
Definition criticalRecord : LogEntry.t :=
  LogEntry.mk "id" (Some 0%Z) "INFO" "CRITICAL: disk full" "app.log"
              "CRITICAL: disk full" None (JStr "app.log") JUndefined JUndefined (Some 1).

(** The record was made of the line of index [k] of [lines], trimmed, of
    the file [fileName], with the id handed out for that index; [from] is the
    index the lines are counted from. *)
Definition madeOfLine (ids : nat -> string) (fileName : string) (lines : list string)
           (from : nat) (e : LogEntry.t) : Prop :=
  exists k,
    k < List.length lines
    /\ LogEntry.lineNumber e = Some (from + k + 1)
    /\ LogEntry.raw e = trim (nth k lines "")
    /\ LogEntry.file e = fileName
    /\ LogEntry.id e = ids (from + k).

(** The error was recorded for the line of index [k] of [lines]. *)
Definition recordedForLine (lines : list string) (from : nat) (err : ParseError.t) : Prop :=
  exists k,
    k < List.length lines
    /\ ParseError.line err = from + k + 1
    /\ ParseError.content err = trim (nth k lines "").

(** [a] comes from an earlier line than [b]. *)
Definition earlierLine (a b : LogEntry.t) : Prop := lineOf a < lineOf b.

(** A stream cut in two chunks inside a line that is no JSON text and has
    no line feed after it, and the same text with the line feed. *)
Definition brokenTail : list string := ["INFO up" ++ String (ascii_of_N 10) "{oo"; "ps}"].

Definition brokenTailClosed : list string :=
  ["INFO up" ++ String (ascii_of_N 10) "{oo"; "ps}" ++ String (ascii_of_N 10) ""].

(** The text a stream delivers: its chunks one after the other. *)
Definition wholeText (chunks : list string) : string := fold_right String.append "" chunks.

(** The text ends with a line feed. *)
Definition endsWithLineFeed (text : string) : Prop :=
  exists before, chars text = (before ++ [ascii_of_N 10])%list.

(** ** Structured lines: time, message and failures *)

(** [v && typeof v === 'string']: a string that is not empty. *)
Definition textMember (v : JsValue) : bool :=
  match v with JStr s => nonEmpty s | _ => false end.

(** [typeof v === 'string']. *)
Definition isText (v : JsValue) : bool :=
  match v with JStr _ => true | _ => false end.

(** How a line taken for JSON fails: it does not decode, or the first
    truthy level member of its payload is no string. *)
Definition structuredFailure (line : string) (cause : JsError) : Prop :=
  (JSON.parse line = None /\ cause = JsonParsingFailed SyntaxError)
  \/ (exists json v,
         JSON.parse line = Some json
         /\ LogParser.firstTruthy json LogParser.levelFields = Some v
         /\ isText v = false
         /\ cause = JsonParsingFailed TypeError).

(** An error kept for a line that looks like JSON and failed as such. *)
Definition failedStructuredLine (err : ParseError.t) : Prop :=
  LogParser.looksLikeJson (ParseError.content err) = true
  /\ structuredFailure (ParseError.content err) (ParseError.error err).

(** A line whose [timestamp] is 0 and whose [msg] is empty: the time comes
    from [ts], in seconds, and the message from [text]. *)
Definition zeroStampLine : string :=
  "{" ++ JSON.quote "timestamp" ++ ":0," ++ JSON.quote "ts" ++ ":1700000000,"
      ++ JSON.quote "msg" ++ ":" ++ JSON.quote "" ++ ","
      ++ JSON.quote "text" ++ ":" ++ JSON.quote "up" ++ "}".

Definition zeroStampPayload : JsValue :=
  JObj [("timestamp", JNum (ofZ 0)); ("ts", JNum (ofZ 1700000000));
        ("msg", JStr ""); ("text", JStr "up")].

(** A line whose [level] is a number. *)
Definition numericLevelLine : string := "{" ++ JSON.quote "level" ++ ":3}".

(** The record made of [zeroStampLine]. *)
Definition zeroStampRecord : LogEntry.t :=
  LogEntry.mk "id" (Some 1700000000000%Z) "INFO" "up" "app.log" zeroStampLine
              (Some [("text", JStr "up")])
              (JStr "app.log") JUndefined JUndefined (Some 1).

(** A text of two lines, the second of which looks like JSON and is none. *)
Definition oneBadLine : string := "ok" ++ String (ascii_of_N 10) "{bad}".

(** ** Text operators *)

(** A filter on [field] that is not negated, and the compared texts:
    [String(v).toLowerCase()]. *)
Definition plainFilter (field : string) (op : FilterOperator.t) (v : JsValue)
  : QueryFilter.t :=
  QueryFilter.mk field op v false.

Definition negatedFilter (field : string) (op : FilterOperator.t) (v : JsValue)
  : QueryFilter.t :=
  QueryFilter.mk field op v true.

Definition lowerText (h : Host) (v : JsValue) : string := toLowerCase (Js.toStr h v).

(* ------------------------------------------------------------------ *)
(** * The level normalizer *)

Lemma levelName_upper : forall l, toUpperCase (levelName l) = levelName l.
Proof. destruct l; reflexivity. Qed.

Lemma levelName_inj : forall a b, levelName a = levelName b -> a = b.
Proof. destruct a, b; simpl; intro H; try reflexivity; discriminate H. Qed.

Lemma normalizeLogLevel_cases :
  forall s,
    (toUpperCase s = "WARNING" /\ normalizeLogLevel s = "WARN")
    \/ (exists l, toUpperCase s = levelName l /\ normalizeLogLevel s = levelName l)
    \/ (toUpperCase s <> "WARNING" /\ (forall l, toUpperCase s <> levelName l)
        /\ normalizeLogLevel s = "INFO").
Proof.
  intro s. unfold normalizeLogLevel.
  destruct (String.eqb_spec (toUpperCase s) "WARNING") as [Hw | Hw].
  { left. split; [exact Hw | reflexivity]. }
  destruct (String.eqb_spec (toUpperCase s) "TRACE") as [H1 | H1].
  { right; left; exists TRACE; simpl; rewrite H1; split; reflexivity. }
  destruct (String.eqb_spec (toUpperCase s) "DEBUG") as [H2 | H2].
  { right; left; exists DEBUG; simpl; rewrite H2; split; reflexivity. }
  destruct (String.eqb_spec (toUpperCase s) "INFO") as [H3 | H3].
  { right; left; exists INFO; simpl; rewrite H3; split; reflexivity. }
  destruct (String.eqb_spec (toUpperCase s) "WARN") as [H4 | H4].
  { right; left; exists WARN; simpl; rewrite H4; split; reflexivity. }
  destruct (String.eqb_spec (toUpperCase s) "ERROR") as [H5 | H5].
  { right; left; exists ERROR; simpl; rewrite H5; split; reflexivity. }
  destruct (String.eqb_spec (toUpperCase s) "FATAL") as [H6 | H6].
  { right; left; exists FATAL; simpl; rewrite H6; split; reflexivity. }
  right; right. simpl. split; [exact Hw | split; [| reflexivity]].
  intros [] ; simpl; assumption.
Qed.



(* ------------------------------------------------------------------ *)
(** * Timestamp values *)

Lemma ltb_ofZ : forall a b, JsNumber.ltb (ofZ a) (ofZ b) = (a <? b)%Z.
Proof.
  intros a b. unfold JsNumber.ltb, JsNumber.compare, ofZ, pow10. simpl.
  rewrite !Z.mul_1_r. unfold Z.ltb. reflexivity.
Qed.

Lemma leb_ofZ : forall a b, JsNumber.leb (ofZ a) (ofZ b) = (a <=? b)%Z.
Proof.
  intros a b. unfold JsNumber.leb, JsNumber.compare, ofZ, pow10. simpl.
  rewrite !Z.mul_1_r. unfold Z.leb. reflexivity.
Qed.

Lemma dateOfNumber_ofZ :
  forall z, (- maxTimeValue <= z <= maxTimeValue)%Z -> dateOfNumber (ofZ z) = Some z.
Proof.
  intros z Hz. unfold dateOfNumber. rewrite !leb_ofZ.
  destruct (Z.leb_spec (- maxTimeValue) z); [| lia].
  destruct (Z.leb_spec z maxTimeValue); [| lia].
  simpl. unfold trunc, ofZ, pow10. simpl. rewrite Z.quot_1_r. reflexivity.
Qed.



(** A number beyond the range of time values is not sent to the ingestion
    time: the date made of it is the Invalid Date. *)
Remark parseTimestamp_out_of_range :
  forall h now, LogParser.parseTimestamp h now (JNum (ofZ (10 ^ 16))) = None.
Proof. intros h now. reflexivity. Qed.

(* ------------------------------------------------------------------ *)
(** * Filters *)

Section Filters.

Variable h : Host.

Import LogSearchIndex.

Lemma matchesFilter_absent :
  forall entry filter,
    Js.absent (getFieldValue entry (QueryFilter.field filter)) = true ->
    matchesFilter h entry filter =
    match QueryFilter.operator filter with
    | FilterOperator.exists_ => false
    | _ => true
    end.
Proof. intros entry filter Ha. unfold matchesFilter. rewrite Ha. reflexivity. Qed.

Lemma matchesFilter_present :
  forall entry filter,
    Js.absent (getFieldValue entry (QueryFilter.field filter)) = false ->
    matchesFilter h entry filter =
    xorb (QueryFilter.negate filter)
         (operatorMatches h (QueryFilter.operator filter)
                          (getFieldValue entry (QueryFilter.field filter))
                          (QueryFilter.value filter)).
Proof.
  intros entry filter Ha. unfold matchesFilter. rewrite Ha.
  destruct (QueryFilter.negate filter); simpl.
  - reflexivity.
  - reflexivity.
Qed.

End Filters.




(** A negated [exists] filter on the same record: the early return answers
    [false] before the negate flag is read. *)
Remark matchesFilter_not_exists_on_absent :
  forall h, LogSearchIndex.matchesFilter h textRecord
              (QueryFilter.mk "service" FilterOperator.exists_ JUndefined true) = false.
Proof. intro h. reflexivity. Qed.

(** ** Strict equality *)

Lemma strictEquals_identical :
  forall v w, Js.absent v = false -> (Js.strictEquals v w = true <-> identical v w).
Proof.
  intros v w Hv. split.
  - intro H. destruct v, w; simpl in *; try discriminate.
    + apply Bool.eqb_prop in H. subst. constructor.
    + constructor. unfold JsNumber.eqb in H.
      destruct (JsNumber.compare n n0); [reflexivity | discriminate | discriminate].
    + apply String.eqb_eq in H. subst. constructor.
  - intro H. destruct H; simpl.
    + apply String.eqb_refl.
    + unfold JsNumber.eqb. rewrite H. reflexivity.
    + apply Bool.eqb_reflx.
Qed.

Lemma lower_upper : forall c, lower (upper c) = lower c.
Proof. intro c. destruct c as [[] [] [] [] [] [] [] []]; vm_compute; reflexivity. Qed.

Lemma toLowerCase_toUpperCase : forall s, toLowerCase (toUpperCase s) = toLowerCase s.
Proof.
  induction s as [| c s IH]; simpl.
  - reflexivity.
  - unfold toLowerCase, toUpperCase in *. simpl. rewrite lower_upper, IH. reflexivity.
Qed.

Lemma caseVariant_lower : forall s t, caseVariant s t -> toLowerCase s = toLowerCase t.
Proof.
  intros s t H. rewrite <- (toLowerCase_toUpperCase s), <- (toLowerCase_toUpperCase t).
  unfold caseVariant in H. rewrite H. reflexivity.
Qed.

Lemma prefix_refl : forall s, prefix s s = true.
Proof.
  induction s as [| c s IH]; simpl.
  - reflexivity.
  - destruct (ascii_dec c c) as [_ | N]; [exact IH | elim N; reflexivity].
Qed.

Lemma includes_refl : forall s, includes s s = true.
Proof.
  intro s. assert (H := prefix_refl s).
  destruct s; simpl in *; [reflexivity |]. rewrite H. reflexivity.
Qed.

Lemma endsWith_refl : forall s, endsWith s s = true.
Proof. intro s. unfold endsWith. apply prefix_refl. Qed.

(** C10.  The [equals] operator is strict: on a record whose field resolves
    to a present value, a filter that is not negated matches exactly when
    the resolved value and the filter value are identical, of the same type
    and, for strings, the same characters in the same case.  A filter value
    that differs from the stored string in letter case only is rejected by
    [equals] and accepted by [contains], [startsWith] and [endsWith]. *)
Theorem equals_filter_is_strict :
  forall (h : Host) (entry : LogEntry.t) (field : string) (filterValue : JsValue),
    Js.absent (LogSearchIndex.getFieldValue entry field) = false ->
    (LogSearchIndex.matchesFilter h entry
       (QueryFilter.mk field FilterOperator.equals filterValue false) = true
     <-> identical (LogSearchIndex.getFieldValue entry field) filterValue)
    /\ (forall s t,
          LogSearchIndex.getFieldValue entry field = JStr s ->
          filterValue = JStr t ->
          caseVariant s t -> s <> t ->
          LogSearchIndex.matchesFilter h entry
            (QueryFilter.mk field FilterOperator.equals filterValue false) = false
          /\ LogSearchIndex.matchesFilter h entry
               (QueryFilter.mk field FilterOperator.contains filterValue false) = true
          /\ LogSearchIndex.matchesFilter h entry
               (QueryFilter.mk field FilterOperator.startsWith filterValue false) = true
          /\ LogSearchIndex.matchesFilter h entry
               (QueryFilter.mk field FilterOperator.endsWith filterValue false) = true).
Proof.
  intros h entry field filterValue Hp. split.
  - unfold LogSearchIndex.matchesFilter. simpl. rewrite Hp.
    apply strictEquals_identical. exact Hp.
  - intros s t Hs Ht Hcase Hneq.
    unfold LogSearchIndex.matchesFilter. simpl. rewrite Hp. rewrite Hs, Ht. simpl.
    rewrite (caseVariant_lower s t Hcase).
    split; [| split; [| split]].
    + apply String.eqb_neq. exact Hneq.
    + apply includes_refl.
    + unfold startsWith. apply prefix_refl.
    + apply endsWith_refl.
Qed.

(** The stored level INFO against the filter value [info]. *)
Lemma equals_filter_witness :
  LogSearchIndex.matchesFilter bareHost textRecord
    (QueryFilter.mk "level" FilterOperator.equals (JStr "info") false) = false
  /\ LogSearchIndex.matchesFilter bareHost textRecord
       (QueryFilter.mk "level" FilterOperator.contains (JStr "info") false) = true.
Proof.
  assert (Hp : Js.absent (LogSearchIndex.getFieldValue textRecord "level") = false)
    by reflexivity.
  destruct (proj2 (equals_filter_is_strict bareHost textRecord "level" (JStr "info") Hp)
                  "INFO" "info" eq_refl eq_refl eq_refl) as [He [Hc _]].
  - discriminate.
  - split; [exact He | exact Hc].
Defined.

(* ------------------------------------------------------------------ *)
(** * Sorting and the time range *)

Section StableSort.

Variable A : Type.
Variable after : A -> A -> bool.

Lemma insert_perm : forall x l, Permutation (JsArray.insert after x l) (x :: l).
Proof.
  intros x l. induction l as [| y r IH]; simpl.
  - apply Permutation_refl.
  - destruct (after x y).
    + apply perm_trans with (y :: x :: r).
      * apply perm_skip. exact IH.
      * apply perm_swap.
    + apply Permutation_refl.
Qed.

Lemma sort_perm : forall l, Permutation (JsArray.sort after l) l.
Proof.
  induction l as [| x r IH]; simpl.
  - apply perm_nil.
  - apply perm_trans with (x :: JsArray.sort after r).
    + apply insert_perm.
    + apply perm_skip. exact IH.
Qed.

(** The elements [p] selects keep their order when [x] only passes
    elements [p] rejects. *)
Lemma insert_filter :
  forall (p : A -> bool) x l,
    (forall y, p x = true -> after x y = true -> p y = false) ->
    List.filter p (JsArray.insert after x l) = List.filter p (x :: l).
Proof.
  intros p x l Hskip. induction l as [| y r IH]; simpl.
  - reflexivity.
  - destruct (after x y) eqn:Haft; simpl.
    + rewrite IH. simpl. destruct (p x) eqn:Hpx.
      * rewrite (Hskip y eq_refl Haft). reflexivity.
      * reflexivity.
    + reflexivity.
Qed.

Lemma sort_filter :
  forall (p : A -> bool),
    (forall x y, p x = true -> after x y = true -> p y = false) ->
    forall l, List.filter p (JsArray.sort after l) = List.filter p l.
Proof.
  intros p Hskip. induction l as [| x r IH]; simpl.
  - reflexivity.
  - rewrite insert_filter by (intro y; apply Hskip).
    simpl. rewrite IH. reflexivity.
Qed.

Lemma filter_perm :
  forall (p : A -> bool) l l',
    Permutation l l' -> Permutation (List.filter p l) (List.filter p l').
Proof.
  intros p l l' H. induction H; simpl.
  - apply perm_nil.
  - destruct (p x); [apply perm_skip |]; assumption.
  - destruct (p x), (p y); try apply Permutation_refl. apply perm_swap.
  - eapply perm_trans; eassumption.
Qed.

End StableSort.

Section NewestFirst.

Import LogSearchIndex.

Lemma ge_ofZ : forall a b, JsNumber.ge (Fin (ofZ a)) (Fin (ofZ b)) = (b <=? a)%Z.
Proof. intros. unfold JsNumber.ge. simpl. apply leb_ofZ. Qed.

Lemma le_ofZ : forall a b, JsNumber.le (Fin (ofZ a)) (Fin (ofZ b)) = (a <=? b)%Z.
Proof. intros. simpl. apply leb_ofZ. Qed.

Lemma gt_ofZ : forall a b, JsNumber.gt (Fin (ofZ a)) (Fin (ofZ b)) = (b <? a)%Z.
Proof. intros. unfold JsNumber.gt. simpl. apply ltb_ofZ. Qed.

Lemma inTimeRange_spec :
  forall r e, inTimeRange r e = true <-> withinRange r e.
Proof.
  intros r e. unfold inTimeRange, withinRange. split.
  - intro H. apply andb_prop in H. destruct H as [H1 H2].
    unfold JsNumber.ge in H1.
    destruct (LogEntry.timestamp e) as [t |],
             (TimeRange.from r) as [lo |],
             (TimeRange.to r) as [hi |];
      simpl in H1, H2; try discriminate H1; try discriminate H2.
    rewrite leb_ofZ in H1, H2.
    apply Z.leb_le in H1. apply Z.leb_le in H2.
    exists t, lo, hi. repeat split; assumption.
  - intros [t [lo [hi [Ht [Hlo [Hhi [H1 H2]]]]]]].
    rewrite Ht, Hlo, Hhi. unfold getTime. rewrite ge_ofZ, le_ofZ.
    apply andb_true_intro. split; apply Z.leb_le; assumption.
Qed.

Lemma inTimeRange_bounds :
  forall e t lo hi,
    LogEntry.timestamp e = Some t ->
    inTimeRange (TimeRange.mk (Some lo) (Some hi)) e = ((lo <=? t)%Z && (t <=? hi)%Z).
Proof.
  intros e t lo hi Ht. unfold inTimeRange. rewrite Ht. unfold getTime.
  cbn [TimeRange.from TimeRange.to]. rewrite ge_ofZ, le_ofZ. reflexivity.
Qed.

Lemma inTimeRange_dated : forall r e, inTimeRange r e = true -> dated e.
Proof.
  intros r e H. apply inTimeRange_spec in H.
  destruct H as [t [_ [_ [Ht _]]]]. exists t. exact Ht.
Qed.

Lemma newerFirst_dated :
  forall a b ta tb,
    LogEntry.timestamp a = Some ta -> LogEntry.timestamp b = Some tb ->
    newerFirst a b = (ta <? tb)%Z.
Proof.
  intros a b ta tb Ha Hb. unfold newerFirst. rewrite Ha, Hb.
  unfold getTime. apply gt_ofZ.
Qed.

Lemma notOlder_trans : forall a b c, notOlder a b -> notOlder b c -> notOlder a c.
Proof.
  intros a b c [ta [tb [Ha [Hb Hab]]]] [tb' [tc [Hb' [Hc Hbc]]]].
  rewrite Hb in Hb'. injection Hb' as <-.
  exists ta, tc. repeat split; try assumption. lia.
Qed.

Lemma insert_sorted :
  forall x l,
    dated x -> Forall dated l -> StronglySorted notOlder l ->
    StronglySorted notOlder (JsArray.insert newerFirst x l).
Proof.
  intros x l [tx Hx] Hd Hs. induction Hs as [| y r Hr IH Hy]; simpl.
  - constructor; constructor.
  - inversion Hd as [| ? ? [ty Hty] Hdr]; subst.
    rewrite (newerFirst_dated x y tx ty Hx Hty).
    destruct (Z.ltb_spec tx ty) as [Hlt | Hge].
    + constructor.
      * apply IH. exact Hdr.
      * apply (Permutation_Forall (Permutation_sym (insert_perm _ newerFirst x r))).
        constructor; [| exact Hy].
        exists ty, tx. repeat split; try assumption. lia.
    + assert (Hxy : notOlder x y) by (exists tx, ty; repeat split; try assumption; lia).
      constructor.
      * constructor; assumption.
      * constructor; [exact Hxy |].
        eapply Forall_impl; [| exact Hy].
        intros z Hz. eapply notOlder_trans; eassumption.
Qed.

Lemma sort_sorted :
  forall l, Forall dated l -> StronglySorted notOlder (JsArray.sort newerFirst l).
Proof.
  induction l as [| x r IH]; intro Hd; simpl.
  - constructor.
  - inversion Hd; subst. apply insert_sorted.
    + assumption.
    + apply (Permutation_Forall (Permutation_sym (sort_perm _ newerFirst r))). assumption.
    + apply IH. assumption.
Qed.

Lemma newerFirst_passes_other_times :
  forall t x y, hasTime t x = true -> newerFirst x y = true -> hasTime t y = false.
Proof.
  intros t x y Hx Hxy. unfold hasTime in *. unfold newerFirst in Hxy.
  destruct (LogEntry.timestamp x) as [tx |]; [| discriminate Hx].
  destruct (LogEntry.timestamp y) as [ty |]; [| reflexivity].
  unfold getTime in Hxy. rewrite gt_ofZ in Hxy.
  apply Z.eqb_eq in Hx. apply Z.ltb_lt in Hxy. apply Z.eqb_neq. lia.
Qed.

(** With no filter and no text, [search] sorts the records of the range. *)
Lemma search_plain :
  forall h textSearch idx query,
    SearchQuery.filters query = [] ->
    trim (SearchQuery.text query) = "" ->
    search h textSearch idx query =
    let sorted := JsArray.sort newerFirst
                    (List.filter (inTimeRange (SearchQuery.timeRange query))
                                 (getAllEntries idx)) in
    SearchResult.mk sorted (List.length sorted).
Proof.
  intros h textSearch idx query Hf Ht. unfold search. rewrite Hf, Ht. reflexivity.
Qed.

End NewestFirst.

(** C7.  With no filter and empty text, [search] returns exactly the records
    whose timestamp lies in the inclusive range from [from] to [to], newest
    first, records of equal timestamp in the order the index holds them; of
    three records at T1 < T2 < T3 and the range from T1 to T2 it returns the
    record at T2 and then the record at T1. *)
Theorem search_time_range_newest_first :
  forall (h : Host) (textSearch : list LogEntry.t -> string -> bool -> list string)
         (idx : LogSearchIndex.t) (query : SearchQuery.t),
    SearchQuery.filters query = [] ->
    trim (SearchQuery.text query) = "" ->
    let result := SearchResult.entries (LogSearchIndex.search h textSearch idx query) in
    let records := LogSearchIndex.getAllEntries idx in
    (forall e, In e result <-> In e records /\ withinRange (SearchQuery.timeRange query) e)
    /\ Permutation result
         (List.filter (LogSearchIndex.inTimeRange (SearchQuery.timeRange query)) records)
    /\ StronglySorted notOlder result
    /\ (forall t, List.filter (hasTime t) result =
                  List.filter (hasTime t)
                    (List.filter (LogSearchIndex.inTimeRange (SearchQuery.timeRange query))
                                 records))
    /\ SearchResult.total (LogSearchIndex.search h textSearch idx query) = List.length result
    /\ (forall e1 e2 e3 T1 T2 T3,
          Permutation records [e1; e2; e3] ->
          LogEntry.timestamp e1 = Some T1 ->
          LogEntry.timestamp e2 = Some T2 ->
          LogEntry.timestamp e3 = Some T3 ->
          (T1 < T2 < T3)%Z ->
          SearchQuery.timeRange query = TimeRange.mk (Some T1) (Some T2) ->
          result = [e2; e1]).
Proof.
  intros h textSearch idx query Hf Ht result records.
  assert (Hres : result =
                 JsArray.sort LogSearchIndex.newerFirst
                   (List.filter (LogSearchIndex.inTimeRange (SearchQuery.timeRange query))
                                records)).
  { unfold result. rewrite (search_plain h textSearch idx query Hf Ht). reflexivity. }
  assert (Hperm : Permutation result
                    (List.filter (LogSearchIndex.inTimeRange (SearchQuery.timeRange query))
                                 records)).
  { rewrite Hres. apply sort_perm. }
  assert (Hsorted : StronglySorted notOlder result).
  { rewrite Hres. apply sort_sorted. apply Forall_forall. intros e He.
    apply filter_In in He. destruct He as [_ He].
    eapply inTimeRange_dated. exact He. }
  split; [| split; [exact Hperm | split; [exact Hsorted | split; [| split]]]].
  - intro e. split.
    + intro He. apply (Permutation_in _ Hperm) in He. apply filter_In in He.
      destruct He as [Hin Hr]. split; [exact Hin | apply inTimeRange_spec; exact Hr].
    + intros [Hin Hr]. apply (Permutation_in _ (Permutation_sym Hperm)).
      apply filter_In. split; [exact Hin | apply inTimeRange_spec; exact Hr].
  - intro t. rewrite Hres. apply sort_filter.
    intros x y. apply newerFirst_passes_other_times.
  - unfold result. rewrite (search_plain h textSearch idx query Hf Ht). reflexivity.
  - intros e1 e2 e3 T1 T2 T3 Hrec H1 H2 H3 Hord Hrange.
    assert (Hin : Permutation result [e1; e2]).
    { eapply perm_trans; [exact Hperm |].
      eapply perm_trans; [apply filter_perm; exact Hrec |].
      rewrite Hrange. cbn [List.filter].
      rewrite (inTimeRange_bounds e1 T1 T1 T2 H1), (inTimeRange_bounds e2 T2 T1 T2 H2),
        (inTimeRange_bounds e3 T3 T1 T2 H3).
      destruct (Z.leb_spec T1 T1); [| lia].
      destruct (Z.leb_spec T1 T2); [| lia].
      destruct (Z.leb_spec T2 T2); [| lia].
      destruct (Z.leb_spec T1 T3); [| lia].
      destruct (Z.leb_spec T3 T2); [lia |].
      simpl. apply Permutation_refl. }
    apply Permutation_sym in Hin. apply Permutation_length_2_inv in Hin.
    destruct Hin as [Hin | Hin].
    + rewrite Hin in Hsorted. inversion Hsorted as [| ? ? _ Hall]; subst.
      inversion Hall as [| ? ? [ta [tb [Ha [Hb Hab]]]] _]; subst.
      rewrite H1 in Ha. rewrite H2 in Hb. injection Ha as <-. injection Hb as <-. lia.
    + exact Hin.
Qed.

(** The three sample records and the range of the first two seconds. *)
Lemma search_time_range_witness :
  SearchResult.entries
    (LogSearchIndex.search bareHost (fun _ _ _ => []) threeRecords firstTwoSeconds)
  = [recordAt "b" 2000; recordAt "a" 1000].
Proof.
  apply (proj2 (proj2 (proj2 (proj2 (proj2
           (search_time_range_newest_first bareHost (fun _ _ _ => []) threeRecords
              firstTwoSeconds eq_refl eq_refl)))))
           (recordAt "a" 1000) (recordAt "b" 2000) (recordAt "c" 3000)
           1000%Z 2000%Z 3000%Z).
  - apply Permutation_refl.
  - reflexivity.
  - reflexivity.
  - reflexivity.
  - lia.
  - reflexivity.
Defined.

(* ------------------------------------------------------------------ *)
(** * Field statistics *)

Section MapFacts.

Variables K V : Type.
Variable same : K -> K -> bool.

Lemma has_keys :
  forall k (m : JsMap.t K V),
    JsMap.has same k m = existsb (fun k' => same k' k) (JsMap.keys m).
Proof.
  intros k m. unfold JsMap.has. induction m as [| [k' v'] r IH]; simpl.
  - reflexivity.
  - destruct (same k' k); simpl; [reflexivity | exact IH].
Qed.

Lemma keys_set :
  forall k v (m : JsMap.t K V),
    JsMap.keys (JsMap.set same k v m) =
    if JsMap.has same k m then JsMap.keys m else (JsMap.keys m ++ [k])%list.
Proof.
  intros k v m. unfold JsMap.has. induction m as [| [k' v'] r IH]; simpl.
  - reflexivity.
  - destruct (same k' k) eqn:Hs; simpl.
    + reflexivity.
    + rewrite IH. destruct (JsMap.get same k r); reflexivity.
Qed.

End MapFacts.

Section StringMapFacts.

Variable V : Type.

Lemma get_set_same :
  forall k v (m : JsMap.t string V),
    JsMap.get String.eqb k (JsMap.set String.eqb k v m) = Some v.
Proof.
  intros k v m. induction m as [| [k' v'] r IH]; simpl.
  - rewrite String.eqb_refl. reflexivity.
  - destruct (k' =? k) eqn:Hk; simpl; rewrite Hk; [reflexivity | exact IH].
Qed.

Lemma get_set_other :
  forall k k' v (m : JsMap.t string V),
    k <> k' -> JsMap.get String.eqb k (JsMap.set String.eqb k' v m) = JsMap.get String.eqb k m.
Proof.
  intros k k' v m Hne. induction m as [| [k0 v0] r IH]; simpl.
  - destruct (String.eqb_spec k' k) as [E | _]; [elim Hne; symmetry; exact E | reflexivity].
  - destruct (String.eqb_spec k0 k') as [E | N]; simpl.
    + subst k0. destruct (String.eqb_spec k' k) as [E | _];
        [elim Hne; symmetry; exact E | reflexivity].
    + destruct (k0 =? k); [reflexivity | exact IH].
Qed.

Lemma get_none_keys :
  forall k (m : JsMap.t string V),
    JsMap.get String.eqb k m = None <-> ~ In k (JsMap.keys m).
Proof.
  intros k m. induction m as [| [k' v'] r IH]; simpl.
  - split; [intros _ [] | reflexivity].
  - destruct (String.eqb_spec k' k) as [E | N].
    + split; [discriminate | intro H; elim H; left; exact E].
    + rewrite IH. split.
      * intros H [E | Hin]; [elim N; exact E | elim H; exact Hin].
      * intros H Hin. apply H. right. exact Hin.
Qed.

Lemma NoDup_keys_set :
  forall k v (m : JsMap.t string V),
    NoDup (JsMap.keys m) -> NoDup (JsMap.keys (JsMap.set String.eqb k v m)).
Proof.
  intros k v m Hnd. rewrite keys_set. destruct (JsMap.has String.eqb k m) eqn:Hh.
  - exact Hnd.
  - apply NoDup_app.
    + exact Hnd.
    + constructor; [intros [] | constructor].
    + intros x Hx [E | []]. subst x. unfold JsMap.has in Hh.
      destruct (JsMap.get String.eqb k m) eqn:Hg; [discriminate Hh |].
      apply get_none_keys in Hg. elim Hg. exact Hx.
Qed.

End StringMapFacts.

(** ** Sameness of values *)

Lemma pow10_pos : forall n, (0 < pow10 n)%Z.
Proof. intro n. unfold pow10. apply Z.pow_pos_nonneg; lia. Qed.

Lemma number_eqb_eq :
  forall a b : number,
    JsNumber.eqb a b = true <-> (mant a * pow10 (frac b) = mant b * pow10 (frac a))%Z.
Proof.
  intros a b. unfold JsNumber.eqb, JsNumber.compare. rewrite <- Z.compare_eq_iff.
  destruct (mant a * pow10 (frac b) ?= mant b * pow10 (frac a))%Z;
    split; intro H; try reflexivity; discriminate H.
Qed.

Lemma number_eqb_sym : forall a b : number, JsNumber.eqb a b = JsNumber.eqb b a.
Proof.
  intros a b. unfold JsNumber.eqb, JsNumber.compare.
  rewrite (Z.compare_antisym (mant a * pow10 (frac b)) (mant b * pow10 (frac a))).
  destruct (mant a * pow10 (frac b) ?= mant b * pow10 (frac a))%Z; reflexivity.
Qed.

Lemma number_eqb_trans :
  forall a b c : number,
    JsNumber.eqb a b = true -> JsNumber.eqb b c = true -> JsNumber.eqb a c = true.
Proof.
  intros a b c Hab Hbc. apply number_eqb_eq in Hab. apply number_eqb_eq in Hbc.
  apply number_eqb_eq.
  apply (Z.mul_reg_r _ _ (pow10 (frac b))).
  - pose proof (pow10_pos (frac b)). lia.
  - transitivity (mant b * pow10 (frac a) * pow10 (frac c))%Z.
    + rewrite <- Hab. ring.
    + transitivity (mant b * pow10 (frac c) * pow10 (frac a))%Z; [ring |].
      rewrite Hbc. ring.
Qed.

Lemma sameValueZero_sym : forall a b, Js.sameValueZero a b = Js.sameValueZero b a.
Proof.
  intros a b. unfold Js.sameValueZero. destruct a, b; simpl; try reflexivity.
  - destruct b, b0; reflexivity.
  - apply number_eqb_sym.
  - apply String.eqb_sym.
Qed.

Lemma sameValueZero_trans :
  forall a b c,
    Js.sameValueZero a b = true -> Js.sameValueZero b c = true ->
    Js.sameValueZero a c = true.
Proof.
  intros a b c. unfold Js.sameValueZero.
  destruct a, b; simpl; try discriminate; destruct c; simpl; try discriminate; intros Hab Hbc.
  - reflexivity.
  - reflexivity.
  - apply Bool.eqb_prop in Hab. apply Bool.eqb_prop in Hbc. subst. apply Bool.eqb_reflx.
  - eapply number_eqb_trans; eassumption.
  - apply String.eqb_eq in Hab. apply String.eqb_eq in Hbc. subst. apply String.eqb_refl.
Qed.

(** ** Counting the values of one field *)

Lemma countValue_keys :
  forall m v,
    JsMap.keys (countValue m v) =
    if existsb (fun k => Js.sameValueZero k v) (JsMap.keys m)
    then JsMap.keys m else (JsMap.keys m ++ [v])%list.
Proof. intros m v. unfold countValue. rewrite keys_set, has_keys. reflexivity. Qed.

Lemma countValue_sameKeys :
  forall m v earlier,
    sameKeys (JsMap.keys m) earlier ->
    sameKeys (JsMap.keys (countValue m v)) (v :: earlier).
Proof.
  intros m v earlier H u. rewrite countValue_keys. simpl.
  destruct (existsb (fun k => Js.sameValueZero k v) (JsMap.keys m)) eqn:Hex.
  - rewrite (H u). destruct (Js.sameValueZero v u) eqn:Hvu; simpl; [| reflexivity].
    rewrite <- (H u). apply existsb_exists in Hex. destruct Hex as [k [Hk Hkv]].
    apply existsb_exists. exists k. split; [exact Hk |].
    eapply sameValueZero_trans; eassumption.
  - rewrite existsb_app. simpl. rewrite (H u).
    rewrite orb_false_r. apply orb_comm.
Qed.

Lemma countValues_distinct :
  forall vs m earlier,
    sameKeys (JsMap.keys m) earlier ->
    List.length (JsMap.keys (fold_left countValue vs m))
    = List.length (JsMap.keys m) + distinctAfter earlier vs.
Proof.
  induction vs as [| v r IH]; intros m earlier H; simpl.
  - lia.
  - rewrite (IH (countValue m v) (v :: earlier) (countValue_sameKeys m v earlier H)).
    rewrite countValue_keys. rewrite <- (H v).
    destruct (existsb (fun k => Js.sameValueZero k v) (JsMap.keys m)); simpl.
    + lia.
    + rewrite length_app. simpl. lia.
Qed.

(** ** The calls one batch makes *)

Lemma countEntry_events :
  forall fc e, LogSearchIndex.countEntry fc e = fold_left statStep (statEvents e) fc.
Proof.
  intros fc e. unfold LogSearchIndex.countEntry, statEvents.
  rewrite fold_left_app. simpl. unfold statStep at 2 3 4 5 6. simpl.
  destruct (LogEntry.fields e); reflexivity.
Qed.

Lemma countEntries_events :
  forall es fc,
    fold_left LogSearchIndex.countEntry es fc
    = fold_left statStep (flat_map statEvents es) fc.
Proof.
  induction es as [| e r IH]; intro fc; cbn [fold_left flat_map].
  - reflexivity.
  - rewrite fold_left_app, <- countEntry_events. apply IH.
Qed.

Lemma valuesFor_app :
  forall f a b, valuesFor f (a ++ b) = (valuesFor f a ++ valuesFor f b)%list.
Proof.
  intros f a b. unfold valuesFor. rewrite filter_app, map_app, filter_app. reflexivity.
Qed.

Lemma eqb_literal : forall (lit f : string), (lit =? f) = (f =? lit).
Proof. intros. apply String.eqb_sym. Qed.

Lemma statEvents_values :
  forall f e,
    List.map snd (List.filter (fun kv => fst kv =? f) (statEvents e))
    = (standardValue f e ++ structuredValues f e)%list.
Proof.
  intros f e. unfold statEvents. rewrite filter_app, map_app.
  f_equal.
  - unfold standardValue. cbn [List.filter fst].
    rewrite (eqb_literal "level" f), (eqb_literal "file" f), (eqb_literal "source" f),
      (eqb_literal "service" f), (eqb_literal "host" f).
    destruct (String.eqb_spec f "level") as [-> | _]; [reflexivity |].
    destruct (String.eqb_spec f "file") as [-> | _]; [reflexivity |].
    destruct (String.eqb_spec f "source") as [-> | _]; [reflexivity |].
    destruct (String.eqb_spec f "service") as [-> | _]; [reflexivity |].
    destruct (String.eqb_spec f "host") as [-> | _]; reflexivity.
  - unfold structuredValues. destruct (LogEntry.fields e); reflexivity.
Qed.

Lemma observed_events :
  forall f es, observed f es = valuesFor f (flat_map statEvents es).
Proof.
  intros f es. unfold observed. induction es as [| e r IH]; cbn [flat_map].
  - reflexivity.
  - rewrite valuesFor_app, filter_app, IH. f_equal.
    unfold valuesFor. rewrite statEvents_values. reflexivity.
Qed.

(** ** One call of [updateFieldStat] *)

Lemma updateFieldStat_absent :
  forall fc f v, Js.absent v = true -> LogSearchIndex.updateFieldStat fc f v = fc.
Proof. intros fc f v H. unfold LogSearchIndex.updateFieldStat. rewrite H. reflexivity. Qed.

Lemma updateFieldStat_same :
  forall fc f v,
    Js.absent v = false ->
    JsMap.get String.eqb f (LogSearchIndex.updateFieldStat fc f v)
    = Some (countValue (tableOf f fc) v).
Proof.
  intros fc f v H. unfold LogSearchIndex.updateFieldStat. rewrite H.
  rewrite get_set_same. f_equal. unfold countValue, tableOf, JsMap.has.
  destruct (JsMap.get String.eqb f fc) eqn:Hg.
  - rewrite Hg. reflexivity.
  - rewrite get_set_same. reflexivity.
Qed.

Lemma updateFieldStat_other :
  forall fc f f' v,
    f <> f' ->
    JsMap.get String.eqb f (LogSearchIndex.updateFieldStat fc f' v)
    = JsMap.get String.eqb f fc.
Proof.
  intros fc f f' v Hne. unfold LogSearchIndex.updateFieldStat.
  destruct (Js.absent v); [reflexivity |].
  rewrite get_set_other by exact Hne.
  destruct (JsMap.has String.eqb f' fc); [reflexivity |].
  apply get_set_other. exact Hne.
Qed.

Lemma updateFieldStat_NoDup :
  forall fc f v,
    NoDup (JsMap.keys fc) -> NoDup (JsMap.keys (LogSearchIndex.updateFieldStat fc f v)).
Proof.
  intros fc f v Hnd. unfold LogSearchIndex.updateFieldStat.
  destruct (Js.absent v); [exact Hnd |].
  apply NoDup_keys_set.
  destruct (JsMap.has String.eqb f fc); [exact Hnd |].
  apply NoDup_keys_set. exact Hnd.
Qed.

Lemma statSteps_NoDup :
  forall evs fc, NoDup (JsMap.keys fc) -> NoDup (JsMap.keys (fold_left statStep evs fc)).
Proof.
  induction evs as [| kv r IH]; intros fc Hnd; simpl.
  - exact Hnd.
  - apply IH. apply updateFieldStat_NoDup. exact Hnd.
Qed.

Lemma tableOf_same :
  forall fc f v,
    Js.absent v = false ->
    tableOf f (LogSearchIndex.updateFieldStat fc f v) = countValue (tableOf f fc) v.
Proof.
  intros fc f v H. unfold tableOf at 1. rewrite (updateFieldStat_same fc f v H). reflexivity.
Qed.

(** The table of a field after a run of calls: the values the calls carry
    for the field, counted one after the other. *)
Lemma statSteps_get :
  forall evs fc f,
    JsMap.get String.eqb f (fold_left statStep evs fc) =
    match valuesFor f evs with
    | [] => JsMap.get String.eqb f fc
    | _ :: _ => Some (fold_left countValue (valuesFor f evs) (tableOf f fc))
    end.
Proof.
  induction evs as [| [f' v] r IH]; intros fc f.
  - reflexivity.
  - cbn [fold_left]. rewrite IH. unfold statStep. cbn [fst snd].
    unfold valuesFor. cbn [List.filter List.map fst snd].
    destruct (String.eqb_spec f' f) as [-> | Hne].
    + cbn [List.map List.filter snd]. destruct (Js.absent v) eqn:Hv; cbn [negb].
      * rewrite (updateFieldStat_absent fc f v Hv). reflexivity.
      * fold (valuesFor f r). rewrite (tableOf_same fc f v Hv).
        rewrite (updateFieldStat_same fc f v Hv).
        destruct (valuesFor f r); reflexivity.
    + fold (valuesFor f r).
      assert (Hg : JsMap.get String.eqb f (LogSearchIndex.updateFieldStat fc f' v)
                   = JsMap.get String.eqb f fc).
      { apply updateFieldStat_other. intro E. apply Hne. symmetry. exact E. }
      unfold tableOf. rewrite Hg. reflexivity.
Qed.

(** The table of a field after a batch. *)
Lemma countEntries_get :
  forall es f,
    JsMap.get String.eqb f (LogSearchIndex.countEntries es) =
    match observed f es with
    | [] => None
    | _ :: _ => Some (fold_left countValue (observed f es) [])
    end.
Proof.
  intros es f. unfold LogSearchIndex.countEntries.
  rewrite countEntries_events, statSteps_get, <- observed_events. reflexivity.
Qed.

Lemma countEntries_NoDup :
  forall es, NoDup (JsMap.keys (LogSearchIndex.countEntries es)).
Proof.
  intro es. unfold LogSearchIndex.countEntries. rewrite countEntries_events.
  apply statSteps_NoDup. constructor.
Qed.

(** ** From the tables of a batch to the suggestions *)

Section Suggestions.

Variable h : Host.

Lemma suggestions_get :
  forall (fc : LogSearchIndex.FieldCounts) stats f,
    NoDup (JsMap.keys fc) ->
    JsMap.get String.eqb f (fold_left (setSuggestion h) fc stats) =
    match JsMap.get String.eqb f fc with
    | Some m => Some (LogSearchIndex.suggestion h f m)
    | None => JsMap.get String.eqb f stats
    end.
Proof.
  induction fc as [| [k m] r IH]; intros stats f Hnd.
  - reflexivity.
  - cbn [fold_left]. cbn [JsMap.keys List.map fst] in Hnd.
    inversion Hnd as [| ? ? Hk Hr]; subst.
    rewrite (IH _ f Hr). cbn [JsMap.get]. unfold setSuggestion. cbn [fst snd].
    destruct (String.eqb_spec k f) as [-> | Hne].
    + assert (Hg : JsMap.get String.eqb f r = None) by (apply get_none_keys; exact Hk).
      rewrite Hg. apply get_set_same.
    + destruct (JsMap.get String.eqb f r); [reflexivity |].
      apply get_set_other. intro E. apply Hne. symmetry. exact E.
Qed.

Lemma In_set :
  forall k s k0 s0 (m : JsMap.t string FieldSuggestion.t),
    In (k0, s0) (JsMap.set String.eqb k s m) -> In (k0, s0) m \/ (k0 = k /\ s0 = s).
Proof.
  intros k s k0 s0 m. induction m as [| [k' s'] r IH]; simpl.
  - intros [E | []]. injection E as <- <-. right. split; reflexivity.
  - destruct (String.eqb_spec k' k) as [-> | Hne]; simpl.
    + intros [E | Hin].
      * injection E as <- <-. right. split; reflexivity.
      * left. right. exact Hin.
    + intros [E | Hin].
      * left. left. exact E.
      * destruct (IH Hin) as [H | H]; [left; right; exact H | right; exact H].
Qed.

Lemma suggestions_keyed :
  forall (fc : LogSearchIndex.FieldCounts) stats,
    keyedByField stats -> keyedByField (fold_left (setSuggestion h) fc stats).
Proof.
  induction fc as [| [k m] r IH]; intros stats Hk.
  - exact Hk.
  - cbn [fold_left]. apply IH. intros k0 s0 Hin.
    unfold setSuggestion in Hin. cbn [fst snd] in Hin.
    apply In_set in Hin. destruct Hin as [Hin | [-> ->]].
    + apply Hk. exact Hin.
    + reflexivity.
Qed.

Lemma updateFieldStats_get :
  forall stats es f,
    JsMap.get String.eqb f (LogSearchIndex.updateFieldStats h stats es) =
    match observed f es with
    | [] => JsMap.get String.eqb f stats
    | _ :: _ => Some (LogSearchIndex.suggestion h f (fold_left countValue (observed f es) []))
    end.
Proof.
  intros stats es f. unfold LogSearchIndex.updateFieldStats.
  change (fun (stats0 : JsMap.t string FieldSuggestion.t)
              (fv : string * JsMap.t JsValue nat) =>
            JsMap.set String.eqb (fst fv) (LogSearchIndex.suggestion h (fst fv) (snd fv)) stats0)
    with (setSuggestion h).
  rewrite (suggestions_get _ stats f (countEntries_NoDup es)).
  rewrite countEntries_get. destruct (observed f es); reflexivity.
Qed.

Lemma updateFieldStats_keyed :
  forall stats es,
    keyedByField stats -> keyedByField (LogSearchIndex.updateFieldStats h stats es).
Proof.
  intros stats es Hk. unfold LogSearchIndex.updateFieldStats.
  apply (suggestions_keyed (LogSearchIndex.countEntries es) stats Hk).
Qed.

End Suggestions.

Lemma find_values_get :
  forall (m : JsMap.t string FieldSuggestion.t) f,
    keyedByField m ->
    List.find (fun s => FieldSuggestion.field s =? f) (JsMap.values m)
    = JsMap.get String.eqb f m.
Proof.
  induction m as [| [k s] r IH]; intros f Hk.
  - reflexivity.
  - cbn [JsMap.values List.map snd List.find JsMap.get].
    rewrite (Hk k s (or_introl eq_refl)).
    destruct (k =? f); [reflexivity |].
    apply IH. intros k0 s0 Hin. apply Hk. right. exact Hin.
Qed.

Lemma reportedCardinality_get :
  forall idx f,
    keyedByField (LogSearchIndex.fieldStats idx) ->
    reportedCardinality idx f =
    match JsMap.get String.eqb f (LogSearchIndex.fieldStats idx) with
    | Some s => Some (FieldSuggestion.cardinality s)
    | None => None
    end.
Proof.
  intros idx f Hk. unfold reportedCardinality, LogSearchIndex.getFieldSuggestions.
  rewrite (find_values_get _ f Hk). reflexivity.
Qed.

Lemma addEntries_fieldStats :
  forall h idx batch idx',
    LogSearchIndex.addEntries h idx batch = (idx', None) ->
    LogSearchIndex.fieldStats idx'
    = LogSearchIndex.updateFieldStats h (LogSearchIndex.fieldStats idx) batch.
Proof.
  intros h idx batch idx' H. unfold LogSearchIndex.addEntries in H.
  destruct (LogSearchIndex.addAll (LogSearchIndex.miniSearch idx) batch) as [docs [e |]].
  - discriminate H.
  - injection H as <-. reflexivity.
Qed.




(* ------------------------------------------------------------------ *)
(** * Structured lines *)

Lemma firstTruthy_first :
  forall json before field after,
    (forall g, In g before -> Js.truthy (Js.get json g) = false) ->
    Js.truthy (Js.get json field) = true ->
    LogParser.firstTruthy json (before ++ field :: after) = Some (Js.get json field).
Proof.
  intros json before field after Hb Hf. induction before as [| g r IH]; simpl.
  - rewrite Hf. reflexivity.
  - rewrite (Hb g (or_introl eq_refl)). apply IH.
    intros g' Hg'. apply Hb. right. exact Hg'.
Qed.

Lemma firstTruthy_none :
  forall json names,
    (forall g, In g names -> Js.truthy (Js.get json g) = false) ->
    LogParser.firstTruthy json names = None.
Proof.
  intros json names H. induction names as [| g r IH]; simpl.
  - reflexivity.
  - rewrite (H g (or_introl eq_refl)). apply IH.
    intros g' Hg'. apply H. right. exact Hg'.
Qed.

Lemma stringify_present :
  forall h json, Js.absent json = false -> exists text, JSON.stringify h json = Some text.
Proof.
  intros h json H. destruct json; simpl in *; try discriminate; try (eexists; reflexivity).
  destruct d; eexists; reflexivity.
Qed.

Lemma readable_present :
  forall json, Js.absent json = false -> LogParser.readable json = Return tt.
Proof. intros json H. unfold LogParser.readable. rewrite H. reflexivity. Qed.

Lemma nonEmpty_true : forall s, s <> "" -> nonEmpty s = true.
Proof. intros s H. destruct s; [elim H; reflexivity | reflexivity]. Qed.

Lemma entryOfJson_level :
  forall h now newId json line fileName n e,
    LogParser.entryOfJson h now newId json line fileName n = Return e ->
    LogParser.extractLevel h json = Return (LogEntry.level e).
Proof.
  intros h now newId json line fileName n e H. unfold LogParser.entryOfJson in H.
  destruct (LogParser.extractTimestamp h now json) as [ts | err]; [| discriminate H].
  simpl in H.
  destruct (LogParser.extractLevel h json) as [lv | err]; [| discriminate H].
  simpl in H.
  destruct (LogParser.extractMessage h json) as [msg | err]; [| discriminate H].
  simpl in H. injection H as <-. reflexivity.
Qed.

(** The level [extractLevel] gives a payload. *)
Lemma extractLevel_cases :
  forall (h : Host) (json : JsValue),
    Js.absent json = false ->
    (forall before field after,
        LogParser.levelFields = (before ++ field :: after)%list ->
        (forall g, In g before -> Js.truthy (Js.get json g) = false) ->
        Js.truthy (Js.get json field) = true ->
        LogParser.extractLevel h json = LogParser.normalizeLogLevelOf (Js.get json field))
    /\ ((forall g, In g LogParser.levelFields -> Js.truthy (Js.get json g) = false) ->
        exists text,
          JSON.stringify h json = Some text
          /\ LogParser.extractLevel h json = Return (LogParser.detectLevelInText text)).
Proof.
  intros h json Hp. split.
  - intros before field after Hfields Hbefore Htruthy.
    unfold LogParser.extractLevel. rewrite (readable_present json Hp). cbn [bind].
    rewrite Hfields.
    rewrite (firstTruthy_first json before field after Hbefore Htruthy). reflexivity.
  - intro Hnone. destruct (stringify_present h json Hp) as [text Htext].
    exists text. split; [exact Htext |].
    unfold LogParser.extractLevel. rewrite (readable_present json Hp). cbn [bind].
    rewrite (firstTruthy_none json LogParser.levelFields Hnone), Htext. reflexivity.
Qed.

Lemma detectLevelInText_info :
  forall text,
    LogParser.firstMatch true LogParser.LEVEL_PATTERNS text = None ->
    (forall w, In w levelKeywords -> includes (toLowerCase text) w = false) ->
    LogParser.detectLevelInText text = "INFO".
Proof.
  intros text Hpat K. unfold LogParser.detectLevelInText. rewrite Hpat.
  unfold levelKeywords in K.
  rewrite (K "fatal"), (K "critical"), (K "error"), (K "exception"), (K "fail"),
    (K "warn"), (K "warning"), (K "debug"), (K "trace");
    simpl; auto 12.
Qed.

Lemma entryOfJson_present :
  forall h now newId json line fileName n e,
    LogParser.entryOfJson h now newId json line fileName n = Return e ->
    Js.absent json = false.
Proof.
  intros h now newId json line fileName n e H.
  unfold LogParser.entryOfJson, LogParser.extractTimestamp, LogParser.readable in H.
  destruct (Js.absent json); [discriminate H | reflexivity].
Qed.

(** A record made of a line taken for JSON is made of its payload. *)
Lemma parseLine_json_entry :
  forall h now p newId line fileName n e,
    LogParser.jsonDetection p && LogParser.looksLikeJson line = true ->
    LogParser.parseLine h now p newId line fileName n = Return (Some e) ->
    exists json,
      JSON.parse line = Some json
      /\ LogParser.entryOfJson h now newId json line fileName n = Return e.
Proof.
  intros h now p newId line fileName n e Hjson H. unfold LogParser.parseLine in H.
  destruct (negb (nonEmpty (trim line))); [discriminate H |].
  rewrite Hjson in H. unfold LogParser.parseJsonLine in H.
  destruct (JSON.parse line) as [json |]; [| discriminate H].
  exists json. split; [reflexivity |].
  destruct (LogParser.entryOfJson h now newId json line fileName n) as [e' | err];
    [| discriminate H].
  injection H as ->. reflexivity.
Qed.




(** ** The structured fields *)

Lemma lookup_delete :
  forall k k' ps,
    Js.lookup k (Js.delete k' ps) = if k' =? k then None else Js.lookup k ps.
Proof.
  intros k k' ps. induction ps as [| [k0 v0] r IH]; simpl.
  - destruct (k' =? k); reflexivity.
  - destruct (String.eqb_spec k0 k') as [-> | Hne].
    + rewrite IH. destruct (k' =? k); reflexivity.
    + simpl. rewrite IH. destruct (String.eqb_spec k' k) as [-> | Hne'].
      * destruct (String.eqb_spec k0 k) as [E | _]; [elim Hne; exact E | reflexivity].
      * reflexivity.
Qed.

Lemma In_delete :
  forall kv k' ps, In kv (Js.delete k' ps) -> In kv ps.
Proof.
  intros kv k' ps. induction ps as [| [k0 v0] r IH]; simpl.
  - intros [].
  - destruct (k0 =? k'); simpl.
    + intro H. right. apply IH. exact H.
    + intros [E | H]; [left; exact E | right; apply IH; exact H].
Qed.

Lemma lookup_additionalFields :
  forall k json,
    Js.lookup k (LogParser.additionalFields json) =
    if existsb (fun d => d =? k) LogParser.deletedKeys then None
    else Js.lookup k (Js.spread json).
Proof.
  intros k json. unfold LogParser.additionalFields, LogParser.deletedKeys.
  cbn [fold_left existsb]. rewrite !lookup_delete.
  destruct ("msg" =? k), ("message" =? k), ("severity" =? k), ("level" =? k),
    ("@timestamp" =? k), ("time" =? k), ("ts" =? k), ("timestamp" =? k); reflexivity.
Qed.

Lemma existsb_eqb_In :
  forall k names, existsb (fun d => d =? k) names = true <-> In k names.
Proof.
  intros k names. rewrite existsb_exists. split.
  - intros [d [Hd E]]. apply String.eqb_eq in E. subst. exact Hd.
  - intro H. exists k. split; [exact H | apply String.eqb_refl].
Qed.

Lemma entryOfJson_fields :
  forall h now newId json line fileName n e,
    LogParser.entryOfJson h now newId json line fileName n = Return e ->
    LogEntry.fields e = Some (LogParser.additionalFields json).
Proof.
  intros h now newId json line fileName n e H. unfold LogParser.entryOfJson in H.
  destruct (LogParser.extractTimestamp h now json) as [ts | err]; [| discriminate H].
  simpl in H.
  destruct (LogParser.extractLevel h json) as [lv | err]; [| discriminate H].
  simpl in H.
  destruct (LogParser.extractMessage h json) as [msg | err]; [| discriminate H].
  simpl in H. injection H as <-. reflexivity.
Qed.

Lemma additionalFields_cases :
  forall json : JsValue,
    (forall k, In k LogParser.deletedKeys ->
               Js.lookup k (LogParser.additionalFields json) = None)
    /\ (forall k, ~ In k aliasNames ->
                  Js.lookup k (LogParser.additionalFields json)
                  = Js.lookup k (Js.spread json))
    /\ (forall k v, In (k, v) (LogParser.additionalFields json) ->
                    In (k, v) (Js.spread json)).
Proof.
  intro json. split; [| split].
  - intros k Hk. rewrite lookup_additionalFields.
    apply existsb_eqb_In in Hk. rewrite Hk. reflexivity.
  - intros k Hk. rewrite lookup_additionalFields.
    destruct (existsb (fun d => d =? k) LogParser.deletedKeys) eqn:Hd; [| reflexivity].
    apply existsb_eqb_In in Hd. elim Hk. unfold aliasNames.
    unfold LogParser.deletedKeys in Hd. simpl in Hd. simpl.
    intuition.
  - intros k v. unfold LogParser.additionalFields, LogParser.deletedKeys.
    cbn [fold_left]. intro H.
    repeat (apply In_delete in H). exact H.
Qed.




(** The names [datetime] and [priority] are read by the extractors and are
    not among the keys removed: both stay in the structured fields. *)
Remark additionalFields_keeps_datetime_priority :
  consumedKeys datetimePayload = ["datetime"; "priority"]
  /\ LogParser.additionalFields datetimePayload = Js.spread datetimePayload.
Proof. split; reflexivity. Qed.

(* ------------------------------------------------------------------ *)
(** * Decoding a line that looks like an object *)

Section Decoding.

Import JSON.

Lemma bottomIsObject_push :
  forall f st, st <> [] -> bottomIsObject (f :: st) = bottomIsObject st.
Proof. intros f st H. destruct st; [elim H; reflexivity | reflexivity]. Qed.

Lemma bottomIsObject_nonempty : forall st, bottomIsObject st = true -> st <> [].
Proof. intros st H E. subst. discriminate H. Qed.

Lemma complete_keeps :
  forall v st, bottomIsObject st = true -> bottomIsObject (stack (complete v st)) = true.
Proof.
  intros v st H. destruct st as [| f r]; [discriminate H |].
  destruct f; simpl; destruct r; simpl in *; try exact H; try discriminate H; reflexivity.
Qed.

Lemma complete_idle : forall v st, lx (complete v st) = Idle.
Proof. intros v st. destruct st as [| [] r]; reflexivity. Qed.

Lemma complete_reading :
  forall v st, bottomIsObject st = true -> readingObject (complete v st).
Proof. intros v st H. left. apply complete_keeps. exact H. Qed.

Lemma pop_object :
  forall acc k r,
    bottomIsObject (InObj acc k :: r) = true -> readingObject (complete (JObj acc) r).
Proof.
  intros acc k r H. destruct r as [| f r'].
  - right. simpl. repeat split. exists acc. reflexivity.
  - apply complete_reading. exact H.
Qed.

Lemma pop_array :
  forall acc v r,
    bottomIsObject (InArr acc :: r) = true -> readingObject (complete v r).
Proof.
  intros acc v r H. destruct r as [| f r'].
  - discriminate H.
  - apply complete_reading. exact H.
Qed.

Ltac branch H :=
  match type of H with
  | (if ?b then _ else _) = Some _ => destruct b eqn:?
  | match ?x with _ => _ end = Some _ => destruct x eqn:?
  | None = Some _ => discriminate H
  | Some _ = Some _ => injection H as <-
  end.

Lemma idle_keeps :
  forall p c p', readingObject p -> idle p c = Some p' -> readingObject p'.
Proof.
  intros [st m l] c p' Hinv H. unfold idle in H. cbn [stack md lx] in H.
  destruct Hinv as [Hobj | [Hst [Hl [ps Hm]]]]; cbn [stack md lx] in *.
  - pose proof (bottomIsObject_nonempty st Hobj) as Hne.
    repeat (branch H; try discriminate); subst;
      try (left; cbn [stack]; first [ exact Hobj
                                    | rewrite bottomIsObject_push; assumption ]);
      try (eapply pop_object; eassumption);
      try (eapply pop_array; eassumption).
  - subst. repeat (branch H; try discriminate).
    right. cbn. repeat split. exists ps. reflexivity.
Qed.

Lemma completeString_keeps :
  forall s p p', readingObject p -> lx p <> Idle ->
                 completeString s p = Some p' -> readingObject p'.
Proof.
  intros s [st m l] p' Hinv Hl H. unfold completeString in H. cbn [stack md lx] in *.
  destruct Hinv as [Hobj | [_ [Hl' _]]]; [| elim Hl; exact Hl'].
  cbn [stack] in Hobj.
  repeat (branch H; try discriminate); subst;
    try (apply complete_reading; exact Hobj);
    left; cbn [stack]; destruct l0; simpl in *; assumption.
Qed.

Lemma withLexer_keeps :
  forall p l, readingObject p -> lx p <> Idle -> readingObject (withLexer p l).
Proof.
  intros p l [Hobj | [_ [Hl _]]] Hne; [left; exact Hobj | elim Hne; exact Hl].
Qed.

Lemma step_keeps :
  forall p c p', readingObject p -> step p c = Some p' -> readingObject p'.
Proof.
  intros p c p' Hinv H. unfold step in H.
  destruct (lx p) eqn:Hl.
  - eapply idle_keeps; eassumption.
  - assert (Hne : lx p <> Idle) by (rewrite Hl; discriminate).
    repeat (branch H; try discriminate);
      first [ eapply completeString_keeps; eassumption
            | apply withLexer_keeps; assumption ].
  - assert (Hne : lx p <> Idle) by (rewrite Hl; discriminate).
    repeat (branch H; try discriminate); apply withLexer_keeps; assumption.
  - assert (Hne : lx p <> Idle) by (rewrite Hl; discriminate).
    repeat (branch H; try discriminate); apply withLexer_keeps; assumption.
  - assert (Hne : lx p <> Idle) by (rewrite Hl; discriminate).
    destruct Hinv as [Hobj | [_ [Hl' _]]]; [| elim Hne; exact Hl'].
    destruct (isNumberChar c).
    + injection H as <-. left. exact Hobj.
    + unfold finishNumber in H.
      destruct (numberOfLiteral (rev acc)); [| discriminate H].
      eapply idle_keeps; [| exact H]. apply complete_reading. exact Hobj.
  - assert (Hne : lx p <> Idle) by (rewrite Hl; discriminate).
    destruct Hinv as [Hobj | [_ [Hl' _]]]; [| elim Hne; exact Hl'].
    destruct (isLower c).
    + injection H as <-. left. exact Hobj.
    + unfold finishWord in H.
      destruct (ofChars (rev acc) =? "true");
        [eapply idle_keeps; [| exact H]; apply complete_reading; exact Hobj |].
      destruct (ofChars (rev acc) =? "false");
        [eapply idle_keeps; [| exact H]; apply complete_reading; exact Hobj |].
      destruct (ofChars (rev acc) =? "null");
        [eapply idle_keeps; [| exact H]; apply complete_reading; exact Hobj |].
      discriminate H.
Qed.

Lemma steps_keeps :
  forall l p p', readingObject p -> steps p l = Some p' -> readingObject p'.
Proof.
  induction l as [| c r IH]; intros p p' Hinv H; simpl in H.
  - injection H as <-. exact Hinv.
  - destruct (step p c) as [q |] eqn:Hs; [| discriminate H].
    apply (IH q p' (step_keeps p c q Hinv Hs) H).
Qed.

Lemma complete_not_finished :
  forall x st v,
    bottomIsObject st = true ->
    match complete x st with
    | mkP [] (Finished w) Idle => Some w
    | _ => None
    end <> Some v.
Proof.
  intros x st v Hobj. pose proof (complete_keeps x st Hobj) as Hk.
  destruct (complete x st) as [st' m' l']. cbn [stack] in Hk.
  destruct st'; [discriminate Hk | discriminate].
Qed.

Lemma finish_object :
  forall p v, readingObject p -> finish p = Some v -> exists ps, v = JObj ps.
Proof.
  intros [st m l] v Hinv H. unfold finish in H. cbn [stack md lx] in *.
  destruct Hinv as [Hobj | [Hst [Hl [ps Hm]]]]; cbn [stack md lx] in *.
  - pose proof (bottomIsObject_nonempty st Hobj) as Hne.
    destruct l; try discriminate H.
    + destruct st; [elim Hne; reflexivity | discriminate H].
    + unfold finishNumber in H. cbn [stack] in H.
      destruct (numberOfLiteral (rev acc)); [| discriminate H].
      elim (complete_not_finished _ _ _ Hobj H).
    + unfold finishWord in H. cbn [stack] in H.
      destruct (ofChars (rev acc) =? "true");
        [elim (complete_not_finished _ _ _ Hobj H) |].
      destruct (ofChars (rev acc) =? "false");
        [elim (complete_not_finished _ _ _ Hobj H) |].
      destruct (ofChars (rev acc) =? "null");
        [elim (complete_not_finished _ _ _ Hobj H) |].
      discriminate H.
  - subst. injection H as <-. exists ps. reflexivity.
Qed.

(** White space before the text leaves the reader where it starts, or stops
    it. *)
Lemma idle_initial_space :
  forall c,
    isSpace c = true ->
    idle (mkP [] Value Idle) c = Some (mkP [] Value Idle)
    \/ idle (mkP [] Value Idle) c = None.
Proof.
  intros c H. destruct c as [[] [] [] [] [] [] [] []];
    try discriminate H; vm_compute; auto.
Qed.

Lemma steps_spaces :
  forall ws l p,
    forallb isSpace ws = true ->
    steps (mkP [] Value Idle) (ws ++ l) = Some p ->
    steps (mkP [] Value Idle) l = Some p.
Proof.
  induction ws as [| c ws IH]; intros l p Hws H.
  - exact H.
  - simpl in Hws. apply andb_prop in Hws. destruct Hws as [Hc Hws].
    cbn [app steps] in H. change (step (mkP [] Value Idle) c)
      with (idle (mkP [] Value Idle) c) in H.
    destruct (idle_initial_space c Hc) as [E | E]; rewrite E in H.
    + apply IH; assumption.
    + discriminate H.
Qed.

Lemma dropWhile_split :
  forall (p : ascii -> bool) l,
    exists ws, l = (ws ++ dropWhile p l)%list /\ forallb p ws = true.
Proof.
  intros p l. induction l as [| c r [ws [E Hws]]]; simpl.
  - exists []. split; reflexivity.
  - destruct (p c) eqn:Hc.
    + exists (c :: ws). split; [simpl; rewrite <- E; reflexivity | simpl; rewrite Hc; exact Hws].
    + exists []. split; reflexivity.
Qed.

Lemma trimChars_prefix :
  forall l, exists ws tail, l = (ws ++ trimChars l ++ tail)%list /\ forallb isSpace ws = true.
Proof.
  intro l. unfold trimChars.
  destruct (dropWhile_split isSpace l) as [ws [E Hws]].
  destruct (dropWhile_split isSpace (rev (dropWhile isSpace l))) as [ws' [E' _]].
  exists ws, (rev ws'). split; [| exact Hws].
  rewrite <- rev_app_distr, <- E', rev_involutive. exact E.
Qed.

Lemma looksLikeJson_opens :
  forall line,
    LogParser.looksLikeJson line = true ->
    exists ws rest, chars line = (ws ++ "{"%char :: rest)%list /\ forallb isSpace ws = true.
Proof.
  intros line H. unfold LogParser.looksLikeJson in H.
  apply andb_prop in H. destruct H as [H _].
  unfold startsWith, trim in H.
  destruct (trimChars_prefix (chars line)) as [ws [tail [E Hws]]].
  destruct (trimChars (chars line)) as [| c t]; [discriminate H |].
  unfold ofChars in H. cbn [string_of_list_ascii prefix] in H.
  destruct (ascii_dec "{" c) as [<- | _]; [| discriminate H].
  exists ws, (t ++ tail)%list. split; [exact E | exact Hws].
Qed.

(** A line that looks like JSON and decodes, decodes to an object. *)
Lemma parse_looksLikeJson_object :
  forall line json,
    LogParser.looksLikeJson line = true ->
    JSON.parse line = Some json ->
    exists ps, json = JObj ps.
Proof.
  intros line json Hlooks Hparse. unfold JSON.parse in Hparse.
  destruct (looksLikeJson_opens line Hlooks) as [ws [rest [E Hws]]].
  rewrite E in Hparse.
  destruct (steps (mkP [] Value Idle) (ws ++ "{"%char :: rest)) as [p |] eqn:Hsteps;
    [| discriminate Hparse].
  apply steps_spaces in Hsteps; [| exact Hws].
  cbn [steps] in Hsteps.
  change (step (mkP [] Value Idle) "{") with (Some (mkP [InObj [] ""] KeyOrEnd Idle))
    in Hsteps.
  apply (finish_object p json); [| exact Hparse].
  apply (steps_keeps rest (mkP [InObj [] ""] KeyOrEnd Idle) p); [| exact Hsteps].
  left. reflexivity.
Qed.

End Decoding.

(* ------------------------------------------------------------------ *)
(** * Lines *)

Lemma parseTextLine_returns :
  forall h now newId line fileName n,
    exists e,
      LogParser.parseTextLine h now newId line fileName n = Return (Some e)
      /\ LogEntry.raw e = line.
Proof.
  intros h now newId line fileName n. unfold LogParser.parseTextLine.
  destruct (LogParser.matchPatterns h now LogParser.linePatterns line) as [[[ts lv] msg] |].
  - eexists. split; reflexivity.
  - eexists. split; reflexivity.
Qed.

Lemma extractTimestamp_returns :
  forall h now json,
    Js.absent json = false -> exists ts, LogParser.extractTimestamp h now json = Return ts.
Proof.
  intros h now json Hp. unfold LogParser.extractTimestamp.
  rewrite (readable_present json Hp). cbn [bind].
  destruct (LogParser.firstTruthy json LogParser.timestampFields); eexists; reflexivity.
Qed.

Lemma extractMessage_returns :
  forall h json,
    Js.absent json = false -> exists msg, LogParser.extractMessage h json = Return msg.
Proof.
  intros h json Hp. unfold LogParser.extractMessage.
  rewrite (readable_present json Hp). cbn [bind].
  destruct (LogParser.firstString json LogParser.messageFields).
  - eexists; reflexivity.
  - destruct (stringify_present h json Hp) as [text ->]. eexists; reflexivity.
Qed.

Lemma extractLevel_returns :
  forall h json,
    Js.absent json = false ->
    match LogParser.firstTruthy json LogParser.levelFields with
    | Some (JStr _) | None => True
    | Some _ => False
    end ->
    exists lv, LogParser.extractLevel h json = Return lv.
Proof.
  intros h json Hp Hlv. unfold LogParser.extractLevel.
  rewrite (readable_present json Hp). cbn [bind].
  destruct (LogParser.firstTruthy json LogParser.levelFields) as [v |].
  - destruct v; try contradiction. eexists; reflexivity.
  - destruct (stringify_present h json Hp) as [text ->]. eexists; reflexivity.
Qed.

Lemma entryOfJson_returns :
  forall h now newId json line fileName n,
    Js.absent json = false ->
    match LogParser.firstTruthy json LogParser.levelFields with
    | Some (JStr _) | None => True
    | Some _ => False
    end ->
    exists e,
      LogParser.entryOfJson h now newId json line fileName n = Return e
      /\ LogEntry.raw e = line.
Proof.
  intros h now newId json line fileName n Hp Hlv. unfold LogParser.entryOfJson.
  destruct (extractTimestamp_returns h now json Hp) as [ts ->].
  destruct (extractLevel_returns h json Hp Hlv) as [lv ->].
  destruct (extractMessage_returns h json Hp) as [msg ->].
  cbn [bind]. eexists. split; reflexivity.
Qed.

Lemma nonEmpty_false : forall s, s = "" -> nonEmpty s = false.
Proof. intros s ->. reflexivity. Qed.




(** A payload whose level member is a number: [level.toUpperCase] is not a
    function, and the error leaves [parseLine] like a decoding error. *)
Remark parseLine_raises_on_numeric_level :
  forall h now newId fileName n,
    LogParser.parseLine h now LogParser.default newId
                        ("{" ++ JSON.quote "level" ++ ":3}") fileName n
    = Throw (JsonParsingFailed TypeError).
Proof. intros. vm_compute. reflexivity. Qed.

(* ------------------------------------------------------------------ *)
(** * Queries *)

Lemma chars_append : forall a b, chars (a ++ b) = (chars a ++ chars b)%list.
Proof.
  induction a as [| c a IH]; intro b; simpl.
  - reflexivity.
  - unfold chars in *. simpl. rewrite IH. reflexivity.
Qed.

Lemma ofChars_chars : forall s, ofChars (chars s) = s.
Proof. intro s. apply string_of_list_ascii_of_string. Qed.

Lemma chars_ofChars : forall l, chars (ofChars l) = l.
Proof. intro l. apply list_ascii_of_string_of_list_ascii. Qed.

Lemma ofChars_app : forall a b, ofChars (a ++ b) = ofChars a ++ ofChars b.
Proof.
  induction a as [| c a IH]; intro b; simpl.
  - reflexivity.
  - unfold ofChars in *. simpl. rewrite IH. reflexivity.
Qed.

Lemma chars_inBrackets :
  forall content, chars (inBrackets content) = ("["%char :: chars content ++ ["]"%char])%list.
Proof.
  intro content. unfold inBrackets.
  change ("[" ++ content ++ "]") with (String "[" (content ++ "]")).
  change (chars (String "[" (content ++ "]"))) with ("["%char :: chars (content ++ "]")).
  rewrite chars_append. reflexivity.
Qed.

Lemma prefix_empty : forall s, prefix "" s = true.
Proof. intro s. destruct s; reflexivity. Qed.

Lemma startsWith_inBrackets : forall content, startsWith (inBrackets content) "[" = true.
Proof.
  intro content. unfold startsWith, inBrackets. simpl. apply prefix_empty.
Qed.

Lemma endsWith_inBrackets : forall content, endsWith (inBrackets content) "]" = true.
Proof.
  intro content. unfold endsWith. rewrite chars_inBrackets.
  change ("["%char :: chars content ++ ["]"%char])%list
    with (["["%char] ++ (chars content ++ ["]"%char]))%list.
  rewrite !rev_app_distr. simpl. apply prefix_empty.
Qed.

Lemma sliceInner_inBrackets : forall content, sliceInner (inBrackets content) = content.
Proof.
  intro content. unfold sliceInner. rewrite chars_inBrackets.
  rewrite removelast_last. apply ofChars_chars.
Qed.

Section Query.

Variable h : Host.

Import KQLParser.

Lemma createFilter_malformed :
  forall field content,
    malformedRange content ->
    createFilter h field ":" (inBrackets content)
    = Some (QueryFilter.mk field FilterOperator.equals
                           (parseValue h (inBrackets content)) false).
Proof.
  intros field content Hbad. unfold createFilter.
  rewrite startsWith_inBrackets, endsWith_inBrackets, sliceInner_inBrackets.
  cbn [andb]. unfold malformedRange in Hbad.
  destruct (Regex.split true rangeSeparator content) as [| a [| b [| c r]]];
    try reflexivity.
  elim Hbad. reflexivity.
Qed.

(** Every turn of the loop of [parse] takes at least one token. *)
Lemma parseExpression_shorter :
  forall tokens,
    List.length (snd (parseExpression h tokens)) <= List.length tokens - 1.
Proof.
  induction tokens as [| token rest IH]; simpl.
  - lia.
  - destruct (Token.type token); simpl; try lia.
    + destruct rest as [| operatorToken rest2]; simpl; [lia |].
      destruct (Token.type operatorToken); simpl; try lia.
      destruct rest2 as [| valueToken rest3]; simpl; [lia |].
      destruct (createFilter h (Token.value token) (Token.value operatorToken)
                             (Token.value valueToken)); simpl; [lia |].
      destruct rest3; simpl; lia.
    + destruct (parseExpression h rest) as [result remaining]. simpl in *. lia.
Qed.

Lemma parseLoop_total :
  forall fuel tokens filters textParts,
    List.length tokens <= fuel ->
    exists out, parseLoop h fuel tokens filters textParts = Some out.
Proof.
  induction fuel as [| fuel IH]; intros tokens filters textParts Hlen.
  - destruct tokens; [eexists; reflexivity | simpl in Hlen; lia].
  - destruct tokens as [| token rest]; [eexists; reflexivity |].
    cbn [parseLoop].
    pose proof (parseExpression_shorter (token :: rest)) as Hs.
    destruct (parseExpression h (token :: rest)) as [[f | s] remaining];
      simpl in Hs, Hlen; apply IH; lia.
Qed.

Lemma parseTokens_total :
  forall tokens, exists out, parseTokens h tokens = Some out.
Proof.
  intro tokens. unfold parseTokens.
  destruct (parseLoop_total (List.length tokens) tokens [] [] (le_n _)) as [[fs ts] ->].
  eexists. reflexivity.
Qed.

End Query.

(** ** The tokenizer *)

Section Tokens.

Import KQLParser.

Lemma suffixOf_refl : forall l, suffixOf l l.
Proof. intro l. exists []. reflexivity. Qed.

Lemma suffixOf_cons : forall s c l, suffixOf s l -> suffixOf s (c :: l).
Proof. intros s c l [pre ->]. exists (c :: pre). reflexivity. Qed.

Lemma suffixOf_length : forall s l, suffixOf s l -> List.length s <= List.length l.
Proof. intros s l [pre ->]. rewrite length_app. lia. Qed.

Lemma suffixOf_forallb :
  forall (p : ascii -> bool) s l, suffixOf s l -> forallb p l = true -> forallb p s = true.
Proof.
  intros p s l [pre ->] H. rewrite forallb_app in H.
  apply andb_prop in H. exact (proj2 H).
Qed.

Lemma quoted_suffix_bounded :
  forall n l, List.length l <= n -> suffixOf (snd (quoted l)) l.
Proof.
  induction n as [| n IH]; intros l Hn.
  - destruct l; [apply suffixOf_refl | simpl in Hn; lia].
  - destruct l as [| c r]; [apply suffixOf_refl |].
    simpl in Hn. cbn [quoted].
    destruct (Ascii.eqb c dquote).
    + apply suffixOf_cons, suffixOf_refl.
    + destruct (Ascii.eqb c "\").
      * destruct r as [| c2 r2].
        -- exists [c]. reflexivity.
        -- assert (H2 : suffixOf (snd (quoted r2)) r2) by (apply IH; simpl in Hn; lia).
           destruct (quoted r2) as [body after]. simpl in *.
           apply suffixOf_cons, suffixOf_cons. exact H2.
      * assert (H1 : suffixOf (snd (quoted r)) r) by (apply IH; lia).
        destruct (quoted r) as [body after]. simpl in *.
        apply suffixOf_cons. exact H1.
Qed.

Lemma quoted_suffix : forall l, suffixOf (snd (quoted l)) l.
Proof. intro l. apply (quoted_suffix_bounded (List.length l)). apply le_n. Qed.

Lemma bracketed_suffix : forall l, suffixOf (snd (bracketed l)) l.
Proof.
  induction l as [| c r IH]; simpl.
  - apply suffixOf_refl.
  - destruct (Ascii.eqb c "]"); simpl.
    + apply suffixOf_cons, suffixOf_refl.
    + destruct (bracketed r) as [body after]. simpl in *.
      apply suffixOf_cons. exact IH.
Qed.

Lemma word_suffix : forall l, suffixOf (snd (word l)) l.
Proof.
  induction l as [| c r IH]; simpl.
  - apply suffixOf_refl.
  - destruct (wordStop c); simpl.
    + apply suffixOf_refl.
    + destruct (word r) as [w after]. simpl in *.
      apply suffixOf_cons. exact IH.
Qed.

Lemma word_progress :
  forall c r, wordStop c = false -> suffixOf (snd (word (c :: r))) r.
Proof.
  intros c r H. cbn [word]. rewrite H.
  pose proof (word_suffix r) as Hs. destruct (word r) as [w after]. exact Hs.
Qed.

Lemma wordStop_other :
  forall c,
    isSpace c = false -> Ascii.eqb c dquote = false -> Ascii.eqb c ":" = false ->
    Ascii.eqb c "(" || Ascii.eqb c ")" = false ->
    Ascii.eqb c ">" || Ascii.eqb c "<" = false ->
    Ascii.eqb c "=" = false ->
    wordStop c = false.
Proof.
  intros c Hs Hq Hc Hp Ha He. unfold wordStop, Regex.oneOf. simpl.
  apply orb_false_elim in Hp. destruct Hp as [Hp1 Hp2].
  apply orb_false_elim in Ha. destruct Ha as [Ha1 Ha2].
  rewrite Hs, Hq, Hc, Hp1, Hp2, Ha1, Ha2, He. reflexivity.
Qed.

(** Away from white space and from the equals sign, one turn of the loop
    takes at least the character it starts at. *)
Lemma scan_suffix :
  forall at_ c r,
    isSpace c = false -> Ascii.eqb c "=" = false ->
    suffixOf (snd (scan at_ c r)) r.
Proof.
  intros at_ c r Hs He. unfold scan.
  destruct (Ascii.eqb c dquote) eqn:Hq.
  { pose proof (quoted_suffix r) as H. destruct (quoted r). exact H. }
  destruct (Ascii.eqb c ":") eqn:Hc.
  { apply suffixOf_refl. }
  destruct (Ascii.eqb c "(" || Ascii.eqb c ")") eqn:Hp.
  { apply suffixOf_refl. }
  destruct (Ascii.eqb c "[") eqn:Hb.
  { pose proof (bracketed_suffix r) as H. destruct (bracketed r). exact H. }
  destruct (Ascii.eqb c ">" || Ascii.eqb c "<") eqn:Ha.
  { destruct r as [| c2 r2]; [apply suffixOf_refl |].
    destruct (Ascii.eqb c2 "="); simpl.
    - apply suffixOf_cons, suffixOf_refl.
    - apply suffixOf_refl. }
  pose proof (word_progress c r (wordStop_other c Hs Hq Hc Hp Ha He)) as H.
  destruct (word (c :: r)) as [w after].
  destruct (Regex.test true logicalWord (ofChars w)); [exact H |].
  destruct (colonNext after); exact H.
Qed.

(** The loop of [tokenize] returns on every input without an equals sign. *)
Lemma tokenizeFrom_total :
  forall fuel n l,
    List.length l <= fuel ->
    forallb (fun x => negb (Ascii.eqb x "=")) l = true ->
    exists toks, tokenizeFrom fuel n l = Some toks.
Proof.
  induction fuel as [| fuel IH]; intros n l Hlen Hne.
  - destruct l; [eexists; reflexivity | simpl in Hlen; lia].
  - destruct l as [| c r]; [eexists; reflexivity |].
    cbn [tokenizeFrom]. simpl in Hlen. cbn [forallb] in Hne.
    apply andb_prop in Hne. destruct Hne as [Hc Hr].
    destruct (isSpace c) eqn:Hs.
    + apply IH; [lia | exact Hr].
    + apply negb_true_iff in Hc.
      pose proof (scan_suffix (n - List.length (c :: r)) c r Hs Hc) as Hsuf.
      destruct (scan (n - List.length (c :: r)) c r) as [tok after]. simpl in Hsuf.
      destruct (IH n after) as [toks ->].
      * apply suffixOf_length in Hsuf. lia.
      * exact (suffixOf_forallb _ after r Hsuf Hr).
      * eexists. reflexivity.
Qed.

Lemma string_length_chars : forall s, String.length s = List.length (chars s).
Proof. induction s as [| c s IH]; simpl; [reflexivity | rewrite IH; reflexivity]. Qed.

Lemma tokenize_total :
  forall query, noEqualsSign query -> exists toks, tokenize query = Some toks.
Proof.
  intros query H. unfold tokenize. apply tokenizeFrom_total.
  - rewrite string_length_chars. apply le_n.
  - exact H.
Qed.

(** On a bare equals sign no input is taken: whatever the number of turns
    allowed, the loop does not come to an end. *)
Lemma scan_equals :
  forall at_ r, scan at_ "=" r = (Token.mk Token.TEXT "" at_, "="%char :: r).
Proof. intros at_ r. reflexivity. Qed.

Lemma tokenizeFrom_stuck :
  forall fuel n r, tokenizeFrom fuel n ("="%char :: r) = None.
Proof.
  induction fuel as [| fuel IH]; intros n r.
  - reflexivity.
  - cbn [tokenizeFrom]. rewrite scan_equals.
    change (isSpace "=") with false. cbv iota beta. rewrite IH. reflexivity.
Qed.

End Tokens.

(** ** A field expression with a bracketed value *)

Section FieldExpression.

Import KQLParser.

Lemma word_stop :
  forall w x rest,
    forallb (fun c => negb (wordStop c)) w = true ->
    wordStop x = true ->
    word (w ++ x :: rest) = (w, x :: rest).
Proof.
  induction w as [| c w IH]; intros x rest Hw Hx; simpl.
  - rewrite Hx. reflexivity.
  - simpl in Hw. apply andb_prop in Hw. destruct Hw as [Hc Hw].
    apply negb_true_iff in Hc. rewrite Hc. rewrite (IH x rest Hw Hx). reflexivity.
Qed.

Lemma bracketed_closed :
  forall cc rest,
    forallb (fun c => negb (Ascii.eqb c "]")) cc = true ->
    bracketed (cc ++ "]"%char :: rest) = ((cc ++ ["]"%char])%list, rest).
Proof.
  induction cc as [| c cc IH]; intros rest H; simpl.
  - reflexivity.
  - simpl in H. apply andb_prop in H. destruct H as [Hc H].
    apply negb_true_iff in Hc. rewrite Hc. rewrite (IH rest H). reflexivity.
Qed.

Lemma wordStop_false_parts :
  forall c,
    wordStop c = false ->
    isSpace c = false /\ Ascii.eqb c dquote = false /\ Ascii.eqb c ":" = false
    /\ Ascii.eqb c "(" || Ascii.eqb c ")" = false
    /\ Ascii.eqb c ">" || Ascii.eqb c "<" = false.
Proof.
  intros c H. unfold wordStop, Regex.oneOf in H. simpl in H.
  apply orb_false_elim in H. destruct H as [H Hq].
  apply orb_false_elim in H. destruct H as [Hs H].
  apply orb_false_elim in H. destruct H as [Hc H].
  apply orb_false_elim in H. destruct H as [Hp1 H].
  apply orb_false_elim in H. destruct H as [Hp2 H].
  apply orb_false_elim in H. destruct H as [Ha1 H].
  apply orb_false_elim in H. destruct H as [Ha2 _].
  rewrite Hs, Hq, Hc, Hp1, Hp2, Ha1, Ha2. repeat split; reflexivity.
Qed.

Lemma scan_field :
  forall at_ c r rest,
    forallb (fun x => negb (wordStop x)) (c :: r) = true ->
    Ascii.eqb c "[" = false ->
    Regex.test true logicalWord (ofChars (c :: r)) = false ->
    scan at_ c (r ++ ":"%char :: rest)
    = (Token.mk Token.FIELD (ofChars (c :: r)) at_, ":"%char :: rest).
Proof.
  intros at_ c r rest Hw Hb Hlog.
  assert (Hc : wordStop c = false).
  { simpl in Hw. apply andb_prop in Hw. apply negb_true_iff. exact (proj1 Hw). }
  destruct (wordStop_false_parts c Hc) as [Hs [Hq [Hcol [Hp Ha]]]].
  unfold scan. rewrite Hq, Hcol, Hp, Hb, Ha.
  change (c :: r ++ ":"%char :: rest)%list with ((c :: r) ++ ":"%char :: rest)%list.
  rewrite (word_stop (c :: r) ":" rest Hw eq_refl).
  rewrite Hlog. reflexivity.
Qed.

Lemma tokenizeFrom_done : forall fuel n, tokenizeFrom fuel n [] = Some [].
Proof. intros [| fuel] n; reflexivity. Qed.

(** The three tokens of [field:[content]]. *)
Lemma tokenizeFrom_field_expression :
  forall fuel n c r cc,
    forallb (fun x => negb (wordStop x)) (c :: r) = true ->
    Ascii.eqb c "[" = false ->
    Regex.test true logicalWord (ofChars (c :: r)) = false ->
    forallb (fun x => negb (Ascii.eqb x "]")) cc = true ->
    exists p1 p2 p3,
      tokenizeFrom (S (S (S fuel))) n
                   (c :: r ++ ":"%char :: "["%char :: cc ++ ["]"%char])
      = Some [Token.mk Token.FIELD (ofChars (c :: r)) p1;
              Token.mk Token.OPERATOR ":" p2;
              Token.mk Token.VALUE (ofChars ("["%char :: cc ++ ["]"%char])) p3].
Proof.
  intros fuel n c r cc Hw Hb Hlog Hc.
  assert (Hs : isSpace c = false).
  { assert (Hcw : wordStop c = false).
    { simpl in Hw. apply andb_prop in Hw. apply negb_true_iff. exact (proj1 Hw). }
    exact (proj1 (wordStop_false_parts c Hcw)). }
  cbn [tokenizeFrom]. rewrite Hs.
  rewrite (scan_field _ c r _ Hw Hb Hlog).
  change (isSpace ":") with false. cbv iota.
  set (rest := ("["%char :: cc ++ ["]"%char])%list).
  change (scan (n - List.length (":"%char :: rest)) ":" rest)
    with (Token.mk Token.OPERATOR ":" (n - List.length (":"%char :: rest)), rest).
  cbv iota beta. unfold rest at 1 2. change (isSpace "[") with false. cbv iota.
  unfold scan.
  change (Ascii.eqb "[" dquote) with false.
  change (Ascii.eqb "[" ":") with false.
  change (Ascii.eqb "[" "(" || Ascii.eqb "[" ")") with false.
  change (Ascii.eqb "[" "[") with true. cbv iota.
  rewrite (bracketed_closed cc [] Hc).
  cbv iota beta. rewrite tokenizeFrom_done.
  eexists. eexists. eexists. reflexivity.
Qed.

Lemma tokenize_field_expression :
  forall field content,
    fieldWord field -> unbracketed content ->
    exists p1 p2 p3,
      tokenize (field ++ ":" ++ inBrackets content)
      = Some [Token.mk Token.FIELD field p1; Token.mk Token.OPERATOR ":" p2;
              Token.mk Token.VALUE (inBrackets content) p3].
Proof.
  intros field content Hf Hc. unfold tokenize.
  rewrite string_length_chars.
  rewrite chars_append. change (chars (":" ++ inBrackets content))
    with (":"%char :: chars (inBrackets content)).
  rewrite chars_inBrackets.
  unfold fieldWord in Hf.
  assert (Hfield : ofChars (chars field) = field) by apply ofChars_chars.
  assert (Hvalue : ofChars ("["%char :: chars content ++ ["]"%char]) = inBrackets content).
  { rewrite <- chars_inBrackets. apply ofChars_chars. }
  destruct (chars field) as [| c r]; [contradiction |].
  destruct Hf as [Hw [Hb Hlog]]. rewrite <- Hfield in Hlog.
  generalize (List.length ((c :: r) ++ ":"%char :: "["%char :: chars content ++ ["]"%char]))
    at 2.
  intro n.
  assert (Hlen : List.length ((c :: r) ++ ":"%char :: "["%char :: chars content ++ ["]"%char])
                 = S (S (S (List.length r + List.length (chars content ++ ["]"%char]))))).
  { rewrite length_app. simpl. lia. }
  rewrite Hlen.
  destruct (tokenizeFrom_field_expression
              (List.length r + List.length (chars content ++ ["]"%char])) n c r
              (chars content) Hw Hb Hlog Hc) as [p1 [p2 [p3 H]]].
  exists p1, p2, p3. rewrite <- Hfield, <- Hvalue. exact H.
Qed.

End FieldExpression.




(** A well-formed range, for contrast, and the same literal among other
    terms of a query. *)
Remark range_and_context :
  forall h,
    KQLParser.parse h "level:[A TO B]"
    = Some (KQLParser.mkParsed
              [QueryFilter.mk "level" FilterOperator.range
                 (JArr [KQLParser.parseValue h "A"; KQLParser.parseValue h "B"]) false] "")
    /\ KQLParser.parse h "boot NOT level:[A] disk"
       = Some (KQLParser.mkParsed
                 [QueryFilter.mk "level" FilterOperator.equals
                                 (KQLParser.parseValue h "[A]") true] "boot disk").
Proof. intro h. split; reflexivity. Qed.

(** A query with a bare equals sign: [tokenize] does not return. *)
Remark tokenize_diverges_on_equals :
  forall fuel, KQLParser.tokenizeFrom fuel 3 (chars "a=b") = None.
Proof.
  intro fuel. destruct fuel as [| fuel]; [reflexivity |].
  cbn [KQLParser.tokenizeFrom chars list_ascii_of_string].
  change (isSpace "a") with false. cbv iota.
  change (KQLParser.scan (3 - List.length ["a"%char; "="%char; "b"%char]) "a"
                         ["="%char; "b"%char])
    with (Token.mk Token.TEXT "a" 0, ["="%char; "b"%char]).
  cbv iota beta. rewrite tokenizeFrom_stuck. reflexivity.
Qed.


(* ------------------------------------------------------------------ *)
(** * The query parser: what it makes of a query *)

Section OperatorsOfTheParser.

Import KQLParser.

Variable h : Host.

(** A word is read as a field name only when a colon comes next. *)
Lemma scan_field_colon :
  forall at_ c r tok after,
    scan at_ c r = (tok, after) ->
    Token.type tok = Token.FIELD ->
    colonNext after = true.
Proof.
  intros at_ c r tok after H Hty. unfold scan in H.
  destruct (Ascii.eqb c dquote).
  { destruct (quoted r). injection H as <- <-. discriminate Hty. }
  destruct (Ascii.eqb c ":").
  { injection H as <- <-. discriminate Hty. }
  destruct (Ascii.eqb c "(" || Ascii.eqb c ")").
  { injection H as <- <-. discriminate Hty. }
  destruct (Ascii.eqb c "[").
  { destruct (bracketed r). injection H as <- <-. discriminate Hty. }
  destruct (Ascii.eqb c ">" || Ascii.eqb c "<").
  { destruct r as [| c2 r2]; [injection H as <- <-; discriminate Hty |].
    destruct (Ascii.eqb c2 "="); injection H as <- <-; discriminate Hty. }
  destruct (word (c :: r)) as [w aft].
  destruct (Regex.test true logicalWord (ofChars w)).
  { injection H as <- <-. cbn [Token.type] in Hty.
    destruct (toUpperCase (ofChars w) =? "AND"); [discriminate Hty |].
    destruct (toUpperCase (ofChars w) =? "OR"); discriminate Hty. }
  destruct (colonNext aft) eqn:Hcol.
  - injection H as <- <-. exact Hcol.
  - injection H as <- <-. discriminate Hty.
Qed.

(** Where a colon comes next, the next token is the colon operator. *)
Lemma tokenizeFrom_colon_first :
  forall fuel n l toks,
    colonNext l = true ->
    tokenizeFrom fuel n l = Some toks ->
    exists o r, toks = o :: r /\ isColonOperator o = true.
Proof.
  induction fuel as [| fuel IH]; intros n l toks Hcol H.
  - destruct l; [discriminate Hcol | discriminate H].
  - destruct l as [| c r]; [discriminate Hcol |].
    cbn [tokenizeFrom] in H. unfold colonNext in Hcol. cbn [dropWhile] in Hcol.
    destruct (isSpace c) eqn:Hs.
    + apply (IH n r toks Hcol H).
    + apply Ascii.eqb_eq in Hcol. subst c.
      change (scan (n - List.length (":"%char :: r)) ":" r)
        with (Token.mk Token.OPERATOR ":" (n - List.length (":"%char :: r)), r) in H.
      cbv iota beta in H.
      destruct (tokenizeFrom fuel n r) as [toks' |]; [| discriminate H].
      injection H as <-. eexists. eexists. split; reflexivity.
Qed.

Lemma tokenizeFrom_colonAfterFields :
  forall fuel n l toks,
    tokenizeFrom fuel n l = Some toks -> colonAfterFields toks = true.
Proof.
  induction fuel as [| fuel IH]; intros n l toks H.
  - destruct l; [injection H as <-; reflexivity | discriminate H].
  - destruct l as [| c r]; [injection H as <-; reflexivity |].
    cbn [tokenizeFrom] in H.
    destruct (isSpace c); [apply (IH n r toks H) |].
    destruct (scan (n - List.length (c :: r)) c r) as [tok after] eqn:Hscan.
    destruct (tokenizeFrom fuel n after) as [toks' |] eqn:Hrest; [| discriminate H].
    injection H as <-. cbn [colonAfterFields].
    rewrite (IH n after toks' Hrest), andb_true_r.
    destruct (Token.type tok) eqn:Hty; try reflexivity.
    pose proof (scan_field_colon _ _ _ _ _ Hscan Hty) as Hcol.
    destruct (tokenizeFrom_colon_first fuel n after toks' Hcol Hrest) as [o [r' [-> Ho]]].
    exact Ho.
Qed.

Lemma colonAfterFields_tail :
  forall t r, colonAfterFields (t :: r) = true -> colonAfterFields r = true.
Proof. intros t r H. cbn [colonAfterFields] in H. apply andb_prop in H. exact (proj2 H). Qed.

Lemma colonAfterFields_tl :
  forall toks, colonAfterFields toks = true -> colonAfterFields (tl toks) = true.
Proof. intros [| t r] H; [reflexivity | exact (colonAfterFields_tail t r H)]. Qed.

(** After a colon, [createFilter] always makes a filter, an equality or a
    range. *)
Lemma createFilter_colon :
  forall field value,
    exists f, createFilter h field ":" value = Some f
              /\ equalsOrRange (QueryFilter.operator f)
              /\ QueryFilter.negate f = false.
Proof.
  intros field value. unfold createFilter.
  destruct (startsWith value "[" && endsWith value "]").
  - destruct (Regex.split true rangeSeparator (sliceInner value)) as [| a [| b [| c l]]];
      eexists; (split; [reflexivity | split; [| reflexivity]]);
      first [left; reflexivity | right; reflexivity].
  - eexists. split; [reflexivity | split; [left; reflexivity | reflexivity]].
Qed.

Definition plainOrTwoOperators (e : expression) : Prop :=
  match e with
  | Filter f => equalsOrRange (QueryFilter.operator f)
  | Text _ => True
  end.

Lemma parseExpression_operators :
  forall toks e rest,
    colonAfterFields toks = true ->
    parseExpression h toks = (e, rest) ->
    colonAfterFields rest = true /\ plainOrTwoOperators e.
Proof.
  induction toks as [| t r IH]; intros e rest Hinv H.
  - injection H as <- <-. split; [reflexivity | exact I].
  - pose proof (colonAfterFields_tail t r Hinv) as Hr.
    cbn [parseExpression] in H. cbn [colonAfterFields] in Hinv.
    destruct (Token.type t) eqn:Hty.
    + (* FIELD *)
      destruct r as [| o r2]; [discriminate Hinv |].
      apply andb_prop in Hinv. destruct Hinv as [Ho _].
      unfold isColonOperator in Ho.
      destruct (Token.type o); try discriminate Ho.
      apply String.eqb_eq in Ho.
      pose proof (colonAfterFields_tail o r2 Hr) as Hr2.
      destruct r2 as [| v r3].
      * injection H as <- <-. split; [reflexivity | exact I].
      * rewrite Ho in H.
        destruct (createFilter_colon (Token.value t) (Token.value v)) as [f [Hf [Hop _]]].
        rewrite Hf in H. injection H as <- <-.
        split; [exact (colonAfterFields_tail v r3 Hr2) | exact Hop].
    + injection H as <- <-. split; [exact Hr | exact I].
    + injection H as <- <-. split; [exact Hr | exact I].
    + injection H as <- <-. split; [exact Hr | exact I].
    + injection H as <- <-. split; [exact Hr | exact I].
    + apply (IH e rest Hr H).
    + apply (IH e rest Hr H).
    + destruct (parseExpression h r) as [res remaining] eqn:Hrec.
      injection H as <- <-.
      destruct (IH res remaining Hr eq_refl) as [Hrem Hres].
      split; [exact Hrem |]. destruct res; [exact Hres | exact I].
Qed.

Lemma parseLoop_operators :
  forall fuel toks filters textParts filters' textParts',
    colonAfterFields toks = true ->
    Forall (fun f => equalsOrRange (QueryFilter.operator f)) filters ->
    parseLoop h fuel toks filters textParts = Some (filters', textParts') ->
    Forall (fun f => equalsOrRange (QueryFilter.operator f)) filters'.
Proof.
  induction fuel as [| fuel IH]; intros toks filters textParts filters' textParts' Hinv Hfs H.
  - destruct toks; [injection H as <- <-; exact Hfs | discriminate H].
  - destruct toks as [| t r]; [injection H as <- <-; exact Hfs |].
    cbn [parseLoop] in H.
    destruct (parseExpression h (t :: r)) as [e remaining] eqn:He.
    destruct (parseExpression_operators _ _ _ Hinv He) as [Hrem Hop].
    destruct e as [f | s].
    + apply (IH remaining (filters ++ [f])%list textParts filters' textParts' Hrem); [| exact H].
      apply Forall_app. split; [exact Hfs | constructor; [exact Hop | constructor]].
    + apply (IH remaining filters (textParts ++ [s])%list filters' textParts' Hrem Hfs H).
Qed.

End OperatorsOfTheParser.

(** Whatever the query, every filter the parser returns is an equality or a
    range: a comparison sign can only come after the colon that makes a word
    a field name, where it is read as the value, so the operators gt, gte, lt
    and lte are never produced. *)
Theorem parse_makes_equality_and_range_only :
  forall (h : Host) (query : string) (p : KQLParser.parsed) (f : QueryFilter.t),
    KQLParser.parse h query = Some p ->
    In f (KQLParser.filters p) ->
    QueryFilter.operator f = FilterOperator.equals
    \/ QueryFilter.operator f = FilterOperator.range.
Proof.
  intros h query p f Hparse Hin. unfold KQLParser.parse in Hparse.
  destruct (KQLParser.tokenize query) as [toks |] eqn:Htok; [| discriminate Hparse].
  unfold KQLParser.parseTokens in Hparse.
  destruct (KQLParser.parseLoop h (List.length toks) toks [] []) as [[fs ts] |] eqn:Hloop;
    [| discriminate Hparse].
  injection Hparse as <-. cbn [KQLParser.filters] in Hin.
  pose proof (parseLoop_operators h _ _ _ _ _ _
                (tokenizeFrom_colonAfterFields _ _ _ _ Htok) (Forall_nil _) Hloop) as Hall.
  rewrite Forall_forall in Hall. exact (Hall f Hin).
Qed.

(** The query [latency:>100] gives the equality filter on the text [>] and
    leaves [100] as free text. *)
Lemma parse_makes_equality_and_range_only_witness :
  KQLParser.parse bareHost "latency:>100"
  = Some (KQLParser.mkParsed
            [QueryFilter.mk "latency" FilterOperator.equals (JStr ">") false] "100")
  /\ (FilterOperator.equals = FilterOperator.equals
      \/ FilterOperator.equals = FilterOperator.range).
Proof.
  split; [reflexivity |].
  exact (parse_makes_equality_and_range_only bareHost "latency:>100" _
           (QueryFilter.mk "latency" FilterOperator.equals (JStr ">") false)
           eq_refl (or_introl eq_refl)).
Defined.

(* ------------------------------------------------------------------ *)
(** ** The separator of a range *)

Section RangeSeparator.

Import Regex KQLParser.

Lemma inClass_isSpace : forall x, inClass true isSpace x = isSpace x.
Proof. intro x. destruct x as [[] [] [] [] [] [] [] []]; reflexivity. Qed.

(** A greedy star that meets no obstacle takes the whole run of its class. *)
Lemma star_all :
  forall ci p (k : state -> option state) cs sp pv tail out,
    forallb (inClass ci p) sp = true ->
    match tail with [] => True | x :: _ => inClass ci p x = false end ->
    k (mkState (lastOf sp pv) tail cs) = Some out ->
    run ci (Star p) (mkState pv (sp ++ tail)%list cs) k = Some out.
Proof.
  intros ci p k cs sp. induction sp as [| c sp IH]; intros pv tail out Hsp Htail Hk.
  - cbn [run prev rest caps app]. destruct tail as [| x xs]; [exact Hk |].
    rewrite Htail. exact Hk.
  - cbn [forallb] in Hsp. apply andb_prop in Hsp. destruct Hsp as [Hc Hsp].
    pose proof (IH (Some c) tail out Hsp Htail Hk) as H.
    cbn [run prev rest caps] in H.
    cbn [run prev rest caps app]. rewrite Hc. rewrite H. reflexivity.
Qed.

Lemma plus_all :
  forall ci p (k : state -> option state) cs x sp pv tail out,
    inClass ci p x = true ->
    forallb (inClass ci p) sp = true ->
    match tail with [] => True | y :: _ => inClass ci p y = false end ->
    k (mkState (lastOf sp (Some x)) tail cs) = Some out ->
    run ci (plus p) (mkState pv (x :: sp ++ tail)%list cs) k = Some out.
Proof.
  intros ci p k cs x sp pv tail out Hx Hsp Htail Hk.
  unfold plus. cbn [run rest]. rewrite Hx. unfold step. cbn [caps].
  apply star_all; assumption.
Qed.

Lemma forallb_isSpace_inClass :
  forall sp, forallb isSpace sp = true -> forallb (inClass true isSpace) sp = true.
Proof.
  intros sp H. rewrite forallb_forall in *. intros x Hx.
  rewrite inClass_isSpace. exact (H x Hx).
Qed.

Lemma eqChar_not_space :
  forall c t, isSpace c = false -> eqChar true c t = true -> isSpace t = false.
Proof.
  intros c t Hc H. unfold eqChar in H. apply Ascii.eqb_eq in H.
  destruct (isSpace t) eqn:Ht; [| reflexivity].
  assert (Hup : upper t = t).
  { destruct t as [[] [] [] [] [] [] [] []]; try discriminate Ht; reflexivity. }
  rewrite Hup in H. subst t.
  destruct c as [[] [] [] [] [] [] [] []]; try discriminate Hc; discriminate Ht.
Qed.

(** At white space followed by TO and white space, the separator matches
    and takes the white space on both sides whole. *)
Lemma matchHere_separator :
  forall pv x sp1 t o y sp2 b,
    isSpace x = true -> forallb isSpace sp1 = true ->
    eqChar true "T" t = true -> eqChar true "O" o = true ->
    isSpace y = true -> forallb isSpace sp2 = true ->
    match b with [] => True | c :: _ => isSpace c = false end ->
    exists s',
      matchHere true rangeSeparator pv (x :: sp1 ++ t :: o :: y :: sp2 ++ b)%list = Some s'
      /\ rest s' = b.
Proof.
  intros pv x sp1 t o y sp2 b Hx Hsp1 Ht Ho Hy Hsp2 Hb.
  eexists. split.
  - unfold matchHere, rangeSeparator. cbn [seqs run].
    apply plus_all.
    + rewrite inClass_isSpace. exact Hx.
    + apply forallb_isSpace_inClass. exact Hsp1.
    + rewrite inClass_isSpace. apply (eqChar_not_space "T" t eq_refl Ht).
    + unfold str. cbn [chars list_ascii_of_string lit run rest].
      rewrite Ht. unfold step. cbn [rest caps]. rewrite Ho.
      apply plus_all.
      * rewrite inClass_isSpace. exact Hy.
      * apply forallb_isSpace_inClass. exact Hsp2.
      * destruct b; [exact I | rewrite inClass_isSpace; exact Hb].
      * reflexivity.
  - reflexivity.
Qed.

Lemma matchHere_separator_none :
  forall pv x xs, isSpace x = false -> matchHere true rangeSeparator pv (x :: xs) = None.
Proof.
  intros pv x xs Hx. unfold matchHere, rangeSeparator, plus. cbn [seqs run rest].
  rewrite inClass_isSpace, Hx. reflexivity.
Qed.

(** Characters that are no white space go to the current piece. *)
Lemma splitFrom_word :
  forall a pv cur tail,
    forallb (fun c => negb (isSpace c)) a = true ->
    splitFrom true rangeSeparator pv 0 cur (a ++ tail)
    = splitFrom true rangeSeparator (lastOf a pv) 0 (rev a ++ cur) tail.
Proof.
  induction a as [| x a IH]; intros pv cur tail Ha.
  - reflexivity.
  - cbn [forallb] in Ha. apply andb_prop in Ha. destruct Ha as [Hx Ha].
    apply negb_true_iff in Hx.
    cbn [app splitFrom]. rewrite (matchHere_separator_none pv x _ Hx).
    rewrite (IH (Some x) (x :: cur) tail Ha).
    cbn [rev]. rewrite <- app_assoc. reflexivity.
Qed.

(** The characters of a separator still to be passed are passed. *)
Lemma splitFrom_skip :
  forall u pv cur v,
    splitFrom true rangeSeparator pv (List.length u) cur (u ++ v)
    = match u with
      | [] => splitFrom true rangeSeparator pv 0 cur v
      | _ :: _ => splitFrom true rangeSeparator (lastOf u pv) 0 cur v
      end.
Proof.
  induction u as [| x u IH]; intros pv cur v.
  - reflexivity.
  - cbn [List.length app splitFrom]. rewrite IH.
    destruct u; reflexivity.
Qed.

Lemma spaceFree_head :
  forall b,
    forallb (fun c => negb (isSpace c)) b = true ->
    match b with [] => True | c :: _ => isSpace c = false end.
Proof.
  intros [| c b] H; [exact I |]. cbn [forallb] in H. apply andb_prop in H.
  apply negb_true_iff. exact (proj1 H).
Qed.

Lemma split_two_parts :
  forall a x sp1 t o y sp2 b,
    forallb (fun c => negb (isSpace c)) a = true ->
    isSpace x = true -> forallb isSpace sp1 = true ->
    eqChar true "T" t = true -> eqChar true "O" o = true ->
    isSpace y = true -> forallb isSpace sp2 = true ->
    forallb (fun c => negb (isSpace c)) b = true ->
    splitFrom true rangeSeparator None 0 []
              (a ++ (x :: sp1 ++ t :: o :: y :: sp2 ++ b))%list
    = [ofChars a; ofChars b].
Proof.
  intros a x sp1 t o y sp2 b Ha Hx Hsp1 Ht Ho Hy Hsp2 Hb.
  rewrite (splitFrom_word a None [] _ Ha). rewrite app_nil_r.
  cbn [splitFrom].
  destruct (matchHere_separator (lastOf a None) x sp1 t o y sp2 b
              Hx Hsp1 Ht Ho Hy Hsp2 (spaceFree_head b Hb)) as [s' [-> Hrest]].
  rewrite Hrest, rev_involutive.
  replace (List.length (x :: sp1 ++ t :: o :: y :: sp2 ++ b) - List.length b)
    with (S (List.length (sp1 ++ t :: o :: y :: sp2))).
  2: { cbn [List.length]. rewrite !length_app. cbn [List.length]. rewrite !length_app. lia. }
  replace (sp1 ++ t :: o :: y :: sp2 ++ b)%list
    with ((sp1 ++ t :: o :: y :: sp2) ++ b)%list.
  2: { rewrite <- app_assoc. reflexivity. }
  rewrite splitFrom_skip.
  assert (Hlast : forall pv,
             splitFrom true rangeSeparator pv 0 [] b = [ofChars b]).
  { intro pv. pose proof (splitFrom_word b pv [] [] Hb) as H.
    rewrite !app_nil_r in H. rewrite H. cbn [splitFrom].
    rewrite rev_involutive. reflexivity. }
  destruct (sp1 ++ t :: o :: y :: sp2)%list; rewrite Hlast; reflexivity.
Qed.

Lemma blank_chars :
  forall s, blank s = true ->
            exists x sp, chars s = x :: sp /\ isSpace x = true /\ forallb isSpace sp = true.
Proof.
  intros s H. unfold blank in H. apply andb_prop in H. destruct H as [Hne Hall].
  destruct s as [| x s']; [discriminate Hne |].
  exists x, (chars s'). cbn [chars list_ascii_of_string forallb] in *.
  apply andb_prop in Hall. destruct Hall as [Hx Hs]. repeat split; assumption.
Qed.

Lemma caseVariant_TO :
  forall w, caseVariant w "TO" ->
            exists t o, chars w = [t; o]
                        /\ eqChar true "T" t = true /\ eqChar true "O" o = true.
Proof.
  intros w H. unfold caseVariant, toUpperCase in H.
  destruct w as [| t [| o [| z w]]]; try discriminate H.
  cbn in H. injection H as Ht Ho.
  exists t, o. unfold eqChar. rewrite Ht, Ho. repeat split; reflexivity.
Qed.

Lemma split_range_content :
  forall a sp1 w sp2 b,
    spaceFree a = true -> blank sp1 = true -> caseVariant w "TO" ->
    blank sp2 = true -> spaceFree b = true ->
    split true rangeSeparator (a ++ sp1 ++ w ++ sp2 ++ b) = [a; b].
Proof.
  intros a sp1 w sp2 b Ha H1 Hw H2 Hb. unfold split.
  destruct (blank_chars sp1 H1) as [x [s1 [E1 [Hx Hs1]]]].
  destruct (blank_chars sp2 H2) as [y [s2 [E2 [Hy Hs2]]]].
  destruct (caseVariant_TO w Hw) as [t [o [Ew [Ht Ho]]]].
  rewrite !chars_append, E1, E2, Ew.
  cbn [app].
  rewrite (split_two_parts (chars a) x s1 t o y s2 (chars b) Ha Hx Hs1 Ht Ho Hy Hs2 Hb).
  rewrite !ofChars_chars. reflexivity.
Qed.

End RangeSeparator.



(* ------------------------------------------------------------------ *)
(** ** Plain text *)

Section PlainText.

Import KQLParser.

Variable h : Host.

Lemma plainChar_word :
  forall c, plainChar c = true -> isSpace c = false ->
            wordStop c = false /\ Ascii.eqb c "[" = false.
Proof.
  intros c H Hs. unfold plainChar in H. apply andb_prop in H. destruct H as [H Hb].
  rewrite Hs in H. cbn [orb] in H.
  split; [apply negb_true_iff; exact H | apply negb_true_iff; exact Hb].
Qed.

Lemma plainChar_stop :
  forall c, plainChar c = true -> wordStop c = true -> isSpace c = true.
Proof.
  intros c H Hw. unfold plainChar in H. apply andb_prop in H. destruct H as [H _].
  rewrite Hw in H. cbn [negb] in H. rewrite orb_false_r in H. exact H.
Qed.

Lemma wordStop_space : forall c, isSpace c = true -> wordStop c = true.
Proof. intros c H. unfold wordStop. rewrite H. reflexivity. Qed.

(** A bare word is what comes before the first character that ends it. *)
Lemma word_span :
  forall l,
    exists w after,
      word l = (w, after) /\ l = (w ++ after)%list
      /\ forallb (fun x => negb (wordStop x)) w = true
      /\ match after with [] => True | x :: _ => wordStop x = true end.
Proof.
  induction l as [| c r [w [after [Hw [El [Hall Hafter]]]]]].
  - exists [], []. repeat split; reflexivity.
  - cbn [word]. destruct (wordStop c) eqn:Hc.
    + exists [], (c :: r). split; [reflexivity |].
      split; [reflexivity |]. split; [reflexivity | exact Hc].
    + rewrite Hw. exists (c :: w), after. split; [reflexivity |].
      split; [cbn [app]; rewrite <- El; reflexivity |].
      split; [cbn [forallb]; rewrite Hc; exact Hall | exact Hafter].
Qed.

Lemma colonNext_plain :
  forall l, forallb plainChar l = true -> colonNext l = false.
Proof.
  induction l as [| c r IH]; intro H; [reflexivity |].
  cbn [forallb] in H. apply andb_prop in H. destruct H as [Hc Hr].
  unfold colonNext. cbn [dropWhile].
  destruct (isSpace c) eqn:Hs; [exact (IH Hr) |].
  destruct (plainChar_word c Hc Hs) as [Hw _].
  exact (proj1 (proj2 (proj2 (wordStop_false_parts c Hw)))).
Qed.

Lemma wordsFrom_run :
  forall w cur after,
    forallb (fun x => negb (wordStop x)) w = true ->
    wordsFrom cur (w ++ after) = wordsFrom (rev w ++ cur) after.
Proof.
  induction w as [| c w IH]; intros cur after H; [reflexivity |].
  cbn [forallb] in H. apply andb_prop in H. destruct H as [Hc Hw].
  apply negb_true_iff in Hc.
  cbn [app wordsFrom].
  rewrite (proj1 (wordStop_false_parts c Hc)).
  rewrite (IH (c :: cur) after Hw). cbn [rev]. rewrite <- app_assoc. reflexivity.
Qed.

Lemma forallb_app_r :
  forall (p : ascii -> bool) a b, forallb p (a ++ b) = true -> forallb p b = true.
Proof. intros p a b H. rewrite forallb_app in H. apply andb_prop in H. exact (proj2 H). Qed.

(** The tokens of plain text are its words, one token a word. *)
Lemma tokenizeFrom_plain :
  forall fuel n l,
    List.length l <= fuel ->
    forallb plainChar l = true ->
    exists toks,
      tokenizeFrom fuel n l = Some toks
      /\ List.map (fun t => (Token.type t, Token.value t)) toks
         = List.map tokenOfWord (wordsFrom [] l).
Proof.
  induction fuel as [| fuel IH]; intros n l Hlen Hplain.
  - destruct l; [exists []; split; reflexivity | simpl in Hlen; lia].
  - destruct l as [| c r]; [exists []; split; reflexivity |].
    cbn [tokenizeFrom]. cbn [forallb] in Hplain.
    apply andb_prop in Hplain. destruct Hplain as [Hc Hr]. cbn [List.length] in Hlen.
    destruct (isSpace c) eqn:Hs.
    + destruct (IH n r ltac:(lia) Hr) as [toks [Ht Hm]].
      exists toks. split; [exact Ht |]. cbn [wordsFrom]. rewrite Hs. exact Hm.
    + destruct (plainChar_word c Hc Hs) as [Hw Hb].
      destruct (wordStop_false_parts c Hw) as [_ [Hq [Hcol [Hp Ha]]]].
      unfold scan. rewrite Hq, Hcol, Hp, Hb, Ha.
      cbn [word]. rewrite Hw.
      destruct (word_span r) as [w [after [Hword [El [Hall Hafter]]]]].
      rewrite Hword.
      assert (Hplain_after : forallb plainChar after = true).
      { rewrite El in Hr. exact (forallb_app_r _ _ _ Hr). }
      assert (Hlen_after : List.length after <= fuel).
      { rewrite El, length_app in Hlen. lia. }
      destruct (IH n after Hlen_after Hplain_after) as [toks [Ht Hm]].
      rewrite (colonNext_plain after Hplain_after).
      assert (Hwords : wordsFrom [] (c :: r)
                       = ofChars (c :: w) :: wordsFrom [] after).
      { rewrite El. change (c :: w ++ after)%list with ((c :: w) ++ after)%list.
        rewrite wordsFrom_run.
        2: { cbn [forallb]. rewrite Hw. exact Hall. }
        rewrite app_nil_r.
        destruct after as [| x r'].
        - cbn [wordsFrom]. destruct (rev (c :: w)) eqn:E.
          + apply (f_equal (@List.length ascii)) in E. rewrite length_rev in E.
            discriminate E.
          + rewrite <- E, rev_involutive. reflexivity.
        - cbn [forallb] in Hplain_after. apply andb_prop in Hplain_after.
          pose proof (plainChar_stop x (proj1 Hplain_after) Hafter) as Hx.
          cbn [wordsFrom]. rewrite Hx.
          destruct (rev (c :: w)) eqn:E.
          + apply (f_equal (@List.length ascii)) in E. rewrite length_rev in E.
            discriminate E.
          + rewrite <- E, rev_involutive. reflexivity. }
      rewrite Hwords. cbn [List.map]. unfold tokenOfWord at 1. unfold isLogical.
      destruct (Regex.test true logicalWord (ofChars (c :: w))); rewrite Ht;
        eexists; (split; [reflexivity |]); cbn [List.map Token.type Token.value];
        rewrite Hm; reflexivity.
Qed.

(** On word tokens one turn of [parseExpression] passes the logical words
    and takes the text of the word that follows them. *)
Lemma parseExpression_words :
  forall toks,
    wordTokens toks = true -> toks <> [] ->
    exists s rest,
      parseExpression h toks = (Text s, rest)
      /\ textsOf toks = s :: textsOf rest
      /\ wordTokens rest = true.
Proof.
  induction toks as [| t r IH]; intros Hw Hne; [elim Hne; reflexivity |].
  cbn [wordTokens forallb] in Hw. apply andb_prop in Hw. destruct Hw as [Ht Hr].
  fold (wordTokens r) in Hr.
  cbn [parseExpression textsOf]. unfold isLogicalToken.
  destruct (Token.type t); try discriminate Ht.
  - exists (Token.value t), r. repeat split. exact Hr.
  - destruct r as [| t2 r2].
    + exists "", []. repeat split.
    + destruct (IH Hr ltac:(discriminate)) as [s [rest [He [Hx Hrest]]]].
      exists s, rest. repeat split; assumption.
  - destruct r as [| t2 r2].
    + exists "", []. repeat split.
    + destruct (IH Hr ltac:(discriminate)) as [s [rest [He [Hx Hrest]]]].
      exists s, rest. repeat split; assumption.
  - destruct r as [| t2 r2].
    + exists "", []. repeat split.
    + destruct (IH Hr ltac:(discriminate)) as [s [rest [He [Hx Hrest]]]].
      exists s, rest. rewrite He. repeat split; assumption.
Qed.

Lemma parseLoop_words :
  forall fuel toks filters textParts,
    List.length toks <= fuel ->
    wordTokens toks = true ->
    parseLoop h fuel toks filters textParts = Some (filters, (textParts ++ textsOf toks)%list).
Proof.
  induction fuel as [| fuel IH]; intros toks filters textParts Hlen Hw.
  - destruct toks; [cbn; rewrite app_nil_r; reflexivity | simpl in Hlen; lia].
  - destruct toks as [| t r]; [cbn; rewrite app_nil_r; reflexivity |].
    cbn [parseLoop].
    pose proof (parseExpression_shorter h (t :: r)) as Hshort.
    destruct (parseExpression_words (t :: r) Hw ltac:(discriminate))
      as [s [rest [He [Hx Hrest]]]].
    rewrite He in *. cbn [snd] in Hshort. cbn [List.length] in Hlen, Hshort.
    rewrite (IH rest filters (textParts ++ [s])%list ltac:(lia) Hrest).
    rewrite Hx, <- app_assoc. reflexivity.
Qed.

End PlainText.

Section FreeText.

Import KQLParser.

Lemma tokens_of_words :
  forall ws toks,
    List.map (fun t => (Token.type t, Token.value t)) toks = List.map tokenOfWord ws ->
    wordTokens toks = true
    /\ textsOf toks
       = (List.filter (fun w => negb (isLogical w)) ws
          ++ (if trailingLogical ws then [""] else []))%list.
Proof.
  induction ws as [| w r IH]; intros toks H.
  - destruct toks; [split; reflexivity | discriminate H].
  - destruct toks as [| t tr]; [discriminate H |].
    cbn [List.map] in H. injection H as Hpair Hrest.
    pose proof (f_equal fst Hpair) as Hty. pose proof (f_equal snd Hpair) as Hval.
    cbn [fst snd] in Hty, Hval. clear Hpair.
    destruct (IH tr Hrest) as [Hw Htexts].
    assert (Hempty : tr = [] <-> r = []).
    { split; intro E; subst; [destruct r | destruct tr]; try reflexivity;
        discriminate Hrest. }
    unfold tokenOfWord in Hty, Hval.
    cbn [wordTokens forallb textsOf List.filter trailingLogical]. fold (wordTokens tr).
    unfold isLogicalToken.
    destruct (isLogical w) eqn:Hlog; cbn [fst snd negb] in *.
    + assert (Hkind : Token.type t = Token.AND \/ Token.type t = Token.OR
                      \/ Token.type t = Token.NOT).
      { rewrite Hty. destruct (toUpperCase w =? "AND"); [left; reflexivity |].
        destruct (toUpperCase w =? "OR"); [right; left | right; right]; reflexivity. }
      destruct r as [| w2 r2].
      * rewrite (proj2 Hempty eq_refl).
        destruct Hkind as [-> | [-> | ->]]; split; reflexivity.
      * destruct tr as [| t2 tr2]; [discriminate Hrest |].
        destruct Hkind as [-> | [-> | ->]]; (split; [exact Hw | exact Htexts]).
    + rewrite Hty, Hval. split; [exact Hw |].
      rewrite Htexts. destruct r; reflexivity.
Qed.

Lemma chars_fold_join :
  forall sep r acc,
    chars (fold_left (fun a y => a ++ sep ++ y) r acc)
    = (chars acc ++ flat_map (fun y => chars sep ++ chars y) r)%list.
Proof.
  induction r as [| y r IH]; intro acc; cbn [fold_left flat_map].
  - rewrite app_nil_r. reflexivity.
  - rewrite IH, !chars_append, <- !app_assoc. reflexivity.
Qed.

Lemma chars_join :
  forall sep x r,
    chars (join sep (x :: r))
    = (chars x ++ flat_map (fun y => chars sep ++ chars y) r)%list.
Proof. intros sep x r. unfold join. apply chars_fold_join. Qed.

Lemma rev_head_app :
  forall (a b : list ascii) c t, rev b = c :: t -> exists t', rev (a ++ b) = c :: t'.
Proof. intros a b c t E. rewrite rev_app_distr, E. eexists. reflexivity. Qed.

Lemma wordLike_chars :
  forall w, wordLike w = true ->
            exists c t d u, chars w = c :: t /\ isSpace c = false
                            /\ rev (chars w) = d :: u /\ isSpace d = false.
Proof.
  intros w H. unfold wordLike, spaceFree in H. apply andb_prop in H.
  destruct H as [Hne Hall]. rewrite forallb_forall in Hall.
  destruct w as [| c w']; [discriminate Hne |].
  change (chars (String c w')) with (c :: chars w') in *.
  destruct (rev (c :: chars w')) as [| d u] eqn:E.
  { apply (f_equal (@List.length ascii)) in E. rewrite length_rev in E. discriminate E. }
  exists c, (chars w'), d, u. repeat split.
  - apply negb_true_iff. apply Hall. left. reflexivity.
  - apply negb_true_iff. apply Hall. apply in_rev. rewrite E. left. reflexivity.
Qed.

(** The words joined by single spaces end with the last character of the
    last word. *)
Lemma joined_last :
  forall r pre d u,
    rev pre = d :: u -> isSpace d = false ->
    Forall (fun w => wordLike w = true) r ->
    exists d' u',
      rev (pre ++ flat_map (fun y => chars " " ++ chars y) r)%list = d' :: u'
      /\ isSpace d' = false.
Proof.
  induction r as [| y r IH]; intros pre d u E Hd Hall.
  - exists d, u. cbn [flat_map]. rewrite app_nil_r. split; assumption.
  - inversion Hall as [| ? ? Hy Hr]; subst.
    destruct (wordLike_chars y Hy) as [c [t [d2 [u2 [_ [_ [E2 Hd2]]]]]]].
    cbn [flat_map]. rewrite app_assoc.
    destruct (rev_head_app (pre ++ chars " ") (chars y) d2 u2 E2) as [t' E3].
    rewrite <- app_assoc in E3.
    rewrite <- !app_assoc. rewrite app_assoc. rewrite app_assoc.
    apply (IH _ d2 t'); [| exact Hd2 | exact Hr].
    rewrite <- app_assoc. exact E3.
Qed.

Lemma trimChars_edges :
  forall l, edgesOk l = true ->
            trimChars l = l /\ trimChars (l ++ [" "%char]) = l.
Proof.
  intros l H. unfold edgesOk in H. apply andb_prop in H. destruct H as [Hhd Hlast].
  destruct l as [| c l']; [discriminate Hhd |].
  apply negb_true_iff in Hhd.
  destruct (rev (c :: l')) as [| d u] eqn:E; [discriminate Hlast |].
  apply negb_true_iff in Hlast.
  unfold trimChars. split.
  - cbn [dropWhile]. rewrite Hhd, E. cbn [dropWhile]. rewrite Hlast.
    rewrite <- E. apply rev_involutive.
  - cbn [app dropWhile]. rewrite Hhd.
    change (c :: l' ++ [" "%char])%list with ((c :: l') ++ [" "%char])%list.
    rewrite rev_app_distr, E. cbn [rev app dropWhile].
    change (isSpace " ") with true. cbv iota. rewrite Hlast.
    rewrite <- E. apply rev_involutive.
Qed.

Lemma joined_edges :
  forall x r,
    wordLike x = true -> Forall (fun w => wordLike w = true) r ->
    edgesOk (chars (join " " (x :: r))) = true.
Proof.
  intros x r Hx Hr. rewrite chars_join.
  destruct (wordLike_chars x Hx) as [c [t [d [u [Ec [Hc [Er Hd]]]]]]].
  destruct (joined_last r (chars x) d u Er Hd Hr) as [d' [u' [E' Hd']]].
  unfold edgesOk. rewrite E'. rewrite Ec. cbn [app]. rewrite Hc, Hd'. reflexivity.
Qed.

(** Trimming the joined text parts leaves the words joined by single
    spaces, whether or not an empty part ends them. *)
Lemma trim_joined :
  forall xs (trailing : bool),
    Forall (fun w => wordLike w = true) xs ->
    trim (join " " (xs ++ (if trailing then [""] else []))) = join " " xs.
Proof.
  intros xs trailing Hall. destruct xs as [| x r].
  - destruct trailing; reflexivity.
  - inversion Hall as [| ? ? Hx Hr]; subst.
    pose proof (joined_edges x r Hx Hr) as Hedges.
    destruct (trimChars_edges _ Hedges) as [Hplain Hspace].
    unfold trim. destruct trailing.
    + cbn [app]. rewrite chars_join, flat_map_app. cbn [flat_map].
      rewrite app_assoc, <- chars_join.
      change ((chars " " ++ chars "") ++ [])%list with [" "%char].
      rewrite Hspace. apply ofChars_chars.
    + rewrite app_nil_r, Hplain. apply ofChars_chars.
Qed.

Lemma wordsFrom_wordLike :
  forall l cur,
    forallb (fun c => negb (isSpace c)) cur = true ->
    Forall (fun w => wordLike w = true) (wordsFrom cur l).
Proof.
  assert (Hemit : forall c cur,
             forallb (fun c => negb (isSpace c)) (c :: cur) = true ->
             wordLike (ofChars (rev (c :: cur))) = true).
  { intros c cur H. unfold wordLike, spaceFree. rewrite chars_ofChars.
    apply andb_true_intro. split.
    - destruct (rev (c :: cur)) eqn:E; [| reflexivity].
      apply (f_equal (@List.length ascii)) in E. rewrite length_rev in E. discriminate E.
    - rewrite forallb_forall in *. intros x Hx. apply H. apply in_rev. exact Hx. }
  induction l as [| c r IH]; intros cur Hcur; cbn [wordsFrom].
  - destruct cur as [| d cur']; constructor; [apply Hemit; exact Hcur | constructor].
  - destruct (isSpace c) eqn:Hs.
    + destruct cur as [| d cur'].
      * apply IH. reflexivity.
      * constructor; [apply Hemit; exact Hcur | apply IH; reflexivity].
    + apply IH. cbn [forallb]. rewrite Hs. exact Hcur.
Qed.

End FreeText.



(* ------------------------------------------------------------------ *)
(** ** Negation *)

Lemma negated_negated :
  forall e, KQLParser.negated (KQLParser.negated e) = KQLParser.negated e.
Proof. intros [f | s]; reflexivity. Qed.

(** NOT does not toggle: one NOT or several before an expression give the
    same result, the expression negated once.  A doubled NOT does not cancel
    out. *)
Theorem repeated_not_negates_once :
  forall (h : Host) (nots toks : list Token.t),
    nots <> [] ->
    forallb isNot nots = true ->
    KQLParser.parseExpression h (nots ++ toks)
    = (KQLParser.negated (fst (KQLParser.parseExpression h toks)),
       snd (KQLParser.parseExpression h toks)).
Proof.
  intros h nots toks Hne Hall.
  induction nots as [| t r IH]; [elim Hne; reflexivity |].
  cbn [forallb] in Hall. apply andb_prop in Hall. destruct Hall as [Ht Hr].
  unfold isNot in Ht. cbn [app KQLParser.parseExpression].
  destruct (Token.type t); try discriminate Ht.
  destruct r as [| t2 r2].
  - cbn [app]. destruct (KQLParser.parseExpression h toks). reflexivity.
  - rewrite (IH ltac:(discriminate) Hr). cbn [fst snd].
    rewrite negated_negated. reflexivity.
Qed.

(** The tokens of [NOT NOT level:ERROR]: the filter is negated. *)
Lemma repeated_not_witness :
  KQLParser.parseExpression bareHost
    [Token.mk Token.NOT "NOT" 0; Token.mk Token.NOT "NOT" 4;
     Token.mk Token.FIELD "level" 8; Token.mk Token.OPERATOR ":" 13;
     Token.mk Token.TEXT "ERROR" 14]
  = (KQLParser.Filter (QueryFilter.mk "level" FilterOperator.equals (JStr "ERROR") true),
     []).
Proof.
  exact (repeated_not_negates_once bareHost
           [Token.mk Token.NOT "NOT" 0; Token.mk Token.NOT "NOT" 4]
           [Token.mk Token.FIELD "level" 8; Token.mk Token.OPERATOR ":" 13;
            Token.mk Token.TEXT "ERROR" 14]
           ltac:(discriminate) eq_refl).
Defined.

(** The same on the query text. *)
Remark doubled_not_in_query :
  forall h,
    KQLParser.parse h "NOT NOT level:ERROR" = KQLParser.parse h "NOT level:ERROR"
    /\ KQLParser.tokenize "NOT NOT level:ERROR"
       = Some [Token.mk Token.NOT "NOT" 0; Token.mk Token.NOT "NOT" 4;
               Token.mk Token.FIELD "level" 8; Token.mk Token.OPERATOR ":" 13;
               Token.mk Token.TEXT "ERROR" 14].
Proof. intro h. split; reflexivity. Qed.

(* ------------------------------------------------------------------ *)
(** ** A quoted phrase as the value of a field *)

Section QuotedValue.

Import KQLParser.

Variable h : Host.

Lemma quoted_plain :
  forall phrase rest,
    forallb (fun c => negb (Ascii.eqb c dquote || Ascii.eqb c "\")) phrase = true ->
    quoted (phrase ++ dquote :: rest) = (phrase, rest)
    /\ quoted phrase = (phrase, [])
    /\ unescapeQuotes phrase = phrase.
Proof.
  induction phrase as [| c p IH]; intros rest H.
  - repeat split.
  - cbn [forallb] in H. apply andb_prop in H. destruct H as [Hc Hp].
    apply negb_true_iff, orb_false_elim in Hc. destruct Hc as [Hq Hb].
    destruct (IH rest Hp) as [H1 [H2 H3]].
    cbn [app quoted]. rewrite Hq, Hb, H1, H2. repeat split.
    cbn [unescapeQuotes]. destruct p as [| c2 p2]; [reflexivity |].
    rewrite Hb. cbn [andb]. rewrite H3. reflexivity.
Qed.

(** The two tokens a field name and its colon are read as. *)
Lemma tokenizeFrom_field_prefix :
  forall fuel n c r rest,
    forallb (fun x => negb (wordStop x)) (c :: r) = true ->
    Ascii.eqb c "[" = false ->
    Regex.test true logicalWord (ofChars (c :: r)) = false ->
    exists p1 p2,
      tokenizeFrom (S (S fuel)) n (c :: r ++ ":"%char :: rest)
      = match tokenizeFrom fuel n rest with
        | Some toks => Some (Token.mk Token.FIELD (ofChars (c :: r)) p1
                               :: Token.mk Token.OPERATOR ":" p2 :: toks)
        | None => None
        end.
Proof.
  intros fuel n c r rest Hw Hb Hlog.
  assert (Hs : isSpace c = false).
  { assert (Hcw : wordStop c = false).
    { simpl in Hw. apply andb_prop in Hw. apply negb_true_iff. exact (proj1 Hw). }
    exact (proj1 (wordStop_false_parts c Hcw)). }
  cbn [tokenizeFrom]. rewrite Hs.
  rewrite (scan_field _ c r _ Hw Hb Hlog).
  change (isSpace ":") with false. cbv iota.
  change (scan (n - List.length (":"%char :: rest)) ":" rest)
    with (Token.mk Token.OPERATOR ":" (n - List.length (":"%char :: rest)), rest).
  cbv iota beta.
  eexists. eexists. destruct (tokenizeFrom fuel n rest); reflexivity.
Qed.

Lemma createFilter_plain_value :
  forall field value,
    bracketLiteral value = false ->
    createFilter h field ":" value
    = Some (QueryFilter.mk field FilterOperator.equals (parseValue h value) false).
Proof.
  intros field value H. unfold createFilter. unfold bracketLiteral in H.
  rewrite H. reflexivity.
Qed.

Lemma chars_inQuotes :
  forall phrase closed,
    chars (inQuotes phrase closed)
    = (dquote :: chars phrase ++ (if closed then [dquote] else []))%list.
Proof.
  intros phrase closed. unfold inQuotes.
  change (chars (String dquote (phrase ++ (if closed then String dquote "" else ""))))
    with (dquote :: chars (phrase ++ (if closed then String dquote "" else ""))).
  rewrite chars_append. destruct closed; reflexivity.
Qed.

Lemma tokenize_quoted_value :
  forall field phrase closed,
    fieldWord field -> quoteFree phrase = true ->
    exists p1 p2 p3,
      tokenize (field ++ ":" ++ inQuotes phrase closed)
      = Some [Token.mk Token.FIELD field p1; Token.mk Token.OPERATOR ":" p2;
              Token.mk Token.VALUE phrase p3].
Proof.
  intros field phrase closed Hf Hq. unfold tokenize.
  rewrite string_length_chars, chars_append.
  change (chars (":" ++ inQuotes phrase closed))
    with (":"%char :: chars (inQuotes phrase closed)).
  rewrite chars_inQuotes.
  unfold fieldWord in Hf.
  assert (Hfield : ofChars (chars field) = field) by apply ofChars_chars.
  destruct (chars field) as [| c r]; [contradiction |].
  destruct Hf as [Hw [Hb Hlog]]. rewrite <- Hfield in Hlog.
  set (tail := (chars phrase ++ (if closed then [dquote] else []))%list).
  generalize (List.length ((c :: r) ++ ":"%char :: dquote :: tail)) at 2. intro n.
  assert (Hlen : List.length ((c :: r) ++ ":"%char :: dquote :: tail)
                 = S (S (S (List.length r + List.length tail)))).
  { rewrite length_app. simpl. lia. }
  rewrite Hlen.
  destruct (tokenizeFrom_field_prefix (S (List.length r + List.length tail)) n c r
              (dquote :: tail) Hw Hb Hlog) as [p1 [p2 E]].
  change ((c :: r) ++ ":"%char :: dquote :: tail)%list
    with (c :: r ++ ":"%char :: dquote :: tail)%list.
  rewrite E. cbn [tokenizeFrom].
  change (isSpace dquote) with false. cbv iota.
  unfold scan. change (Ascii.eqb dquote dquote) with true. cbv iota.
  destruct (quoted_plain (chars phrase) [] Hq) as [Hclosed [Hopen Hun]].
  assert (Hquoted : quoted tail = (chars phrase, [])).
  { unfold tail. destruct closed; [exact Hclosed | rewrite app_nil_r; exact Hopen]. }
  rewrite Hquoted, Hun, tokenizeFrom_done, ofChars_chars, Hfield.
  eexists. eexists. eexists. reflexivity.
Qed.

End QuotedValue.




(* ------------------------------------------------------------------ *)
(** * The search index: what a search returns *)

Section SearchResults.

Import LogSearchIndex.

Variable h : Host.
Variable textSearch : list LogEntry.t -> string -> bool -> list string.

Lemma filter_twice :
  forall (A : Type) (p q : A -> bool) l,
    List.filter p (List.filter q l) = List.filter (fun x => q x && p x) l.
Proof.
  intros A p q l. induction l as [| x r IH]; cbn [List.filter].
  - reflexivity.
  - destruct (q x); cbn [List.filter andb]; [destruct (p x) |]; rewrite IH; reflexivity.
Qed.

Lemma filter_all :
  forall (A : Type) (p : A -> bool) l,
    (forall x, p x = true) -> List.filter p l = l.
Proof.
  intros A p l H. induction l as [| x r IH]; cbn [List.filter].
  - reflexivity.
  - rewrite (H x), IH. reflexivity.
Qed.

(** [search] sorts the records the three tests select. *)
Lemma search_sorts_selected :
  forall idx query,
    search h textSearch idx query =
    let sorted := JsArray.sort newerFirst
                    (List.filter (selects h textSearch idx query) (getAllEntries idx)) in
    SearchResult.mk sorted (List.length sorted).
Proof.
  intros idx query. unfold search.
  assert (Hfilters :
            (if (0 <? List.length (SearchQuery.filters query))%nat
             then List.filter (fun entry => matchesFilters h entry (SearchQuery.filters query))
                    (List.filter (inTimeRange (SearchQuery.timeRange query))
                                 (getAllEntries idx))
             else List.filter (inTimeRange (SearchQuery.timeRange query)) (getAllEntries idx))
            = List.filter (fun e => inTimeRange (SearchQuery.timeRange query) e
                                    && matchesFilters h e (SearchQuery.filters query))
                          (getAllEntries idx)).
  { destruct (SearchQuery.filters query) as [| f fs] eqn:Hf.
    - cbn [List.length Nat.ltb Nat.leb]. apply filter_ext. intro e.
      cbn [matchesFilters forallb]. rewrite andb_true_r. reflexivity.
    - cbn [List.length]. change (0 <? S (List.length fs))%nat with true. cbv iota.
      apply filter_twice. }
  rewrite Hfilters.
  assert (Htext :
            (if nonEmpty (trim (SearchQuery.text query))
             then List.filter
                    (fun entry =>
                       existsb (String.eqb (LogEntry.id entry))
                               (textSearch (miniSearch idx) (SearchQuery.text query)
                                           (SearchQuery.fuzzy query)))
                    (List.filter (fun e => inTimeRange (SearchQuery.timeRange query) e
                                           && matchesFilters h e (SearchQuery.filters query))
                                 (getAllEntries idx))
             else List.filter (fun e => inTimeRange (SearchQuery.timeRange query) e
                                        && matchesFilters h e (SearchQuery.filters query))
                              (getAllEntries idx))
            = List.filter (selects h textSearch idx query) (getAllEntries idx)).
  { unfold selects. destruct (nonEmpty (trim (SearchQuery.text query))); cbn [negb orb].
    - apply filter_twice.
    - apply filter_ext. intro e. rewrite andb_true_r. reflexivity. }
  rewrite Htext. reflexivity.
Qed.

Lemma selects_dated :
  forall idx query e, selects h textSearch idx query e = true -> dated e.
Proof.
  intros idx query e H. unfold selects in H.
  apply andb_prop in H. destruct H as [H _]. apply andb_prop in H. destruct H as [H _].
  exact (inTimeRange_dated _ _ H).
Qed.

Lemma insert_head :
  forall x l,
    (forall z, In z l -> newerFirst x z = false) ->
    JsArray.insert newerFirst x l = x :: l.
Proof.
  intros x [| z r] H; [reflexivity |].
  cbn [JsArray.insert]. rewrite (H z (or_introl eq_refl)). reflexivity.
Qed.

(** Among dated records sorted newest first, inserting and then filtering
    is filtering and then inserting. *)
Lemma filter_insert_sorted :
  forall (p : LogEntry.t -> bool) x l,
    dated x -> p x = true -> Forall dated l -> StronglySorted notOlder l ->
    List.filter p (JsArray.insert newerFirst x l)
    = JsArray.insert newerFirst x (List.filter p l).
Proof.
  intros p x l [tx Hx] Hpx Hd Hs. induction Hs as [| y r Hr IH Hy].
  - cbn. rewrite Hpx. reflexivity.
  - inversion Hd as [| ? ? [ty Hty] Hdr]; subst.
    cbn [JsArray.insert]. rewrite (newerFirst_dated x y tx ty Hx Hty).
    destruct (Z.ltb_spec tx ty) as [Hlt | Hge].
    + cbn [List.filter]. destruct (p y).
      * cbn [JsArray.insert]. rewrite (newerFirst_dated x y tx ty Hx Hty).
        destruct (Z.ltb_spec tx ty); [| lia]. rewrite (IH Hdr). reflexivity.
      * exact (IH Hdr).
    + assert (Hfirst : forall z, In z (List.filter p (y :: r)) -> newerFirst x z = false).
      { intros z Hin. apply filter_In in Hin. destruct Hin as [[<- | Hz] _].
        - rewrite (newerFirst_dated x y tx ty Hx Hty). apply Z.ltb_ge. exact Hge.
        - rewrite Forall_forall in Hy. destruct (Hy z Hz) as [ty' [tz [Hty' [Htz Hle]]]].
          rewrite Hty in Hty'. injection Hty' as <-.
          rewrite (newerFirst_dated x z tx tz Hx Htz). apply Z.ltb_ge. lia. }
      rewrite (insert_head x _ Hfirst).
      change (List.filter p (x :: y :: r))
        with (if p x then x :: List.filter p (y :: r) else List.filter p (y :: r)).
      rewrite Hpx. reflexivity.
Qed.

Lemma filter_insert_rejected :
  forall (p : LogEntry.t -> bool) x l,
    p x = false ->
    List.filter p (JsArray.insert newerFirst x l) = List.filter p l.
Proof.
  intros p x l Hpx. induction l as [| y r IH]; cbn [JsArray.insert List.filter].
  - rewrite Hpx. reflexivity.
  - destruct (newerFirst x y); cbn [List.filter].
    + rewrite IH. reflexivity.
    + rewrite Hpx. reflexivity.
Qed.

(** Sorting dated records newest first and filtering them commute. *)
Lemma sort_filter_dated :
  forall (p : LogEntry.t -> bool) l,
    Forall dated l ->
    JsArray.sort newerFirst (List.filter p l)
    = List.filter p (JsArray.sort newerFirst l).
Proof.
  intros p l Hd. induction l as [| x r IH]; [reflexivity |].
  inversion Hd as [| ? ? Hx Hr]; subst.
  cbn [JsArray.sort List.filter]. destruct (p x) eqn:Hpx.
  - cbn [JsArray.sort]. rewrite (IH Hr). symmetry.
    apply filter_insert_sorted; [exact Hx | exact Hpx | | apply sort_sorted; exact Hr].
    apply (Permutation_Forall (Permutation_sym (sort_perm _ newerFirst r))). exact Hr.
  - rewrite filter_insert_rejected by exact Hpx. exact (IH Hr).
Qed.

End SearchResults.


(** The records selected with more filters, sorted, are the sorted
    records selected without them that pass the additional filters. *)
Lemma selected_with_more_filters :
  forall (h : Host) (textSearch : list LogEntry.t -> string -> bool -> list string)
         (idx : LogSearchIndex.t) (query : SearchQuery.t) (more : list QueryFilter.t)
         (records : list LogEntry.t),
    JsArray.sort LogSearchIndex.newerFirst
      (List.filter (selects h textSearch idx
                      (withFilters query (SearchQuery.filters query ++ more))) records)
    = List.filter (fun e => LogSearchIndex.matchesFilters h e more)
        (JsArray.sort LogSearchIndex.newerFirst
           (List.filter (selects h textSearch idx query) records)).
Proof.
  intros h textSearch idx query more records.
  rewrite <- sort_filter_dated.
  - f_equal. rewrite filter_twice. apply filter_ext. intro e.
    unfold selects, withFilters. cbn [SearchQuery.text SearchQuery.filters
      SearchQuery.timeRange SearchQuery.fuzzy].
    unfold LogSearchIndex.matchesFilters. rewrite forallb_app.
    destruct (LogSearchIndex.inTimeRange (SearchQuery.timeRange query) e);
      destruct (forallb (LogSearchIndex.matchesFilter h e) (SearchQuery.filters query));
      destruct (forallb (LogSearchIndex.matchesFilter h e) more);
      cbn [andb]; try reflexivity;
      destruct (negb (nonEmpty (trim (SearchQuery.text query)))
                || existsb (String.eqb (LogEntry.id e))
                           (textSearch (LogSearchIndex.miniSearch idx)
                                       (SearchQuery.text query) (SearchQuery.fuzzy query)));
      reflexivity.
  - apply Forall_forall. intros e He. apply filter_In in He.
    exact (selects_dated h textSearch idx query e (proj2 He)).
Qed.


(** A time range with an invalid bound selects no record: the search
    returns nothing, whatever the index holds. *)
Theorem search_with_invalid_bound :
  forall (h : Host) (textSearch : list LogEntry.t -> string -> bool -> list string)
         (idx : LogSearchIndex.t) (query : SearchQuery.t),
    TimeRange.from (SearchQuery.timeRange query) = None
    \/ TimeRange.to (SearchQuery.timeRange query) = None ->
    LogSearchIndex.search h textSearch idx query = SearchResult.mk [] 0.
Proof.
  intros h textSearch idx query Hbound.
  rewrite search_sorts_selected.
  assert (Hnone : List.filter (selects h textSearch idx query)
                              (LogSearchIndex.getAllEntries idx) = []).
  { induction (LogSearchIndex.getAllEntries idx) as [| e r IH]; [reflexivity |].
    cbn [List.filter]. rewrite IH.
    assert (Hout : LogSearchIndex.inTimeRange (SearchQuery.timeRange query) e = false).
    { unfold LogSearchIndex.inTimeRange, JsNumber.ge.
      destruct Hbound as [-> | ->]; cbn [getTime].
      - destruct (getTime (LogEntry.timestamp e)); reflexivity.
      - destruct (getTime (LogEntry.timestamp e)), (getTime (TimeRange.from
                   (SearchQuery.timeRange query))); cbn;
          rewrite ?andb_false_r; reflexivity. }
    unfold selects. rewrite Hout. reflexivity. }
  rewrite Hnone. reflexivity.
Qed.

(** The three sample records and a range without an upper bound. *)
Lemma search_with_invalid_bound_witness :
  LogSearchIndex.search bareHost (fun _ _ _ => []) threeRecords
    (SearchQuery.mk "" [] (TimeRange.mk (Some 1000%Z) None) false)
  = SearchResult.mk [] 0.
Proof.
  apply search_with_invalid_bound. right. reflexivity.
Defined.

(* ------------------------------------------------------------------ *)
(** * The search index: adding records *)

Section AddingRecords.

Import LogSearchIndex.

Lemma existsb_id_In :
  forall i (docs : list LogEntry.t),
    existsb (fun doc => LogEntry.id doc =? i) docs = true
    <-> In i (List.map LogEntry.id docs).
Proof.
  intros i docs. rewrite existsb_exists. split.
  - intros [d [Hin Heq]]. apply String.eqb_eq in Heq. subst i.
    apply in_map. exact Hin.
  - intro Hin. apply in_map_iff in Hin. destruct Hin as [d [<- Hin]].
    exists d. split; [exact Hin | apply String.eqb_refl].
Qed.

(** [addAll] accepts a batch exactly when its ids are new to the text
    index and pairwise distinct; it then appends the batch. *)
Lemma addAll_accepts :
  forall es docs,
    (NoDup (List.map LogEntry.id es)
     /\ (forall e, In e es -> ~ In (LogEntry.id e) (List.map LogEntry.id docs)))
    -> addAll docs es = ((docs ++ es)%list, None).
Proof.
  induction es as [| e r IH]; intros docs [Hnd Hnew].
  - cbn. rewrite app_nil_r. reflexivity.
  - cbn [addAll]. cbn [List.map] in Hnd. inversion Hnd as [| ? ? Hfresh Hr]; subst.
    destruct (existsb (fun doc => LogEntry.id doc =? LogEntry.id e) docs) eqn:Hex.
    + apply existsb_id_In in Hex. elim (Hnew e (or_introl eq_refl)). exact Hex.
    + rewrite IH.
      * rewrite <- app_assoc. reflexivity.
      * split; [exact Hr |]. intros e' Hin Hin'.
        rewrite map_app in Hin'. apply in_app_or in Hin'. destruct Hin' as [H | [H | []]].
        -- exact (Hnew e' (or_intror Hin) H).
        -- apply Hfresh. rewrite H. apply in_map. exact Hin.
Qed.

Lemma addAll_rejects :
  forall es docs docs' i,
    addAll docs es = (docs', Some (DuplicateId i)) ->
    ~ (NoDup (List.map LogEntry.id es)
       /\ (forall e, In e es -> ~ In (LogEntry.id e) (List.map LogEntry.id docs))).
Proof.
  intros es docs docs' i H Hok. rewrite (addAll_accepts es docs Hok) in H. discriminate H.
Qed.

Lemma addAll_accepted :
  forall es docs docs',
    addAll docs es = (docs', None) ->
    NoDup (List.map LogEntry.id es)
    /\ (forall e, In e es -> ~ In (LogEntry.id e) (List.map LogEntry.id docs)).
Proof.
  induction es as [| e r IH]; intros docs docs' H.
  - split; [constructor | intros e []].
  - cbn [addAll] in H.
    destruct (existsb (fun doc => LogEntry.id doc =? LogEntry.id e) docs) eqn:Hex;
      [discriminate H |].
    destruct (IH _ _ H) as [Hnd Hnew].
    assert (Hfresh : ~ In (LogEntry.id e) (List.map LogEntry.id docs)).
    { intro Hin. apply existsb_id_In in Hin. rewrite Hin in Hex. discriminate Hex. }
    split.
    + cbn [List.map]. constructor; [| exact Hnd].
      intro Hin. apply in_map_iff in Hin. destruct Hin as [e' [Heq Hin]].
      apply (Hnew e' Hin). rewrite map_app. apply in_or_app. right. left.
      symmetry. exact Heq.
    + intros e' [<- | Hin]; [exact Hfresh |].
      intro Hin'. apply (Hnew e' Hin). rewrite map_app. apply in_or_app. left. exact Hin'.
Qed.

Lemma set_fresh :
  forall (V : Type) k (v : V) (m : JsMap.t string V),
    ~ In k (JsMap.keys m) -> JsMap.set String.eqb k v m = (m ++ [(k, v)])%list.
Proof.
  intros V k v m. induction m as [| [k' v'] r IH]; intro H; cbn [JsMap.set app].
  - reflexivity.
  - cbn [JsMap.keys List.map fst] in H.
    destruct (String.eqb_spec k' k) as [E | N].
    + elim H. left. exact E.
    + rewrite IH; [reflexivity |]. intro Hin. apply H. right. exact Hin.
Qed.

(** Records with new, distinct ids go to the end of the record map, in
    order. *)
Lemma store_fresh :
  forall es (m : JsMap.t string LogEntry.t),
    NoDup (List.map LogEntry.id es) ->
    (forall e, In e es -> ~ In (LogEntry.id e) (JsMap.keys m)) ->
    fold_left (fun m entry => JsMap.set String.eqb (LogEntry.id entry) entry m) es m
    = (m ++ List.map (fun e => (LogEntry.id e, e)) es)%list.
Proof.
  induction es as [| e r IH]; intros m Hnd Hnew.
  - cbn. rewrite app_nil_r. reflexivity.
  - cbn [fold_left List.map]. cbn [List.map] in Hnd.
    inversion Hnd as [| ? ? Hfresh Hr]; subst.
    rewrite (set_fresh _ _ _ _ (Hnew e (or_introl eq_refl))).
    rewrite IH.
    + rewrite <- app_assoc. reflexivity.
    + exact Hr.
    + intros e' Hin Hin'. unfold JsMap.keys in Hin'. rewrite map_app in Hin'.
      apply in_app_or in Hin'. destruct Hin' as [H | [H | []]].
      * exact (Hnew e' (or_intror Hin) H).
      * apply Hfresh. cbn in H. rewrite H. apply in_map. exact Hin.
Qed.

Lemma get_app_fresh :
  forall (m : JsMap.t string LogEntry.t) es i,
    JsMap.get String.eqb i (m ++ List.map (fun e => (LogEntry.id e, e)) es)%list
    = match JsMap.get String.eqb i m with
      | Some e => Some e
      | None => JsMap.get String.eqb i (List.map (fun e => (LogEntry.id e, e)) es)
      end.
Proof.
  intros m es i. induction m as [| [k v] r IH]; cbn [app JsMap.get].
  - reflexivity.
  - destruct (k =? i); [reflexivity | exact IH].
Qed.

Lemma get_batch :
  forall es e,
    NoDup (List.map LogEntry.id es) -> In e es ->
    JsMap.get String.eqb (LogEntry.id e) (List.map (fun e => (LogEntry.id e, e)) es)
    = Some e.
Proof.
  induction es as [| x r IH]; intros e Hnd Hin; [destruct Hin |].
  cbn [List.map JsMap.get]. cbn [List.map] in Hnd.
  inversion Hnd as [| ? ? Hfresh Hr]; subst.
  destruct Hin as [<- | Hin].
  - rewrite String.eqb_refl. reflexivity.
  - destruct (String.eqb_spec (LogEntry.id x) (LogEntry.id e)) as [E | _].
    + elim Hfresh. rewrite E. apply in_map. exact Hin.
    + exact (IH e Hr Hin).
Qed.

Lemma get_batch_none :
  forall es i,
    ~ In i (List.map LogEntry.id es) ->
    JsMap.get String.eqb i (List.map (fun e => (LogEntry.id e, e)) es) = None.
Proof.
  induction es as [| x r IH]; intros i H; [reflexivity |].
  cbn [List.map JsMap.get]. cbn [List.map] in H.
  destruct (String.eqb_spec (LogEntry.id x) i) as [E | _].
  - elim H. left. exact E.
  - apply IH. intro Hin. apply H. right. exact Hin.
Qed.

End AddingRecords.



(* ------------------------------------------------------------------ *)
(** * The search index: the examples of a field *)

Lemma countValues_firstSeen :
  forall vs m,
    JsMap.keys (fold_left countValue vs m)
    = (JsMap.keys m ++ firstSeen (JsMap.keys m) vs)%list.
Proof.
  induction vs as [| v r IH]; intro m; cbn [fold_left firstSeen].
  - rewrite app_nil_r. reflexivity.
  - rewrite IH, countValue_keys.
    destruct (existsb (fun k => Js.sameValueZero k v) (JsMap.keys m)).
    + reflexivity.
    + rewrite <- app_assoc. reflexivity.
Qed.

Lemma firstSeen_nonempty :
  forall v r, firstSeen [] (v :: r) = v :: firstSeen [v] r.
Proof. intros v r. reflexivity. Qed.



(* ------------------------------------------------------------------ *)
(** * The filters [kql.ts] makes, as the search reads them *)

(** The filters made by [createLevelFilter], [createFileFilter] and
    [createTimeRangeFilter] mean what their names say when [matchesFilter]
    reads them: the level, and the file, is compared character for character
    and the negate flag inverts the outcome; the time range filter passes the
    records the time range of a query passes.  A search for one level filter
    returns the records of the search without it that have this level, in the
    same order. *)
Theorem filter_helpers_as_read_by_search :
  forall (h : Host) (textSearch : list LogEntry.t -> string -> bool -> list string)
         (idx : LogSearchIndex.t) (e : LogEntry.t),
    (forall level negate,
        LogSearchIndex.matchesFilter h e (KQL.createLevelFilter level negate)
        = xorb negate (LogEntry.level e =? level))
    /\ (forall file negate,
           LogSearchIndex.matchesFilter h e (KQL.createFileFilter file negate)
           = xorb negate (LogEntry.file e =? file))
    /\ (forall from to,
           LogSearchIndex.matchesFilter h e (KQL.createTimeRangeFilter from to)
           = LogSearchIndex.inTimeRange (TimeRange.mk from to) e)
    /\ (forall level range,
           SearchResult.entries
             (LogSearchIndex.search h textSearch idx
                (KQL.createFilterQuery [KQL.createLevelFilter level false] range))
           = List.filter (fun r => LogEntry.level r =? level)
               (SearchResult.entries
                  (LogSearchIndex.search h textSearch idx
                     (KQL.createFilterQuery [] range)))).
Proof.
  intros h textSearch idx e. split; [| split; [| split]].
  - intros level [|]; reflexivity.
  - intros file [|]; reflexivity.
  - intros from to. reflexivity.
  - intros level range.
    change (KQL.createFilterQuery [KQL.createLevelFilter level false] range)
      with (withFilters (KQL.createFilterQuery [] range)
              (SearchQuery.filters (KQL.createFilterQuery [] range)
               ++ [KQL.createLevelFilter level false])).
    rewrite !search_sorts_selected. cbn [SearchResult.entries].
    rewrite selected_with_more_filters. apply filter_ext. intro r.
    cbn. rewrite andb_true_r. reflexivity.
Qed.

(* ------------------------------------------------------------------ *)
(** * Completions *)

Section Completions.

Import Regex KQL.

(** A greedy star before the end of input takes everything or fails. *)
Lemma star_to_end :
  forall p (k : state -> option state) cs l pv,
    run false (Star p) (mkState pv l cs) (fun s' => run false Eol s' k)
    = if forallb p l then k (mkState (lastOf l pv) [] cs) else None.
Proof.
  intros p k cs. induction l as [| x xs IH]; intro pv.
  - reflexivity.
  - pose proof (IH (Some x)) as H. cbn [run prev rest caps] in H.
    cbn [run prev rest caps forallb]. rewrite H. unfold inClass.
    destruct (p x); [| reflexivity].
    cbn [andb]. destruct (forallb p xs); [| reflexivity].
    unfold lastOf. cbn [fold_left].
    destruct (k (mkState (fold_left (fun _ y => Some y) xs (Some x)) [] cs)); reflexivity.
Qed.

Lemma search_unfold :
  forall ci r pv l,
    search ci r pv l
    = match matchHere ci r pv l with
      | Some s' => Some (matchArray r (mkState pv l []) s')
      | None => match l with [] => None | x :: xs => search ci r (Some x) xs end
      end.
Proof. intros ci r pv l. destruct l; reflexivity. Qed.

(** The current word is the longest end of the text free of white space. *)
Lemma search_currentWord :
  forall l pv,
    search false currentWordPattern pv l = Some [Some (ofChars (lastRun l))].
Proof.
  induction l as [| c r IH]; intro pv.
  - reflexivity.
  - rewrite search_unfold. unfold matchHere, currentWordPattern. cbn [seqs].
    change (run false (Seq (Star notSpace) Eol) (mkState pv (c :: r) [])
                (fun s' => Some s'))
      with (run false (Star notSpace) (mkState pv (c :: r) [])
                (fun s' => run false Eol s' (fun s'' => Some s''))).
    rewrite star_to_end. cbn [lastRun].
    destruct (forallb notSpace (c :: r)).
    + unfold matchArray, consumed. cbn [rest List.length groups seq List.map].
      rewrite firstn_all2 by (cbn [List.length]; lia). reflexivity.
    + apply IH.
Qed.

Lemma lastRun_suffix :
  forall pre suf,
    forallb notSpace suf = true -> exists pre', lastRun (pre ++ suf) = (pre' ++ suf)%list.
Proof.
  induction pre as [| c p IH]; intros suf H.
  - exists []. destruct suf as [| x xs]; [reflexivity |].
    cbn [app lastRun]. rewrite H. reflexivity.
  - cbn [app lastRun]. destruct (forallb notSpace (c :: p ++ suf)).
    + exists (c :: p). reflexivity.
    + exact (IH suf H).
Qed.

Lemma prefix_In :
  forall p s c, prefix p s = true -> In c (chars p) -> In c (chars s).
Proof.
  induction p as [| x p IH]; intros s c H Hin; [destruct Hin |].
  destruct s as [| y s]; [discriminate H |].
  cbn [prefix] in H. destruct (ascii_dec x y) as [<- | _]; [| discriminate H].
  destruct Hin as [<- | Hin]; [left; reflexivity | right; exact (IH s c H Hin)].
Qed.

Lemma In_toLowerCase :
  forall s c, In c (chars s) -> In (lower c) (chars (toLowerCase s)).
Proof.
  induction s as [| x s IH]; intros c Hin; [destruct Hin |].
  destruct Hin as [<- | Hin]; [left; reflexivity | right; exact (IH c Hin)].
Qed.

(** No level name begins with a word that holds a colon. *)
Lemma no_level_after_colon :
  forall currentWord,
    In ":"%char (chars currentWord) ->
    forall suggestions,
      incl suggestions levelNames ->
      List.filter (fun s => startsWith (toLowerCase s) (toLowerCase currentWord))
                  suggestions = [].
Proof.
  intros cw Hcolon suggestions Hincl.
  induction suggestions as [| s r IH]; [reflexivity |].
  cbn [List.filter].
  rewrite IH; [| intros x Hx; apply Hincl; right; exact Hx].
  destruct (startsWith (toLowerCase s) (toLowerCase cw)) eqn:E; [| reflexivity].
  exfalso. unfold startsWith in E.
  pose proof (prefix_In _ _ _ E (In_toLowerCase cw ":" Hcolon)) as Hin.
  change (lower ":") with ":"%char in Hin.
  assert (Hs : In s levelNames) by (apply Hincl; left; reflexivity).
  unfold levelNames in Hs.
  repeat (destruct Hs as [<- | Hs];
          [cbn in Hin;
           repeat (destruct Hin as [Hin | Hin]; [discriminate Hin |]); exact Hin |]).
  exact Hs.
Qed.

(** A match that exists further on is found, there or before. *)
Lemma search_found :
  forall ci r pre pv suf,
    (forall pv', matchHere ci r pv' suf <> None) ->
    search ci r pv (pre ++ suf) <> None.
Proof.
  induction pre as [| c p IH]; intros pv suf H; rewrite search_unfold; cbn [app].
  - pose proof (H pv) as Hpv. destruct (matchHere ci r pv suf); [discriminate | elim Hpv; reflexivity].
  - destruct (matchHere ci r pv (c :: p ++ suf)); [discriminate |].
    apply IH. exact H.
Qed.

Lemma notSpace_head :
  forall v, forallb notSpace v = true ->
            match v with [] => True | y :: _ => inClass false isSpace y = false end.
Proof.
  intros [| y v] H; [exact I |]. cbn [forallb] in H. apply andb_prop in H.
  unfold notSpace in H. apply negb_true_iff. exact (proj1 H).
Qed.

Lemma run_Seq :
  forall ci a b s k, run ci (Seq a b) s k = run ci a s (fun s' => run ci b s' k).
Proof. reflexivity. Qed.

Lemma run_Grp :
  forall ci n a s k,
    run ci (Grp n a) s k
    = run ci a s (fun s' => k (mkState (prev s') (rest s') ((n, consumed s s') :: caps s'))).
Proof. reflexivity. Qed.

Lemma run_Chr :
  forall ci c pv x xs cs k,
    run ci (Chr c) (mkState pv (x :: xs) cs) k
    = if eqChar ci c x then k (mkState (Some x) xs cs) else None.
Proof. reflexivity. Qed.

(** The pattern of a field and its value matches at a word, a colon and
    characters that are no white space up to the end. *)
Lemma matchHere_fieldValue :
  forall pv x w v,
    isWord x = true -> forallb isWord w = true -> forallb notSpace v = true ->
    matchHere false fieldValuePattern pv (x :: w ++ ":"%char :: v) <> None.
Proof.
  intros pv x w v Hx Hw Hv.
  assert (H : exists out,
             matchHere false fieldValuePattern pv (x :: w ++ ":"%char :: v) = Some out).
  { eexists. unfold matchHere, fieldValuePattern. cbn [seqs].
    rewrite run_Seq, run_Grp.
    apply plus_all.
    - exact Hx.
    - exact Hw.
    - reflexivity.
    - cbn [rest prev caps]. rewrite run_Seq, run_Chr.
      change (eqChar false ":" ":") with true. cbv iota.
      rewrite run_Seq.
      apply (star_all false isSpace _ _ [] _ v).
      + reflexivity.
      + exact (notSpace_head v Hv).
      + cbn [lastOf fold_left]. rewrite run_Seq.
        rewrite <- (app_nil_r v) at 1.
        apply (star_all false notSpace _ _ v _ []).
        * exact Hv.
        * exact I.
        * reflexivity. }
  destruct H as [out ->]. discriminate.
Qed.

End Completions.



(** With white space after the colon the level names are suggested, and
    away from a colon the field names are. *)
Remark suggestions_elsewhere :
  KQL.getSuggestions "level: ER" 9 ["level"; "service"] = ["ERROR"]
  /\ KQL.getSuggestions "level: " 7 ["level"; "service"] = KQL.levelNames
  /\ KQL.getSuggestions "se" 2 ["level"; "service"] = ["service:"]
  /\ KQL.getSuggestions "host:x" 6 ["level"; "service"] = [].
Proof. repeat split; reflexivity. Qed.


(* ------------------------------------------------------------------ *)
(** * The parser: what a record holds *)

Section Records.

Variable h : Host.
Variable now : Z.

Lemma normalizeLogLevel_canonical : forall s, canonicalLevel (normalizeLogLevel s).
Proof.
  intro s. destruct (normalizeLogLevel_cases s) as [[_ ->] | [[l [_ ->]] | [_ [_ ->]]]].
  - exists WARN. reflexivity.
  - exists l. reflexivity.
  - exists INFO. reflexivity.
Qed.

Lemma detectLevelInText_canonical :
  forall text, canonicalLevel (LogParser.detectLevelInText text).
Proof.
  intro text. unfold LogParser.detectLevelInText.
  destruct (LogParser.firstMatch true LogParser.LEVEL_PATTERNS text).
  - apply normalizeLogLevel_canonical.
  - destruct (includes (toLowerCase text) "fatal" || includes (toLowerCase text) "critical");
      [exists FATAL; reflexivity |].
    destruct (includes (toLowerCase text) "error" || includes (toLowerCase text) "exception"
              || includes (toLowerCase text) "fail"); [exists ERROR; reflexivity |].
    destruct (includes (toLowerCase text) "warn" || includes (toLowerCase text) "warning");
      [exists WARN; reflexivity |].
    destruct (includes (toLowerCase text) "debug"); [exists DEBUG; reflexivity |].
    destruct (includes (toLowerCase text) "trace"); [exists TRACE; reflexivity |].
    exists INFO. reflexivity.
Qed.

Lemma matchPatterns_level :
  forall patterns line ts lv msg,
    LogParser.matchPatterns h now patterns line = Some (ts, lv, msg) ->
    canonicalLevel lv.
Proof.
  induction patterns as [| pattern more IH]; intros line ts lv msg H.
  - discriminate H.
  - cbn [LogParser.matchPatterns] in H.
    destruct (Regex.exec true pattern line) as [m |]; [| exact (IH _ _ _ _ H)].
    destruct ((List.length m =? 4)%nat && LogParser.looksLikeTimestamp (Regex.group m 1)).
    { injection H as _ <- _. apply normalizeLogLevel_canonical. }
    destruct ((List.length m =? 4)%nat && LogParser.looksLikeTimestamp (Regex.group m 2)).
    { injection H as _ <- _. apply normalizeLogLevel_canonical. }
    destruct (List.length m =? 3)%nat.
    { injection H as _ <- _. apply normalizeLogLevel_canonical. }
    exact (IH _ _ _ _ H).
Qed.

Lemma extractLevel_canonical :
  forall json lv, LogParser.extractLevel h json = Return lv -> canonicalLevel lv.
Proof.
  intros json lv H. unfold LogParser.extractLevel in H.
  destruct (LogParser.readable json); [| discriminate H]. cbn [bind] in H.
  destruct (LogParser.firstTruthy json LogParser.levelFields) as [v |].
  - destruct v; try discriminate H. injection H as <-. apply normalizeLogLevel_canonical.
  - destruct (JSON.stringify h json); [| discriminate H].
    injection H as <-. apply detectLevelInText_canonical.
Qed.

Lemma stringify_object_nonempty :
  forall ps text, JSON.stringify h (JObj ps) = Some text -> text <> "".
Proof. intros ps text H. cbn [JSON.stringify] in H. injection H as <-. discriminate. Qed.

Lemma firstString_nonempty :
  forall json names s, LogParser.firstString json names = Some s -> s <> "".
Proof.
  intros json names s. induction names as [| f r IH]; intro H; [discriminate H |].
  cbn [LogParser.firstString] in H.
  destruct (Js.get json f); try exact (IH H).
  destruct (nonEmpty s0) eqn:E; [| exact (IH H)].
  injection H as <-. intro E'. subst. discriminate E.
Qed.

(** What every record [parseLine] returns holds. *)
Lemma parseLine_record :
  forall p newId line fileName n e,
    LogParser.parseLine h now p newId line fileName n = Return (Some e) ->
    LogEntry.id e = newId /\ LogEntry.raw e = line /\ LogEntry.file e = fileName
    /\ LogEntry.lineNumber e = Some n /\ canonicalLevel (LogEntry.level e)
    /\ nonEmpty (trim line) = true.
Proof.
  intros p newId line fileName n e H. unfold LogParser.parseLine in H.
  destruct (nonEmpty (trim line)) eqn:Hline; [| discriminate H]. cbn [negb] in H.
  destruct (LogParser.jsonDetection p && LogParser.looksLikeJson line).
  - unfold LogParser.parseJsonLine in H.
    destruct (JSON.parse line) as [json |]; [| discriminate H].
    unfold LogParser.entryOfJson in H.
    destruct (LogParser.extractTimestamp h now json) as [ts | err]; [| discriminate H].
    cbn [bind] in H.
    destruct (LogParser.extractLevel h json) as [lv | err] eqn:Hlv; [| discriminate H].
    cbn [bind] in H.
    destruct (LogParser.extractMessage h json) as [msg | err]; [| discriminate H].
    cbn [bind] in H. injection H as <-. cbn.
    repeat split. exact (extractLevel_canonical json lv Hlv).
  - unfold LogParser.parseTextLine in H.
    destruct (LogParser.matchPatterns h now LogParser.linePatterns line)
      as [[[ts lv] msg] |] eqn:Hm; injection H as <-; cbn; repeat split.
    + exact (matchPatterns_level _ _ _ _ _ Hm).
    + apply detectLevelInText_canonical.
Qed.

(** On a line that is not blank [parseLine] returns a record or throws. *)
Lemma parseLine_nonblank :
  forall p newId line fileName n,
    nonEmpty (trim line) = true ->
    LogParser.parseLine h now p newId line fileName n <> Return None.
Proof.
  intros p newId line fileName n Hline. unfold LogParser.parseLine.
  rewrite Hline. cbn [negb].
  destruct (LogParser.jsonDetection p && LogParser.looksLikeJson line).
  - unfold LogParser.parseJsonLine.
    destruct (match JSON.parse line with
              | Some json => LogParser.entryOfJson h now newId json line fileName n
              | None => Throw SyntaxError
              end); discriminate.
  - destruct (parseTextLine_returns h now newId line fileName n) as [e [-> _]].
    discriminate.
Qed.

(** [parseLine] reads of the parser its options only. *)
Lemma parseLine_options :
  forall p p' newId line fileName n,
    LogParser.options p = LogParser.options p' ->
    LogParser.parseLine h now p newId line fileName n
    = LogParser.parseLine h now p' newId line fileName n.
Proof.
  intros p p' newId line fileName n E. unfold LogParser.parseLine, LogParser.jsonDetection.
  rewrite E. reflexivity.
Qed.

End Records.

(** Every record [parseLine] returns carries one of the six level names,
    whatever the line and the options, and with it the id handed out for
    the line, the line as its raw text, the file name and the line number. *)
Theorem parseLine_record_is_well_formed :
  forall (h : Host) (now : Z) (p : LogParser.t) (newId line fileName : string) (n : nat)
         (e : LogEntry.t),
    LogParser.parseLine h now p newId line fileName n = Return (Some e) ->
    (exists l, LogEntry.level e = levelName l)
    /\ LogEntry.id e = newId /\ LogEntry.raw e = line /\ LogEntry.file e = fileName
    /\ LogEntry.lineNumber e = Some n.
Proof.
  intros h now p newId line fileName n e H.
  destruct (parseLine_record h now p newId line fileName n e H)
    as [Hid [Hraw [Hfile [Hn [Hlv _]]]]].
  split; [exact Hlv |]. repeat split; assumption.
Qed.

(** The line [CRITICAL: disk full]: the pattern takes the word CRITICAL,
    which the normalizer does not know, and the level is INFO. *)
Lemma parseLine_record_witness :
  exists l, LogEntry.level criticalRecord = levelName l.
Proof.
  destruct (parseLine_record_is_well_formed bareHost 0 LogParser.default "id"
              "CRITICAL: disk full" "app.log" 1 criticalRecord eq_refl) as [H _].
  exact H.
Defined.

(* ------------------------------------------------------------------ *)
(** * The parser: a whole file *)

Section Trimming.

Lemma dropWhile_head :
  forall (p : ascii -> bool) l,
    match dropWhile p l with [] => True | c :: _ => p c = false end.
Proof.
  intros p l. induction l as [| c r IH]; cbn [dropWhile]; [exact I |].
  destruct (p c) eqn:E; [exact IH | exact E].
Qed.

(** What [trim] leaves is empty or has no white space at either end. *)
Lemma trimChars_clean :
  forall l, trimChars l = [] \/ edgesOk (trimChars l) = true.
Proof.
  intro l. unfold trimChars.
  pose proof (dropWhile_head isSpace l) as Ha.
  pose proof (dropWhile_head isSpace (rev (dropWhile isSpace l))) as Hb.
  destruct (dropWhile_split isSpace (rev (dropWhile isSpace l))) as [ws [E _]].
  destruct (dropWhile isSpace (rev (dropWhile isSpace l))) as [| d b'] eqn:Eb.
  - left. reflexivity.
  - right. unfold edgesOk. rewrite rev_involutive, Hb. cbn [negb]. rewrite andb_true_r.
    apply (f_equal (@rev ascii)) in E. rewrite rev_involutive, rev_app_distr in E.
    destruct (rev (d :: b')) as [| c0 r0] eqn:Er.
    + apply (f_equal (@List.length ascii)) in Er. rewrite length_rev in Er. discriminate Er.
    + rewrite E in Ha. cbn [app] in Ha. rewrite Ha. reflexivity.
Qed.

Lemma trim_trim : forall s, trim (trim s) = trim s.
Proof.
  intro s. unfold trim. rewrite chars_ofChars.
  destruct (trimChars_clean (chars s)) as [-> | H]; [reflexivity |].
  rewrite (proj1 (trimChars_edges _ H)). reflexivity.
Qed.

End Trimming.

Section WholeFile.

Variable h : Host.
Variable now : Z.
Variable ids : nat -> string.

Lemma addError_options :
  forall p n c e, LogParser.options (LogParser.addError p n c e) = LogParser.options p.
Proof.
  intros p n c e. unfold LogParser.addError.
  destruct (List.length (LogParser.errors p) <? _)%nat; reflexivity.
Qed.

Lemma addError_errors :
  forall p n c e,
    LogParser.errors (LogParser.addError p n c e)
    = if (List.length (LogParser.errors p) <? errorCap p)%nat
      then (LogParser.errors p ++ [ParseError.mk n c e])%list
      else LogParser.errors p.
Proof.
  intros p n c e. unfold LogParser.addError, errorCap.
  destruct (LogParser.maxErrors (LogParser.options p)) as [[| m] |];
    destruct (List.length (LogParser.errors p) <? _)%nat; reflexivity.
Qed.

Lemma errorCap_options :
  forall p p', LogParser.options p = LogParser.options p' -> errorCap p = errorCap p'.
Proof. intros p p' E. unfold errorCap. rewrite E. reflexivity. Qed.

Lemma errorCap_positive : forall p, 1 <= errorCap p.
Proof.
  intro p. unfold errorCap.
  destruct (LogParser.maxErrors (LogParser.options p)) as [[| m] |]; lia.
Qed.

(** The counts the loop of [parseFile] keeps. *)
Lemma parseLines_counts :
  forall fileName lines p i es es' p',
    LogParser.parseLines h now ids p fileName i lines es = (es', p') ->
    LogParser.options p' = LogParser.options p
    /\ List.length (LogParser.errors p) <= List.length (LogParser.errors p')
    /\ List.length es <= List.length es'
    /\ List.length es' + List.length (LogParser.errors p')
       <= List.length es + List.length (LogParser.errors p)
          + List.length (List.filter (fun l => nonEmpty (trim l)) lines)
    /\ List.length (LogParser.errors p')
       <= Nat.max (List.length (LogParser.errors p)) (errorCap p)
    /\ (List.length (LogParser.errors p') < errorCap p ->
        List.length es' + List.length (LogParser.errors p')
        = List.length es + List.length (LogParser.errors p)
          + List.length (List.filter (fun l => nonEmpty (trim l)) lines)).
Proof.
  intros fileName. induction lines as [| l more IH]; intros p i es es' p' H.
  - injection H as <- <-. cbn [List.filter List.length]. repeat split; lia.
  - cbn [LogParser.parseLines] in H. cbn [List.filter].
    destruct (nonEmpty (trim l)) eqn:Hl; cbn [negb] in H.
    + pose proof (parseLine_nonblank h now p (ids i) (trim l) fileName (i + 1)) as Hnb.
      rewrite trim_trim in Hnb. specialize (Hnb Hl).
      destruct (LogParser.parseLine h now p (ids i) (trim l) fileName (i + 1))
        as [[e |] | err].
      * destruct (IH _ _ _ _ _ H) as [Ho [He [Hs [Hle [Hcap Heq]]]]].
        rewrite length_app in Hs, Hle, Heq. cbn [List.length] in *.
        repeat split; try lia. exact Ho.
      * elim Hnb. reflexivity.
      * destruct (IH _ _ _ _ _ H) as [Ho [He [Hs [Hle [Hcap Heq]]]]].
        rewrite addError_options in Ho.
        rewrite (errorCap_options _ _ (addError_options p (i + 1) (trim l) err)) in Hcap, Heq.
        rewrite addError_errors in He, Hle, Hcap, Heq.
        destruct (Nat.ltb_spec (List.length (LogParser.errors p)) (errorCap p)) as [Hlt | Hge];
          [rewrite length_app in He, Hle, Hcap, Heq |]; cbn [List.length] in *;
          repeat split; try lia; exact Ho.
    + destruct (IH _ _ _ _ _ H) as [Ho [He [Hs [Hle [Hcap Heq]]]]].
      repeat split; try lia. exact Ho.
Qed.

Lemma splitLinesFrom_length :
  forall l cur,
    List.length (LogParser.splitLinesFrom cur l)
    = S (List.length (List.filter (fun c => (code c =? 10)%N) l)).
Proof.
  induction l as [| c r IH]; intro cur; cbn [LogParser.splitLinesFrom List.filter].
  - reflexivity.
  - destruct (code c =? 10)%N; cbn [List.length]; rewrite IH; reflexivity.
Qed.

End WholeFile.



Section LinesOfAFile.

Variable h : Host.
Variable now : Z.
Variable ids : nat -> string.

Lemma madeOfLine_later :
  forall fileName l more i e,
    madeOfLine ids fileName more (S i) e -> madeOfLine ids fileName (l :: more) i e.
Proof.
  intros fileName l more i e [k [Hk [Hn [Hraw [Hfile Hid]]]]].
  exists (S k). cbn [List.length nth]. repeat split.
  - lia.
  - rewrite Hn. f_equal. lia.
  - exact Hraw.
  - exact Hfile.
  - rewrite Hid. f_equal. lia.
Qed.

Lemma recordedForLine_later :
  forall l more i err,
    recordedForLine more (S i) err -> recordedForLine (l :: more) i err.
Proof.
  intros l more i err [k [Hk [Hn Hc]]].
  exists (S k). cbn [List.length nth]. repeat split; [lia | lia | exact Hc].
Qed.

Lemma madeOfLine_lineOf :
  forall fileName lines i e, madeOfLine ids fileName lines i e -> i < lineOf e.
Proof.
  intros fileName lines i e [k [_ [Hn _]]]. unfold lineOf. rewrite Hn. lia.
Qed.

(** The records and the errors the loop of [parseFile] adds. *)
Lemma parseLines_trace :
  forall fileName lines p i es es' p',
    LogParser.parseLines h now ids p fileName i lines es = (es', p') ->
    exists added,
      es' = (es ++ added)%list
      /\ Forall (madeOfLine ids fileName lines i) added
      /\ StronglySorted earlierLine added
      /\ exists recorded,
          LogParser.errors p' = (LogParser.errors p ++ recorded)%list
          /\ Forall (recordedForLine lines i) recorded.
Proof.
  intros fileName. induction lines as [| l more IH]; intros p i es es' p' H.
  - injection H as <- <-. exists []. rewrite app_nil_r.
    split; [reflexivity |]. split; [constructor |]. split; [constructor |].
    exists []. rewrite app_nil_r. split; [reflexivity | constructor].
  - cbn [LogParser.parseLines] in H.
    assert (Hlift : forall p0 es0,
               LogParser.parseLines h now ids p0 fileName (S i) more es0 = (es', p') ->
               exists added,
                 es' = (es0 ++ added)%list
                 /\ Forall (madeOfLine ids fileName (l :: more) i) added
                 /\ Forall (fun e => S i < lineOf e) added
                 /\ StronglySorted earlierLine added
                 /\ exists recorded,
                     LogParser.errors p' = (LogParser.errors p0 ++ recorded)%list
                     /\ Forall (recordedForLine (l :: more) i) recorded).
    { intros p0 es0 H0.
      destruct (IH _ _ _ _ _ H0) as [added [E [Hmade [Hsorted [recorded [Eerr Hrec]]]]]].
      exists added. split; [exact E |].
      split; [eapply Forall_impl; [| exact Hmade]; intro e; apply madeOfLine_later |].
      split; [eapply Forall_impl; [| exact Hmade]; intro e; apply madeOfLine_lineOf |].
      split; [exact Hsorted |].
      exists recorded. split; [exact Eerr |].
      eapply Forall_impl; [| exact Hrec]. intro err. apply recordedForLine_later. }
    destruct (negb (nonEmpty (trim l))).
    + destruct (Hlift _ _ H) as [added [E [Hmade [_ [Hsorted Herr]]]]].
      exists added. repeat split; assumption.
    + destruct (LogParser.parseLine h now p (ids i) (trim l) fileName (i + 1))
        as [[e |] | err] eqn:Hline.
      * destruct (Hlift _ _ H) as [added [E [Hmade [Hlater [Hsorted Herr]]]]].
        destruct (parseLine_record h now p (ids i) (trim l) fileName (i + 1) e Hline)
          as [Hid [Hraw [Hfile [Hn _]]]].
        exists (e :: added). rewrite <- app_assoc in E.
        split; [exact E |].
        split.
        { constructor; [| exact Hmade]. exists 0. cbn [List.length nth].
          split; [lia |]. split; [rewrite Hn; f_equal; lia |].
          split; [exact Hraw |]. split; [exact Hfile |].
          rewrite Hid. f_equal. lia. }
        split; [| exact Herr].
        constructor; [exact Hsorted |].
        eapply Forall_impl; [| exact Hlater]. intros e' He'. cbv beta in He'.
        unfold earlierLine. unfold lineOf at 1. rewrite Hn. lia.
      * destruct (Hlift _ _ H) as [added [E [Hmade [_ [Hsorted Herr]]]]].
        exists added. repeat split; assumption.
      * destruct (Hlift _ _ H) as [added [E [Hmade [_ [Hsorted [recorded [Eerr Hrec]]]]]]].
        exists added. split; [exact E |]. split; [exact Hmade |]. split; [exact Hsorted |].
        rewrite addError_errors in Eerr.
        destruct (List.length (LogParser.errors p) <? errorCap p)%nat.
        -- exists (ParseError.mk (i + 1) (trim l) err :: recorded).
           rewrite <- app_assoc in Eerr. split; [exact Eerr |].
           constructor; [| exact Hrec]. exists 0. cbn [List.length nth].
           split; [lia |]. split; [cbn; lia | reflexivity].
        -- exists recorded. split; assumption.
Qed.

End LinesOfAFile.


(* ------------------------------------------------------------------ *)
(** * The parser worker *)

Section Chunks.

Variable h : Host.
Variable now : Z.
Variable ids : nat -> string.

Import ParserWorker.

(** The loop of [parseChunk] makes the records the loop of [parseFile]
    makes. *)
Lemma chunkLines_parseLines :
  forall fileName lines p p0 i es,
    LogParser.options p = LogParser.options p0 ->
    chunkLines h now ids p0 fileName 1 i lines es
    = fst (LogParser.parseLines h now ids p fileName i lines es).
Proof.
  intros fileName. induction lines as [| l more IH]; intros p p0 i es Ho.
  - reflexivity.
  - cbn [chunkLines LogParser.parseLines].
    rewrite (parseLine_options h now p p0 (ids i) (trim l) fileName (i + 1) Ho).
    replace (1 + i) with (i + 1) by lia.
    destruct (nonEmpty (trim l)); cbn [negb].
    + destruct (LogParser.parseLine h now p0 (ids i) (trim l) fileName (i + 1))
        as [[e |] | err]; try (apply IH; exact Ho).
      apply IH. rewrite addError_options. exact Ho.
    + apply IH. exact Ho.
Qed.

Lemma splitLinesFrom_nonempty :
  forall l cur, LogParser.splitLinesFrom cur l <> [].
Proof.
  induction l as [| c r IH]; intro cur; cbn [LogParser.splitLinesFrom].
  - discriminate.
  - destruct (code c =? 10)%N; [discriminate | apply IH].
Qed.

(** The lines of a text in two parts: the complete lines of the first
    part, then the lines of its last line followed by the second part. *)
Lemma splitLinesFrom_app :
  forall a b cur,
    LogParser.splitLinesFrom cur (a ++ b)
    = (removelast (LogParser.splitLinesFrom cur a)
       ++ LogParser.splitLinesFrom
            (rev (chars (last (LogParser.splitLinesFrom cur a) ""))) b)%list.
Proof.
  induction a as [| c r IH]; intros b cur.
  - cbn [app LogParser.splitLinesFrom removelast last].
    rewrite chars_ofChars, rev_involutive. reflexivity.
  - cbn [app LogParser.splitLinesFrom]. destruct (code c =? 10)%N.
    + rewrite IH.
      pose proof (splitLinesFrom_nonempty r []) as Hne.
      destruct (LogParser.splitLinesFrom [] r) as [| x xs] eqn:E; [elim Hne; reflexivity |].
      reflexivity.
    + apply IH.
Qed.

Lemma splitLinesFrom_oneLine :
  forall x cur b,
    forallb (fun c => negb (code c =? 10)%N) x = true ->
    LogParser.splitLinesFrom cur (x ++ b) = LogParser.splitLinesFrom (rev x ++ cur) b.
Proof.
  induction x as [| c r IH]; intros cur b H; [reflexivity |].
  cbn [forallb] in H. apply andb_prop in H. destruct H as [Hc Hr].
  apply negb_true_iff in Hc.
  cbn [app LogParser.splitLinesFrom]. rewrite Hc. rewrite (IH (c :: cur) b Hr).
  cbn [rev]. rewrite <- app_assoc. reflexivity.
Qed.

(** No line holds a line feed. *)
Lemma splitLinesFrom_lines :
  forall l cur,
    forallb (fun c => negb (code c =? 10)%N) cur = true ->
    Forall (fun line => oneLine line = true) (LogParser.splitLinesFrom cur l).
Proof.
  assert (Hline : forall cur,
             forallb (fun c => negb (code c =? 10)%N) cur = true ->
             oneLine (ofChars (rev cur)) = true).
  { intros cur H. unfold oneLine. rewrite chars_ofChars.
    rewrite forallb_forall in *. intros x Hx. apply H. apply in_rev. exact Hx. }
  induction l as [| c r IH]; intros cur Hcur; cbn [LogParser.splitLinesFrom].
  - constructor; [exact (Hline cur Hcur) | constructor].
  - destruct (code c =? 10)%N eqn:Hc.
    + constructor; [exact (Hline cur Hcur) | apply IH; reflexivity].
    + apply IH. cbn [forallb]. rewrite Hc. exact Hcur.
Qed.

Lemma last_oneLine :
  forall l, oneLine (last (LogParser.splitLinesFrom [] l) "") = true.
Proof.
  intro l. pose proof (splitLinesFrom_lines l [] eq_refl) as H.
  pose proof (splitLinesFrom_nonempty l []) as Hne.
  destruct (LogParser.splitLinesFrom [] l) as [| x xs]; [elim Hne; reflexivity |].
  rewrite Forall_forall in H. apply H.
  destruct (exists_last (l := x :: xs) ltac:(discriminate)) as [pre [z E]].
  rewrite E. rewrite last_last. apply in_or_app. right. left. reflexivity.
Qed.

(** The lines of two texts one after the other. *)
Lemma splitLines_app :
  forall a b,
    LogParser.splitLinesFrom [] (a ++ b)
    = (removelast (LogParser.splitLinesFrom [] a)
       ++ LogParser.splitLinesFrom []
            (chars (last (LogParser.splitLinesFrom [] a) "") ++ b))%list.
Proof.
  intros a b. rewrite splitLinesFrom_app.
  rewrite (splitLinesFrom_oneLine _ [] b (last_oneLine a)), app_nil_r. reflexivity.
Qed.

Lemma completeLines_app :
  forall p fileName a b st,
    completeLines h now ids p fileName (a ++ b) st
    = completeLines h now ids p fileName b (completeLines h now ids p fileName a st).
Proof.
  intros p fileName. induction a as [| l more IH]; intros b st; [reflexivity |].
  cbn [app completeLines]. apply IH.
Qed.

Lemma completeLines_withBuffer :
  forall p fileName lines b st,
    completeLines h now ids p fileName lines (withBuffer b st)
    = withBuffer b (completeLines h now ids p fileName lines st).
Proof.
  intros p fileName. induction lines as [| l more IH]; intros b st; [reflexivity |].
  destruct st as [bf ln tl es er].
  cbn [completeLines withBuffer lineNumber totalLines entries errors buffer].
  destruct (nonEmpty (trim l)).
  - destruct (LogParser.parseLine h now p (ids (ln - 1)) l fileName ln) as [[e |] | err];
      cbn [lineNumber totalLines entries errors buffer];
      match goal with
      | |- completeLines _ _ _ _ _ _ (mkReading _ ?n ?t ?xs ?ys) = _ =>
          exact (IH b (mkReading bf n t xs ys))
      end.
  - cbn [lineNumber totalLines entries errors buffer].
    exact (IH b (mkReading bf (S ln) (S tl) es er)).
Qed.

Lemma completeLines_lineNumber :
  forall p fileName lines st,
    lineNumber (completeLines h now ids p fileName lines st)
    = lineNumber st + List.length lines
    /\ buffer (completeLines h now ids p fileName lines st) = buffer st.
Proof.
  intros p fileName. induction lines as [| l more IH]; intro st.
  - cbn. split; [lia | reflexivity].
  - destruct st as [bf ln tl es er].
    cbn [completeLines List.length lineNumber totalLines entries errors buffer].
    destruct (nonEmpty (trim l)).
    + destruct (LogParser.parseLine h now p (ids (ln - 1)) l fileName ln) as [[e |] | err];
        cbn [lineNumber totalLines entries errors buffer];
        match goal with
        | |- lineNumber (completeLines _ _ _ _ _ _ ?s) = _ /\ _ =>
            destruct (IH s) as [Hn Hb]; rewrite Hn, Hb
        end; cbn [lineNumber buffer]; split; try lia; reflexivity.
    + cbn [lineNumber totalLines entries errors buffer].
      match goal with
      | |- lineNumber (completeLines _ _ _ _ _ _ ?s) = _ /\ _ =>
          destruct (IH s) as [Hn Hb]; rewrite Hn, Hb
      end; cbn [lineNumber buffer]; split; try lia; reflexivity.
Qed.

Lemma readChunk_eq :
  forall p fileName st text,
    readChunk h now ids p fileName st text
    = completeLines h now ids p fileName
        (removelast (LogParser.splitLinesFrom [] (chars (buffer st) ++ chars text)))
        (withBuffer (last (LogParser.splitLinesFrom [] (chars (buffer st) ++ chars text)) "")
                    st).
Proof.
  intros p fileName st text. unfold readChunk, LogParser.splitLines.
  rewrite chars_append. reflexivity.
Qed.

Lemma last_app_nonempty :
  forall (a b : list string) d, b <> [] -> last (a ++ b) d = last b d.
Proof.
  intros a b d Hb. induction a as [| x a IH]; [reflexivity |].
  cbn [app]. destruct (a ++ b)%list eqn:E.
  - apply app_eq_nil in E. elim Hb. exact (proj2 E).
  - change (last (x :: s :: l) d) with (last (s :: l) d). exact IH.
Qed.

Lemma withBuffer_withBuffer :
  forall b b' st, withBuffer b (withBuffer b' st) = withBuffer b st.
Proof. reflexivity. Qed.

(** Reading a chunk and then another is reading the two as one chunk. *)
Lemma readChunk_app :
  forall p fileName st a b,
    readChunk h now ids p fileName (readChunk h now ids p fileName st a) b
    = readChunk h now ids p fileName st (a ++ b).
Proof.
  intros p fileName st a b.
  rewrite (readChunk_eq p fileName st (a ++ b)), chars_append, app_assoc, splitLines_app.
  rewrite (readChunk_eq p fileName _ b).
  rewrite (readChunk_eq p fileName st a).
  set (L1 := LogParser.splitLinesFrom [] (chars (buffer st) ++ chars a)).
  rewrite (proj2 (completeLines_lineNumber p fileName (removelast L1)
                    (withBuffer (last L1 "") st))).
  cbn [withBuffer buffer].
  set (L2 := LogParser.splitLinesFrom [] (chars (last L1 "") ++ chars b)).
  assert (Hne : L2 <> []) by apply splitLinesFrom_nonempty.
  rewrite (removelast_app (removelast L1) Hne), (last_app_nonempty _ _ "" Hne).
  rewrite completeLines_app.
  rewrite <- (completeLines_withBuffer p fileName (removelast L1) (last L2 "")).
  reflexivity.
Qed.

Lemma readChunk_empty :
  forall p fileName st,
    oneLine (buffer st) = true ->
    readChunk h now ids p fileName st "" = st.
Proof.
  intros p fileName st H. rewrite readChunk_eq.
  change (chars "") with (@nil ascii).
  rewrite (splitLinesFrom_oneLine (chars (buffer st)) [] [] H), app_nil_r.
  cbn [LogParser.splitLinesFrom removelast last completeLines].
  rewrite rev_involutive, ofChars_chars. destruct st. reflexivity.
Qed.

Lemma readChunk_oneLine :
  forall p fileName st text,
    oneLine (buffer (readChunk h now ids p fileName st text)) = true.
Proof.
  intros p fileName st text. rewrite readChunk_eq.
  rewrite (proj2 (completeLines_lineNumber _ _ _ _)). cbn [withBuffer buffer].
  apply last_oneLine.
Qed.

(** The read loop over the chunks is one turn on their whole text. *)
Lemma readChunks_whole :
  forall p fileName chunks st,
    oneLine (buffer st) = true ->
    fold_left (readChunk h now ids p fileName) chunks st
    = readChunk h now ids p fileName st (wholeText chunks).
Proof.
  intros p fileName. induction chunks as [| c r IH]; intros st H.
  - cbn [fold_left wholeText fold_right]. symmetry. apply readChunk_empty. exact H.
  - cbn [fold_left wholeText fold_right].
    rewrite (IH _ (readChunk_oneLine p fileName st c)). apply readChunk_app.
Qed.

End Chunks.

(** [parseChunk] on a whole text from line 1 returns the records
    [parseFile] of a parser with the same options returns: the same lines
    give the same records, in the same order, with the same line numbers.
    What differs is that [parseChunk] drops the errors. *)
Theorem parseChunk_agrees_with_parseFile :
  forall (h : Host) (now : Z) (ids : nat -> string) (options : LogParser.ParseOptions)
         (text fileName : string) (fileSize : nat),
    ParserWorker.parseChunk h now ids options text fileName 1
    = ParsedLog.entries
        (fst (LogParser.parseFile h now ids (LogParser.new options) text fileName fileSize)).
Proof.
  intros h now ids options text fileName fileSize.
  unfold ParserWorker.parseChunk, LogParser.parseFile.
  rewrite (chunkLines_parseLines h now ids fileName (LogParser.splitLines text)
             (LogParser.mk (LogParser.options (LogParser.new options)) [])
             (LogParser.new options) 0 [] eq_refl).
  destruct (LogParser.parseLines h now ids
              (LogParser.mk (LogParser.options (LogParser.new options)) [])
              fileName 0 (LogParser.splitLines text) []) as [es p'].
  reflexivity.
Qed.

(** What the worker's [parseFile] returns depends on the text its stream
    delivers, not on how the stream is cut into chunks: the chunks give what
    their whole text gives as a single chunk. *)
Theorem worker_parseFile_ignores_chunking :
  forall (h : Host) (now : Z) (ids : nat -> string) (options : LogParser.ParseOptions)
         (fileName : string) (fileSize : nat) (chunks : list string),
    ParserWorker.parseFile h now ids options fileName fileSize chunks
    = ParserWorker.parseFile h now ids options fileName fileSize [wholeText chunks].
Proof.
  intros h now ids options fileName fileSize chunks. unfold ParserWorker.parseFile.
  rewrite (readChunks_whole h now ids _ fileName chunks ParserWorker.start eq_refl).
  reflexivity.
Qed.

Section LastLine.

Variable h : Host.
Variable now : Z.
Variable ids : nat -> string.

Import ParserWorker.

Lemma finishReading_fails :
  forall p fileName fileSize st cause,
    finishReading h now ids p fileName fileSize st = FailedToParseFile cause
    <-> nonEmpty (trim (buffer st)) = true
        /\ LogParser.parseLine h now p (ids (lineNumber st - 1)) (buffer st) fileName
                               (lineNumber st) = Throw cause.
Proof.
  intros p fileName fileSize st cause. unfold finishReading.
  destruct (nonEmpty (trim (buffer st))).
  - destruct (LogParser.parseLine h now p (ids (lineNumber st - 1)) (buffer st) fileName
                                  (lineNumber st)) as [[e |] | err].
    + split; [discriminate | intros [_ H]; discriminate H].
    + split; [discriminate | intros [_ H]; discriminate H].
    + split.
      * intro H. injection H as ->. split; reflexivity.
      * intros [_ H]. injection H as ->. reflexivity.
  - split; [discriminate | intros [H _]; discriminate H].
Qed.

Lemma removelast_length :
  forall (l : list string), l <> [] -> S (List.length (removelast l)) = List.length l.
Proof.
  intros l H. rewrite (app_removelast_last "" H) at 2.
  rewrite length_app. cbn [List.length]. lia.
Qed.

(** The reading when the stream is done: the last line is in the buffer
    and the line number is the number of lines. *)
Lemma readChunk_start :
  forall p fileName text,
    buffer (readChunk h now ids p fileName start text) = last (LogParser.splitLines text) ""
    /\ lineNumber (readChunk h now ids p fileName start text)
       = List.length (LogParser.splitLines text).
Proof.
  intros p fileName text. rewrite readChunk_eq.
  change (chars (buffer start) ++ chars text)%list with (chars text).
  fold (LogParser.splitLines text).
  destruct (completeLines_lineNumber h now ids p fileName
              (removelast (LogParser.splitLines text))
              (withBuffer (last (LogParser.splitLines text) "") start)) as [Hn Hb].
  rewrite Hn, Hb. cbn [withBuffer buffer lineNumber start].
  split; [reflexivity |].
  apply removelast_length. apply splitLinesFrom_nonempty.
Qed.

Lemma last_line_after_line_feed :
  forall pre,
    last (LogParser.splitLinesFrom [] (pre ++ [ascii_of_N 10])) "" = "".
Proof.
  intro pre. rewrite splitLinesFrom_app.
  cbn [LogParser.splitLinesFrom].
  change (code (ascii_of_N 10) =? 10)%N with true. cbv iota.
  rewrite last_app_nonempty by discriminate. reflexivity.
Qed.

End LastLine.

(** The worker's [parseFile] throws exactly when the last line of the
    text, the one no line feed ends, is not blank and makes [parseLine]
    throw: that line is parsed outside the [try] that turns the failures of
    the other lines into recorded errors.  The text that ends with a line
    feed never makes it throw. *)
Theorem worker_parseFile_throws_on_last_line :
  forall (h : Host) (now : Z) (ids : nat -> string) (options : LogParser.ParseOptions)
         (fileName : string) (fileSize : nat) (chunks : list string) (cause : JsError),
    let lines := LogParser.splitLines (wholeText chunks) in
    (ParserWorker.parseFile h now ids options fileName fileSize chunks
     = ParserWorker.FailedToParseFile cause
     <-> nonEmpty (trim (last lines "")) = true
         /\ LogParser.parseLine h now (LogParser.new options) (ids (List.length lines - 1))
                                (last lines "") fileName (List.length lines)
            = Throw cause)
    /\ (endsWithLineFeed (wholeText chunks) ->
        exists log,
          ParserWorker.parseFile h now ids options fileName fileSize chunks
          = ParserWorker.Parsed log).
Proof.
  intros h now ids options fileName fileSize chunks cause lines.
  unfold ParserWorker.parseFile.
  rewrite (readChunks_whole h now ids _ fileName chunks ParserWorker.start eq_refl).
  destruct (readChunk_start h now ids (LogParser.new options) fileName (wholeText chunks))
    as [Hb Hn].
  split.
  - rewrite finishReading_fails. rewrite Hb, Hn. reflexivity.
  - intros [pre E]. unfold ParserWorker.finishReading. rewrite Hb.
    unfold LogParser.splitLines. rewrite E, last_line_after_line_feed.
    eexists. reflexivity.
Qed.

(** A stream cut inside its last line, which is no JSON text and has no
    line feed after it. *)
Lemma worker_parseFile_throws_witness :
  ParserWorker.parseFile bareHost 0 (fun _ => "id") (LogParser.mkOptions None None)
                         "app.log" 14 brokenTail
  = ParserWorker.FailedToParseFile (JsonParsingFailed SyntaxError).
Proof.
  apply (proj2 (proj1 (worker_parseFile_throws_on_last_line bareHost 0 (fun _ => "id")
                         (LogParser.mkOptions None None) "app.log" 14 brokenTail
                         (JsonParsingFailed SyntaxError)))).
  split; reflexivity.
Defined.

(** With the line feed the same line is a recorded error, as it is for the
    [parseFile] of the parser itself with or without the line feed. *)
Remark worker_parseFile_with_line_feed :
  (exists log,
      ParserWorker.parseFile bareHost 0 (fun _ => "id") (LogParser.mkOptions None None)
                             "app.log" 15 brokenTailClosed = ParserWorker.Parsed log
      /\ List.length (ParsedLog.entries log) = 1
      /\ ParsedLog.errors log = [ParseError.mk 2 "{oops}" (JsonParsingFailed SyntaxError)]
      /\ ParsedLog.totalLines log = 2)
  /\ ParsedLog.errors
       (fst (LogParser.parseFile bareHost 0 (fun _ => "id") LogParser.default
                                 (wholeText brokenTail) "app.log" 14))
     = [ParseError.mk 2 "{oops}" (JsonParsingFailed SyntaxError)].
Proof.
  split.
  - eexists. split; [reflexivity |]. repeat split.
  - reflexivity.
Qed.

(* ------------------------------------------------------------------ *)
(** * Highlighting *)

Section Highlighting.

Import Regex Utils.

Lemma syntax_not_backslash :
  forall c, isSyntaxCharacter c = false -> Ascii.eqb c "\" = false.
Proof.
  intros c H. destruct (Ascii.eqb_spec c "\") as [-> | _]; [discriminate H | reflexivity].
Qed.

(** Reading an escaped text gives the text back. *)
Lemma literalOf_escapeChars : forall l, literalOf (escapeChars l) = Some l.
Proof.
  induction l as [| c r IH]; [reflexivity |].
  cbn [escapeChars]. destruct (isSyntaxCharacter c) eqn:Hc.
  - cbn [literalOf]. change (Ascii.eqb "\" "\") with true. cbv iota.
    rewrite Hc, IH. reflexivity.
  - cbn [literalOf]. rewrite (syntax_not_backslash c Hc), Hc, IH. reflexivity.
Qed.

Lemma escapeChars_length :
  forall l,
    List.length (escapeChars l)
    = List.length l + List.length (List.filter isSyntaxCharacter l).
Proof.
  induction l as [| c r IH]; [reflexivity |].
  cbn [escapeChars List.filter]. destruct (isSyntaxCharacter c); cbn [List.length]; lia.
Qed.

Lemma escapeChars_plain :
  forall l, forallb (fun c => negb (isSyntaxCharacter c)) l = true -> escapeChars l = l.
Proof.
  induction l as [| c r IH]; intro H; [reflexivity |].
  cbn [forallb] in H. apply andb_prop in H. destruct H as [Hc Hr].
  apply negb_true_iff in Hc. cbn [escapeChars]. rewrite Hc, (IH Hr). reflexivity.
Qed.

Lemma groupOfLiteral_escaped :
  forall query,
    groupOfLiteral ("(" ++ escapeRegExp query ++ ")") = Some (Grp 1 (lit (chars query))).
Proof.
  intro query. unfold groupOfLiteral.
  change ("(" ++ escapeRegExp query ++ ")") with (String "(" (escapeRegExp query ++ ")")).
  change (chars (String "(" (escapeRegExp query ++ ")")))
    with ("("%char :: chars (escapeRegExp query ++ ")")).
  rewrite chars_append. unfold escapeRegExp. rewrite chars_ofChars.
  change (Ascii.eqb "(" "(") with true. cbv iota.
  change (chars ")") with [")"%char].
  rewrite rev_app_distr. cbn [rev app].
  change (Ascii.eqb ")" ")") with true. cbv iota.
  rewrite rev_involutive, literalOf_escapeChars. reflexivity.
Qed.

Lemma upper_lower : forall c, upper (lower c) = upper c.
Proof. intro c. destruct c as [[] [] [] [] [] [] [] []]; vm_compute; reflexivity. Qed.

(** Under the [i] flag two characters match when they are the same in
    lower case. *)
Lemma eqChar_lower : forall c x, eqChar true c x = Ascii.eqb (lower c) (lower x).
Proof.
  intros c x. unfold eqChar.
  destruct (Ascii.eqb_spec (upper c) (upper x)) as [E | N];
    destruct (Ascii.eqb_spec (lower c) (lower x)) as [E' | N']; try reflexivity.
  - elim N'. rewrite <- (lower_upper c), <- (lower_upper x), E. reflexivity.
  - elim N. rewrite <- (upper_lower c), <- (upper_lower x), E'. reflexivity.
Qed.

(** A literal does not match where the text does not begin with it, letter
    case apart. *)
Lemma lit_no_match :
  forall q pv l cs (k : state -> option state),
    q <> [] ->
    prefix (toLowerCase (ofChars q)) (toLowerCase (ofChars l)) = false ->
    run true (lit q) (mkState pv l cs) k = None.
Proof.
  induction q as [| c q IH]; intros pv l cs k Hne H; [elim Hne; reflexivity |].
  destruct l as [| x xs].
  - destruct q; reflexivity.
  - change (toLowerCase (ofChars (c :: q))) with (String (lower c) (toLowerCase (ofChars q))) in H.
    change (toLowerCase (ofChars (x :: xs)))
      with (String (lower x) (toLowerCase (ofChars xs))) in H.
    cbn [prefix] in H.
    destruct q as [| c2 q2].
    + cbn [lit run rest]. rewrite eqChar_lower.
      destruct (Ascii.eqb_spec (lower c) (lower x)) as [E | N]; [| reflexivity].
      destruct (ascii_dec (lower c) (lower x)) as [_ | N]; [| elim N; exact E].
      change (toLowerCase (ofChars [])) with "" in H.
      rewrite prefix_empty in H. discriminate H.
    + change (lit (c :: c2 :: q2)) with (Seq (Chr c) (lit (c2 :: q2))).
      rewrite run_Seq, run_Chr, eqChar_lower.
      destruct (Ascii.eqb_spec (lower c) (lower x)) as [E | N]; [| reflexivity].
      destruct (ascii_dec (lower c) (lower x)) as [_ | N]; [| elim N; exact E].
      apply IH; [discriminate | exact H].
Qed.

(** A literal matches the text that is the same in lower case, and takes
    it whole. *)
Lemma lit_match :
  forall q pv l tail cs (k : state -> option state),
    q <> [] ->
    toLowerCase (ofChars q) = toLowerCase (ofChars l) ->
    run true (lit q) (mkState pv (l ++ tail) cs) k
    = k (mkState (lastOf l pv) tail cs).
Proof.
  induction q as [| c q IH]; intros pv l tail cs k Hne H; [elim Hne; reflexivity |].
  destruct l as [| x xs]; [discriminate H |].
  change (toLowerCase (ofChars (c :: q))) with (String (lower c) (toLowerCase (ofChars q))) in H.
  change (toLowerCase (ofChars (x :: xs)))
    with (String (lower x) (toLowerCase (ofChars xs))) in H.
  injection H as Hc Hq.
  destruct q as [| c2 q2].
  - destruct xs; [| discriminate Hq].
    cbn [lit run rest app]. rewrite eqChar_lower, Hc, Ascii.eqb_refl. reflexivity.
  - change (lit (c :: c2 :: q2)) with (Seq (Chr c) (lit (c2 :: q2))).
    rewrite run_Seq. cbn [app]. rewrite run_Chr, eqChar_lower, Hc, Ascii.eqb_refl.
    rewrite (IH (Some x) xs tail cs k ltac:(discriminate) Hq).
    reflexivity.
Qed.

Lemma includes_tail :
  forall c s p, includes (String c s) p = false -> includes s p = false.
Proof.
  intros c s p H. cbn [includes] in H. apply orb_false_elim in H. exact (proj2 H).
Qed.

Lemma includes_head :
  forall s p, includes s p = false -> prefix p s = false.
Proof.
  intros s p H. destruct s; cbn [includes] in H; apply orb_false_elim in H; exact (proj1 H).
Qed.

(** Where the literal occurs nowhere, the replacement leaves the text as
    it is. *)
Lemma replaceFrom_absent :
  forall q render l pv,
    q <> [] ->
    includes (toLowerCase (ofChars l)) (toLowerCase (ofChars q)) = false ->
    replaceFrom true (Grp 1 (lit q)) render pv 0 l = l.
Proof.
  intros q render. induction l as [| x xs IH]; intros pv Hne H.
  - cbn [replaceFrom]. unfold matchHere. rewrite run_Grp.
    rewrite (lit_no_match q pv [] [] _ Hne (includes_head _ _ H)). reflexivity.
  - cbn [replaceFrom]. unfold matchHere. rewrite run_Grp.
    rewrite (lit_no_match q pv (x :: xs) [] _ Hne (includes_head _ _ H)).
    rewrite (IH (Some x) Hne).
    + reflexivity.
    + change (toLowerCase (ofChars (x :: xs)))
        with (String (lower x) (toLowerCase (ofChars xs))) in H.
      exact (includes_tail _ _ _ H).
Qed.

Lemma replaceFrom_skip_all :
  forall ci r render l pv,
    replaceFrom ci r render pv (List.length l) l
    = replaceFrom ci r render (lastOf l pv) 0 [].
Proof.
  intros ci r render. induction l as [| x xs IH]; intro pv; [reflexivity |].
  cbn [List.length replaceFrom]. rewrite (IH (Some x)). reflexivity.
Qed.

Lemma nonEmpty_chars : forall s, nonEmpty s = true -> chars s <> [].
Proof. intros [| c s] H; [discriminate H | discriminate]. Qed.

End Highlighting.

(** [escapeRegExp] makes of any text a pattern that denotes that text:
    reading the escaped text as a pattern gives the characters of the text
    back, each syntax character being escaped and no other; so the pattern
    [highlightText] builds from a query is always the query taken literally
    in one capturing group, and [highlightText] never throws.  The escaped
    text is longer by the number of syntax characters, and a text without
    any is left as it is. *)
Theorem escapeRegExp_makes_a_literal :
  forall (text query : string),
    Utils.literalOf (chars (Utils.escapeRegExp query)) = Some (chars query)
    /\ Utils.groupOfLiteral ("(" ++ Utils.escapeRegExp query ++ ")")
       = Some (Regex.Grp 1 (Regex.lit (chars query)))
    /\ (exists out, Utils.highlightText text query = Return out)
    /\ String.length (Utils.escapeRegExp query)
       = String.length query
         + List.length (List.filter Utils.isSyntaxCharacter (chars query))
    /\ (forallb (fun c => negb (Utils.isSyntaxCharacter c)) (chars query) = true ->
        Utils.escapeRegExp query = query).
Proof.
  intros text query. split; [| split; [| split; [| split]]].
  - unfold Utils.escapeRegExp. rewrite chars_ofChars. apply literalOf_escapeChars.
  - apply groupOfLiteral_escaped.
  - unfold Utils.highlightText. destruct (negb (nonEmpty (trim query))).
    + eexists. reflexivity.
    + rewrite groupOfLiteral_escaped. eexists. reflexivity.
  - rewrite !string_length_chars. unfold Utils.escapeRegExp. rewrite chars_ofChars.
    apply escapeChars_length.
  - intro H. unfold Utils.escapeRegExp. rewrite (escapeChars_plain _ H).
    apply ofChars_chars.
Qed.

(** A text without syntax characters. *)
Lemma escapeRegExp_witness : Utils.escapeRegExp "abc" = "abc".
Proof.
  exact (proj2 (proj2 (proj2 (proj2 (escapeRegExp_makes_a_literal "" "abc")))) eq_refl).
Defined.



(** A query inside a longer text, twice and in two letter cases. *)
Remark highlightText_inside :
  Utils.highlightText "An error, an ERROR." "error"
  = Return ("An " ++ Utils.markOpen ++ "error" ++ Utils.markClose ++ ", an "
            ++ Utils.markOpen ++ "ERROR" ++ Utils.markClose ++ ".").
Proof. reflexivity. Qed.

(** A text with a dot and a star, and what reading its escaped form gives. *)
Remark escapeRegExp_dot_star :
  Utils.escapeRegExp "a.b*" = String "a" (String "\" (String "." (String "b" (String "\" "*"))))
  /\ Utils.literalOf (chars (Utils.escapeRegExp "a.b*")) = Some (chars "a.b*")
  /\ Utils.literalOf (chars "a.b*") = None.
Proof. repeat split. Qed.

(* ------------------------------------------------------------------ *)
(** * Levels: priority and colour *)

Lemma not_canonical_eqb :
  forall u l, ~ canonicalLevel u -> (u =? levelName l) = false.
Proof.
  intros u l H. destruct (String.eqb_spec u (levelName l)) as [E | _]; [| reflexivity].
  elim H. exists l. exact E.
Qed.

(** On the six level names, which is all the normalizer returns, the
    priority runs from 0 for TRACE to 5 for FATAL and the colour class is
    [log-level-] followed by the name in lower case; two normalized levels
    have the same priority, and the same colour, only when they are the same
    level.  Any other string has the priority and the colour of INFO. *)
Theorem level_priority_and_colour :
  forall (s t u : string),
    let a := normalizeLogLevel s in
    let b := normalizeLogLevel t in
    getLogLevelPriority a <= 5
    /\ (getLogLevelPriority a = getLogLevelPriority b <-> a = b)
    /\ (Utils.getLogLevelColor a = Utils.getLogLevelColor b <-> a = b)
    /\ Utils.getLogLevelColor a = "log-level-" ++ toLowerCase a
    /\ List.map (fun l => getLogLevelPriority (levelName l))
                [TRACE; DEBUG; INFO; WARN; ERROR; FATAL] = [0; 1; 2; 3; 4; 5]
    /\ (~ canonicalLevel u ->
        getLogLevelPriority u = getLogLevelPriority "INFO"
        /\ Utils.getLogLevelColor u = Utils.getLogLevelColor "INFO").
Proof.
  intros s t u a b.
  destruct (normalizeLogLevel_canonical s) as [la Ha].
  destruct (normalizeLogLevel_canonical t) as [lb Hb].
  unfold a, b. rewrite Ha, Hb.
  split; [destruct la; cbn; lia |].
  split; [destruct la, lb; cbn; split; intro H; try reflexivity; discriminate H |].
  split; [destruct la, lb; cbn; split; intro H; try reflexivity; discriminate H |].
  split; [destruct la; reflexivity |].
  split; [reflexivity |].
  intro Hu. unfold getLogLevelPriority, Utils.getLogLevelColor.
  pose proof (not_canonical_eqb u TRACE Hu) as H1.
  pose proof (not_canonical_eqb u DEBUG Hu) as H2.
  pose proof (not_canonical_eqb u INFO Hu) as H3.
  pose proof (not_canonical_eqb u WARN Hu) as H4.
  pose proof (not_canonical_eqb u ERROR Hu) as H5.
  pose proof (not_canonical_eqb u FATAL Hu) as H6.
  cbn [levelName] in H1, H2, H3, H4, H5, H6.
  rewrite H1, H2, H3, H4, H5, H6. split; reflexivity.
Qed.

(** The word [warning] is no level name: it is shown as INFO is. *)
Lemma level_priority_and_colour_witness :
  getLogLevelPriority "warning" = getLogLevelPriority "INFO"
  /\ Utils.getLogLevelColor "warning" = Utils.getLogLevelColor "INFO".
Proof.
  apply (proj2 (proj2 (proj2 (proj2 (proj2 (level_priority_and_colour "" "" "warning")))))).
  intros [l H]. destruct l; discriminate H.
Defined.


(* ------------------------------------------------------------------ *)
(** * Structured lines: time, message and origin *)

Section StructuredRecord.

Variable h : Host.
Variable now : Z.

Lemma firstString_first :
  forall json before field after s,
    (forall g, In g before -> textMember (Js.get json g) = false) ->
    Js.get json field = JStr s ->
    nonEmpty s = true ->
    LogParser.firstString json (before ++ field :: after) = Some s.
Proof.
  intros json before field after s Hb Hf Hs. induction before as [| g r IH].
  - cbn [app LogParser.firstString]. rewrite Hf, Hs. reflexivity.
  - cbn [app LogParser.firstString].
    pose proof (Hb g (or_introl eq_refl)) as Hg.
    assert (IH' : LogParser.firstString json (r ++ field :: after) = Some s).
    { apply IH. intros g' Hg'. apply Hb. right. exact Hg'. }
    destruct (Js.get json g) as [| | b | d | t | d | l | ps]; try exact IH'.
    cbn [textMember] in Hg. rewrite Hg. exact IH'.
Qed.

Lemma firstString_none :
  forall json names,
    (forall g, In g names -> textMember (Js.get json g) = false) ->
    LogParser.firstString json names = None.
Proof.
  intros json names H. induction names as [| g r IH].
  - reflexivity.
  - cbn [LogParser.firstString].
    pose proof (H g (or_introl eq_refl)) as Hg.
    assert (IH' : LogParser.firstString json r = None).
    { apply IH. intros g' Hg'. apply H. right. exact Hg'. }
    destruct (Js.get json g) as [| | b | d | t | d | l | ps]; try exact IH'.
    cbn [textMember] in Hg. rewrite Hg. exact IH'.
Qed.

Lemma firstString_nonEmpty :
  forall json names s, LogParser.firstString json names = Some s -> nonEmpty s = true.
Proof.
  intros json names s. induction names as [| g r IH]; intro H.
  - discriminate H.
  - cbn [LogParser.firstString] in H.
    destruct (Js.get json g) as [| | b | d | t | d | l | ps]; try exact (IH H).
    destruct (nonEmpty t) eqn:Ht; [| exact (IH H)].
    injection H as <-. exact Ht.
Qed.

(** The parts of the record [parseJsonLine] makes of an object. *)
Lemma entryOfJson_parts :
  forall newId ps line fileName n e,
    LogParser.entryOfJson h now newId (JObj ps) line fileName n = Return e ->
    LogEntry.timestamp e
    = match LogParser.firstTruthy (JObj ps) LogParser.timestampFields with
      | Some v => LogParser.parseTimestamp h now v
      | None => Some now
      end
    /\ Some (LogEntry.message e)
       = match LogParser.firstString (JObj ps) LogParser.messageFields with
         | Some s => Some s
         | None => JSON.stringify h (JObj ps)
         end
    /\ LogEntry.source e
       = Js.or (Js.get (JObj ps) "source")
               (Js.or (Js.get (JObj ps) "logger") (JStr fileName))
    /\ LogEntry.service e
       = Js.or (Js.get (JObj ps) "service")
               (Js.or (Js.get (JObj ps) "app") (Js.get (JObj ps) "component"))
    /\ LogEntry.host e = Js.or (Js.get (JObj ps) "host") (Js.get (JObj ps) "hostname").
Proof.
  intros newId ps line fileName n e H.
  unfold LogParser.entryOfJson, LogParser.extractTimestamp, LogParser.extractMessage,
    LogParser.readable in H.
  cbn [Js.absent bind] in H.
  destruct (LogParser.firstTruthy (JObj ps) LogParser.timestampFields) as [v |];
    cbn [bind] in H;
    (destruct (LogParser.extractLevel h (JObj ps)) as [lv | err]; [| discriminate H]);
    cbn [bind] in H;
    (destruct (LogParser.firstString (JObj ps) LogParser.messageFields) as [s |];
     cbn [bind JSON.stringify] in H; injection H as <-; repeat split).
Qed.

End StructuredRecord.



(* ------------------------------------------------------------------ *)
(** * Which lines fail *)

Section Failures.

Variable h : Host.
Variable now : Z.

(** What [parseJsonLine] does with an object: it throws only when the
    first truthy level member is no string. *)
Lemma entryOfJson_object :
  forall newId ps line fileName n,
    match LogParser.firstTruthy (JObj ps) LogParser.levelFields with
    | Some v =>
        if isText v
        then exists e, LogParser.entryOfJson h now newId (JObj ps) line fileName n = Return e
        else LogParser.entryOfJson h now newId (JObj ps) line fileName n = Throw TypeError
    | None => exists e, LogParser.entryOfJson h now newId (JObj ps) line fileName n = Return e
    end.
Proof.
  intros newId ps line fileName n.
  unfold LogParser.entryOfJson, LogParser.extractTimestamp, LogParser.extractLevel,
    LogParser.extractMessage, LogParser.readable.
  cbn [Js.absent bind JSON.stringify].
  destruct (LogParser.firstTruthy (JObj ps) LogParser.timestampFields) as [ts |];
    cbn [bind];
    (destruct (LogParser.firstTruthy (JObj ps) LogParser.levelFields) as [v |];
     [ destruct v; cbn [isText LogParser.normalizeLogLevelOf bind]; try reflexivity
     | cbn [bind] ]);
    (destruct (LogParser.firstString (JObj ps) LogParser.messageFields) as [msg |];
     cbn [bind]; eexists; reflexivity).
Qed.

Lemma parseLine_throws :
  forall p newId line fileName n cause,
    LogParser.parseLine h now p newId line fileName n = Throw cause
    <-> nonEmpty (trim line) = true
        /\ LogParser.jsonDetection p && LogParser.looksLikeJson line = true
        /\ structuredFailure line cause.
Proof.
  intros p newId line fileName n cause. unfold LogParser.parseLine. split.
  - intro H. destruct (nonEmpty (trim line)); [| discriminate H]. cbn [negb] in H.
    destruct (LogParser.jsonDetection p && LogParser.looksLikeJson line) eqn:Hjson.
    + split; [reflexivity |]. split; [reflexivity |].
      apply andb_prop in Hjson. destruct Hjson as [_ Hlooks].
      unfold LogParser.parseJsonLine in H.
      destruct (JSON.parse line) as [json |] eqn:Hdecode.
      * destruct (parse_looksLikeJson_object line json Hlooks Hdecode) as [ps ->].
        pose proof (entryOfJson_object newId ps line fileName n) as Hobj.
        destruct (LogParser.firstTruthy (JObj ps) LogParser.levelFields) as [v |] eqn:Hv.
        -- destruct (isText v) eqn:Htext.
           ++ destruct Hobj as [e He]. rewrite He in H. discriminate H.
           ++ rewrite Hobj in H. injection H as <-. right.
              exists (JObj ps), v. repeat split; assumption.
        -- destruct Hobj as [e He]. rewrite He in H. discriminate H.
      * injection H as <-. left. split; [exact Hdecode | reflexivity].
    + destruct (parseTextLine_returns h now newId line fileName n) as [e [He _]].
      rewrite He in H. discriminate H.
  - intros [Hline [Hjson Hfail]]. rewrite Hline, Hjson. cbn [negb].
    apply andb_prop in Hjson. destruct Hjson as [_ Hlooks].
    unfold LogParser.parseJsonLine.
    destruct Hfail as [[Hdecode ->] | [json [v [Hdecode [Hv [Htext ->]]]]]].
    + rewrite Hdecode. reflexivity.
    + rewrite Hdecode.
      destruct (parse_looksLikeJson_object line json Hlooks Hdecode) as [ps ->].
      pose proof (entryOfJson_object newId ps line fileName n) as Hobj.
      rewrite Hv, Htext in Hobj. rewrite Hobj. reflexivity.
Qed.

Variable ids : nat -> string.

Lemma jsonDetection_addError :
  forall p i content e,
    LogParser.jsonDetection (LogParser.addError p i content e) = LogParser.jsonDetection p.
Proof.
  intros p i content e. unfold LogParser.jsonDetection. rewrite addError_options.
  reflexivity.
Qed.

(** The errors the loop of [parseFile] adds. *)
Lemma parseLines_failures :
  forall fileName lines p i es es' p',
    LogParser.parseLines h now ids p fileName i lines es = (es', p') ->
    exists recorded,
      LogParser.errors p' = (LogParser.errors p ++ recorded)%list
      /\ Forall failedStructuredLine recorded
      /\ (LogParser.jsonDetection p = false -> recorded = []).
Proof.
  intros fileName. induction lines as [| l more IH]; intros p i es es' p' H.
  - injection H as <- <-. exists []. rewrite app_nil_r.
    split; [reflexivity |]. split; [constructor | reflexivity].
  - cbn [LogParser.parseLines] in H.
    destruct (negb (nonEmpty (trim l))); [exact (IH _ _ _ _ _ H) |].
    destruct (LogParser.parseLine h now p (ids i) (trim l) fileName (i + 1))
      as [[e |] | err] eqn:Hline; try exact (IH _ _ _ _ _ H).
    destruct (IH _ _ _ _ _ H) as [recorded [Eerr [Hrec Hoff]]].
    rewrite jsonDetection_addError in Hoff.
    apply parseLine_throws in Hline. destruct Hline as [_ [Hjson Hfail]].
    apply andb_prop in Hjson. destruct Hjson as [Hon Hlooks].
    rewrite addError_errors in Eerr.
    destruct (List.length (LogParser.errors p) <? errorCap p)%nat.
    + exists (ParseError.mk (i + 1) (trim l) err :: recorded).
      rewrite <- app_assoc in Eerr. split; [exact Eerr |].
      split; [| intro Hno; rewrite Hno in Hon; discriminate Hon].
      constructor; [| exact Hrec]. split; assumption.
    + exists recorded. split; [exact Eerr |]. split; [exact Hrec |].
      intro Hno. rewrite Hno in Hon. discriminate Hon.
Qed.

End Failures.





(* ------------------------------------------------------------------ *)
(** * The text operators of a filter *)

Section TextOperators.

Lemma prefix_split :
  forall a b, prefix a b = true <-> exists r, b = a ++ r.
Proof.
  induction a as [| c a IH]; intro b.
  - rewrite prefix_empty. split; [intros _; exists b; reflexivity | reflexivity].
  - destruct b as [| d b]; cbn [prefix].
    + split; [discriminate | intros [r E]; discriminate E].
    + destruct (Ascii.ascii_dec c d) as [-> | Hne].
      * rewrite IH. split; intros [r E]; exists r.
        -- cbn [append]. rewrite E. reflexivity.
        -- cbn [append] in E. injection E as E. exact E.
      * split; [discriminate |]. intros [r E]. cbn [append] in E. injection E as E _.
        elim Hne. symmetry. exact E.
Qed.

Lemma includes_split :
  forall s p, includes s p = true <-> exists pre post, s = pre ++ p ++ post.
Proof.
  induction s as [| c s IH]; intro p; cbn [includes].
  - rewrite orb_false_r, prefix_split. split.
    + intros [r E]. exists "", r. exact E.
    + intros [pre [post E]]. destruct pre as [| x pre]; [| discriminate E].
      exists post. exact E.
  - rewrite orb_true_iff, prefix_split, IH. split.
    + intros [[r E] | [pre [post E]]].
      * exists "", r. exact E.
      * exists (String c pre), post. cbn [append]. rewrite E. reflexivity.
    + intros [pre [post E]]. destruct pre as [| x pre].
      * left. exists post. exact E.
      * right. cbn [append] in E. injection E as _ E. exists pre, post. exact E.
Qed.

Lemma append_empty : forall a : string, a ++ "" = a.
Proof. induction a as [| x a IH]; cbn [append]; [reflexivity | rewrite IH; reflexivity]. Qed.

Lemma endsWith_split :
  forall s p, endsWith s p = true <-> exists pre, s = pre ++ p.
Proof.
  intros s p. unfold endsWith. rewrite prefix_split. split.
  - intros [r E]. exists (ofChars (rev (chars r))).
    apply (f_equal chars) in E. rewrite chars_append, !chars_ofChars in E.
    apply (f_equal (@rev ascii)) in E. rewrite rev_app_distr, !rev_involutive in E.
    rewrite <- (ofChars_chars s), E, ofChars_app, ofChars_chars. reflexivity.
  - intros [pre ->]. exists (ofChars (rev (chars pre))).
    rewrite chars_append, rev_app_distr, ofChars_app. reflexivity.
Qed.

End TextOperators.


